(** * Emotion-Task-Optimizer: the decision core of [task.py] and [algorithms.py]

    A shallow embedding of the task entity, its scoring model, the strict
    filter, the CSP solver, the deadline selector, hill climbing and the
    A*-style sequence planner, followed by the properties proved of them.

    Conventions of the embedding.
    - Python numbers that are integers in the program ([base_priority],
      [duration], energy levels, day counts) are [Z]; scores and
      [success_rate] are exact rationals [Q].  Python evaluates the same
      expressions in binary floating point; every statement below is about
      order and about which summands enter a sum, and is read up to that
      rounding.
    - [datetime.now()] is a parameter [now] of the functions that read the
      clock; one call of an algorithm sees one value of it.
    - A date string is represented by what
      [datetime.strptime(s, "%Y-%m-%d")] makes of it (type [datestr]).
    - Task objects live in a store [heap] and are handled through
      references, so that two occurrences of one object in a pool stay
      aliased and the writes to [score] are seen through every alias.
    - Python exceptions are the [Raise] results of the monad [result]. *)

From Stdlib Require Import ZArith QArith Lia Lqa.
From stdpp Require Import base option list gmap strings sorting.

Local Open Scope string_scope.
Local Open Scope list_scope.
Local Open Scope Z_scope.

(** ** Python built-ins on rationals *)

Definition Qltb (x y : Q) : bool := negb (Qle_bool y x).

(** [max(a, b)]: the first argument unless the second is strictly larger. *)
Definition py_max (a b : Q) : Q := if Qltb a b then b else a.

(** [min(a, b)]: the first argument unless the second is strictly smaller. *)
Definition py_min (a b : Q) : Q := if Qltb b a then b else a.

(** [max(l, key=...)]: the first element whose key is maximal. *)
Fixpoint max_from {A} (key : A → Q) (best : A) (l : list A) : A :=
  match l with
  | [] => best
  | x :: l' => max_from key (if Qltb (key best) (key x) then x else best) l'
  end.

(** [min(l, key=...)] on integer keys: the first element whose key is
    minimal; [max] likewise. *)
Fixpoint zmin_from {A} (key : A → Z) (best : A) (l : list A) : A :=
  match l with
  | [] => best
  | x :: l' => zmin_from key (if key x <? key best then x else best) l'
  end.

Fixpoint zmax_from {A} (key : A → Z) (best : A) (l : list A) : A :=
  match l with
  | [] => best
  | x :: l' => zmax_from key (if key best <? key x then x else best) l'
  end.

(** [x in l] on lists of strings. *)
Definition str_in (x : string) (l : list string) : bool := bool_decide (x ∈ l).

(** ** Dates and times *)

(** A [datetime]: the proleptic ordinal of its date ([date.toordinal()])
    and its time of day. *)
Record datetime := mkDT {
  dt_ordinal : Z;
  dt_hour : Z;
  dt_minute : Z;
  dt_second : Z;
  dt_micro : Z
}.

(** [datetime.weekday()]: 0 is Monday; ordinal 1 is a Monday. *)
Definition weekday (t : datetime) : Z := (dt_ordinal t + 6) `mod` 7.

Definition at_midnight (t : datetime) : bool :=
  (dt_hour t =? 0) && (dt_minute t =? 0) && (dt_second t =? 0) && (dt_micro t =? 0).

(** [(datetime(d) - t).days] for the midnight of ordinal [d]: [timedelta]
    normalises with a non-negative time part, so [.days] rounds down. *)
Definition days_until (d : Z) (t : datetime) : Z :=
  d - dt_ordinal t - (if at_midnight t then 0 else 1).

(** What [strptime(s, "%Y-%m-%d")] makes of a stored date value. *)
Inductive datestr :=
  | DateNone              (* [None] or the empty string: falsy *)
  | DateBad               (* a value on which [strptime] raises *)
  | DateDay (ordinal : Z) (* a well-formed date *).

(** ** Task *)

Inductive requires_t :=
  | ReqOne (r : string)
  | ReqList (rs : list string).

(** The value under ["allowed_time"]: a dict with optional [start] and
    [end], or something that is not a dict. *)
Inductive allowed_time_t :=
  | AllowedDict (start end_ : option Z)
  | AllowedOther.

(** The [constraints] dict, one optional field per key the engine reads. *)
Record constraints_t := mkConstraints {
  c_time_constraints : option (list string);
  c_requires : option requires_t;
  c_max_time : option Z;
  c_date : option datestr;
  c_start_date : option datestr;
  c_preferred_time : option string;
  c_energy_required : option Z;
  c_allowed_time : option allowed_time_t
}.

Definition no_constraints : constraints_t :=
  mkConstraints None None None None None None None None.

Record Task := mkTask {
  name : string;
  base_priority : Z;
  category : string;
  duration : Z;
  emotion_fit : list string;
  deadline : datestr;
  task_type : string;
  constraints : constraints_t;
  score : Q;
  completed : bool;
  attempt_count : Z;
  last_attempted : option datetime;
  success_rate : Q;
  heuristic_score : option Q
}.

(** [Task.__init__]. *)
Definition Task_init (name : string) (base_priority : Z) (category : string)
    (duration : Z) (emotion_fit : list string) (deadline : datestr)
    (task_type : string) (constraints : constraints_t) : Task :=
  mkTask name base_priority category duration emotion_fit deadline task_type
         constraints 0%Q false 0 None 1%Q None.

(** Attributes [__init__] derives from [constraints]. *)
Definition preferred_time (t : Task) : string :=
  default "any" (c_preferred_time (constraints t)).

Definition energy_required (t : Task) : Z :=
  default 5 (c_energy_required (constraints t)).

Definition set_score (s : Q) (t : Task) : Task :=
  mkTask (name t) (base_priority t) (category t) (duration t) (emotion_fit t)
         (deadline t) (task_type t) (constraints t) s (completed t)
         (attempt_count t) (last_attempted t) (success_rate t) (heuristic_score t).

Definition set_heuristic_score (s : Q) (t : Task) : Task :=
  mkTask (name t) (base_priority t) (category t) (duration t) (emotion_fit t)
         (deadline t) (task_type t) (constraints t) (score t) (completed t)
         (attempt_count t) (last_attempted t) (success_rate t) (Some s).

(** [Task.get_time_suitability]. *)
Definition get_time_suitability (t : Task) (current_time : datetime) : Z :=
  let hour := dt_hour current_time in
  let flags :=
    match c_time_constraints (constraints t) with
    | Some tc =>
        if str_in "morning_only" tc && (12 <=? hour) then Some (-5)
        else if str_in "evening_only" tc && (hour <? 17) then Some (-5)
        else if str_in "office_hours" tc && ((hour <? 9) || (17 <=? hour)) then Some (-3)
        else None
    | None => None
    end in
  match flags with
  | Some v => v
  | None =>
      if String.eqb (preferred_time t) "morning" && (6 <=? hour) && (hour <? 12) then 3
      else if String.eqb (preferred_time t) "afternoon" && (12 <=? hour) && (hour <? 17) then 3
      else if String.eqb (preferred_time t) "evening" && (17 <=? hour) && (hour <? 22) then 3
      else if String.eqb (preferred_time t) "any" then 1
      else 0
  end.

(** [Task.get_urgency_bonus]; the bare [except] is the [DateBad] case. *)
Definition get_urgency_bonus (now : datetime) (t : Task) : Z :=
  match deadline t with
  | DateNone => 0
  | DateBad => 0
  | DateDay d =>
      let days := days_until d now in
      if days <? 0 then 10
      else if days =? 0 then 8
      else if days <=? 2 then 5
      else if days <=? 7 then 2
      else 0
  end.

Definition emotion_bonus (current_emotion : string) (t : Task) : Z :=
  if str_in current_emotion (emotion_fit t) then 8 else -4.

Definition type_bonus (t : Task) : Z :=
  if String.eqb (task_type t) "must_do" then 5
  else if String.eqb (task_type t) "mood_changer" then 3
  else 0.

Definition energy_bonus (current_energy : Z) (t : Task) : Z :=
  Z.max 0 (5 - Z.abs (energy_required t - current_energy)).

(** The sum [compute_score] forms before flooring it.  The parameter
    [urgency_bonus] is accepted and not read: the summand is the local
    [urgency], the result of [self.get_urgency_bonus()]. *)
Definition raw_score (now : datetime) (t : Task) (current_emotion : string)
    (current_time : option datetime) (current_energy : Z)
    (preference_bonus urgency_bonus : Q) : Q :=
  let current_time := default now current_time in
  let success_bonus := (success_rate t * 3)%Q in
  let urgency := get_urgency_bonus now t in
  (inject_Z (base_priority t)
   + inject_Z (emotion_bonus current_emotion t)
   + inject_Z (type_bonus t)
   + inject_Z (get_time_suitability t current_time)
   + inject_Z (energy_bonus current_energy t)
   + success_bonus
   + preference_bonus
   + inject_Z urgency)%Q.

(** [Task.compute_score]: the value returned (and stored in [self.score]). *)
Definition compute_score (now : datetime) (t : Task) (current_emotion : string)
    (current_time : option datetime) (current_energy : Z)
    (preference_bonus urgency_bonus : Q) : Q :=
  py_max (1 # 10)
    (raw_score now t current_emotion current_time current_energy
               preference_bonus urgency_bonus).

(** [Task.mark_attempted]. *)
Definition mark_attempted (now : datetime) (successful : bool) (t : Task) : Task :=
  mkTask (name t) (base_priority t) (category t) (duration t) (emotion_fit t)
         (deadline t) (task_type t) (constraints t) (score t)
         (if successful then true else completed t)
         (attempt_count t + 1) (Some now)
         (if successful then py_min 1 (success_rate t + (1 # 10))
          else py_max (1 # 10) (success_rate t - (2 # 10)))%Q
         (heuristic_score t).

(** ** Conditions and the store of task objects *)

(** The conditions dict, one optional field per key the engine reads. *)
Record conditions := mkCond {
  current_time : option datetime;
  available_resources : option (list string);
  current_energy : option Z;
  current_emotion : option string;
  preference_bonus : option Q;
  urgency_bonus : option Q
}.

Definition empty_conditions : conditions := mkCond None None None None None None.

(** Truth value of the dict: it has a key. *)
Definition cond_truthy (c : conditions) : bool :=
  bool_decide (is_Some (current_time c)) || bool_decide (is_Some (available_resources c))
  || bool_decide (is_Some (current_energy c)) || bool_decide (is_Some (current_emotion c))
  || bool_decide (is_Some (preference_bonus c)) || bool_decide (is_Some (urgency_bonus c)).

(** [current_conditions or {}] for an argument that may be [None] (or any
    other falsy value). *)
Definition cond_or_empty (c : option conditions) : conditions :=
  match c with
  | Some c => if cond_truthy c then c else empty_conditions
  | None => empty_conditions
  end.

(** A reference is the identity of a task object. *)
Definition ref := nat.
Definition heap := ref → Task.

Definition heap_set (h : heap) (r : ref) (t : Task) : heap :=
  λ r', if decide (r' = r) then t else h r'.

(** ** Constraint predicates ([task.py]) *)

(** [Task.is_time_suitable]. *)
Definition is_time_suitable (t : Task) (current_time : datetime) : bool :=
  let hour := dt_hour current_time in
  match c_time_constraints (constraints t) with
  | Some tc =>
      if str_in "morning_only" tc && (12 <=? hour) then false
      else if str_in "evening_only" tc && (hour <? 17) then false
      else if str_in "office_hours" tc && ((hour <? 9) || (17 <=? hour)) then false
      else if str_in "weekends_only" tc && (weekday current_time <? 5) then false
      else true
  | None => true
  end.

(** [constraints.get("date") or constraints.get("start_date")]. *)
Definition target_date (c : constraints_t) : option datestr :=
  match c_date c with
  | Some (DateDay d) => Some (DateDay d)
  | Some DateBad => Some DateBad
  | _ => c_start_date c
  end.

(** The date gate of [check_constraints]: [true] when it returns [False]. *)
Definition too_early (now : datetime) (c : constraints_t) : bool :=
  if bool_decide (is_Some (c_date c)) || bool_decide (is_Some (c_start_date c)) then
    match target_date c with
    | Some (DateDay d) => dt_ordinal now <? d
    | _ => false
    end
  else false.

Definition resources_of (cond : conditions) : list string :=
  default [] (available_resources cond).

Definition requires_met (c : constraints_t) (cond : conditions) : bool :=
  match c_requires c with
  | Some (ReqList rs) => forallb (λ item, str_in item (resources_of cond)) rs
  | Some (ReqOne r) => str_in r (resources_of cond)
  | None => true
  end.

Definition within_max_time (t : Task) : bool :=
  match c_max_time (constraints t) with
  | Some m => negb (m <? duration t)
  | None => true
  end.

(** [Task.check_constraints]. *)
Definition check_constraints (now : datetime) (t : Task) (cond : conditions) : bool :=
  if too_early now (constraints t) then false
  else if negb (requires_met (constraints t) cond) then false
  else if negb (within_max_time t) then false
  else if negb (is_time_suitable t now) then false
  else true.

(** ** The strict filter ([apply_strict_constraints]) *)

(** The emotion step of the loop body: [false] when the task is skipped. *)
Definition strict_emotion_ok (current_emotion : string) (t : Task) : bool :=
  if negb (str_in current_emotion (emotion_fit t)) then
    if negb (String.eqb (task_type t) "must_do" && (7 <=? base_priority t)) then false
    else true
  else true.

Definition strict_ok (now : datetime) (cond : conditions) (current_emotion : string)
    (t : Task) : bool :=
  let current_time := default now (current_time cond) in
  if negb (strict_emotion_ok current_emotion t) then false
  else if negb (is_time_suitable t current_time) then false
  else if negb (check_constraints now t cond) then false
  else true.

Definition apply_strict_constraints (now : datetime) (h : heap) (tasks : list ref)
    (cond : conditions) (current_emotion : string) : list ref :=
  match tasks with
  | [] => []
  | _ => filter (λ r, strict_ok now cond current_emotion (h r) = true) tasks
  end.

(** ** Exceptions *)

Inductive exn :=
  | KeyError    (* a dict lookup on a missing key *)
  | OutOfFuel   (* not a Python exception: the model's recursion budget is spent *).

Inductive result (A : Type) :=
  | Ok (a : A)
  | Raise (e : exn).
Arguments Ok {A} a.
Arguments Raise {A} e.

#[global] Instance result_ret : MRet result := λ A a, Ok a.
#[global] Instance result_bind : MBind result := λ A B f m,
  match m with
  | Ok a => f a
  | Raise e => Raise e
  end.

(** ** Insertion-ordered dicts keyed by a variable

    A CSP variable is a task name, or [None] when a heuristic found none. *)

Definition var := option string.
Definition assignment := list (var * bool).

Definition dict_mem (k : var) (a : assignment) : bool := bool_decide (k ∈ a.*1).

(** [a[k] = v]: in place when the key is there, appended otherwise. *)
Definition dict_set (k : var) (v : bool) (a : assignment) : assignment :=
  if dict_mem k a then (λ p, if decide (p.1 = k) then (k, v) else p) <$> a
  else (a ++ [(k, v)])%list.

(** [del a[k]]. *)
Definition dict_del (k : var) (a : assignment) : assignment :=
  filter (λ p, p.1 ≠ k) a.

(** [m[k]] on a dict whose keys are strings. *)
Definition getitem {V} (m : gmap string V) (k : var) : result V :=
  match k with
  | Some s => match m !! s with Some v => Ok v | None => Raise KeyError end
  | None => Raise KeyError
  end.

(** ** The CSP solver (class [CSP]) *)

Definition constraint := assignment → var → bool → result bool.

Record CSP := mkCSP {
  csp_tasks : list ref;
  csp_emotion : string;
  csp_conditions : conditions;
  variables : list string;
  domains : gmap string (list bool);
  csp_constraints : list constraint;
  task_map : gmap string ref
}.

Inductive warning :=
  | WarnNoSolution
  | WarnTime (task_name : string)
  | WarnRequires (task_name : string) (required : requires_t).

#[global] Instance requires_eq_dec : EqDecision requires_t.
Proof. solve_decision. Defined.

(** Truth value of a [requires] entry: a non-empty string or list. *)
Definition req_truthy (r : requires_t) : bool :=
  match r with
  | ReqOne s => negb (String.eqb s "")
  | ReqList rs => negb (bool_decide (rs = []))
  end.

(** [constraints.get("requires", "")]. *)
Definition get_requires (t : Task) : requires_t :=
  default (ReqOne "") (c_requires (constraints t)).

Section CSP_solver.
Variable now : datetime.
Variable h : heap.

(** The closure of [add_emotion_constraint]. *)
Definition emotion_constraint (task_map : gmap string ref) (emotion : string)
    : constraint :=
  λ _ variable value,
    if value then
      task ← getitem task_map variable;
      Ok (str_in emotion (emotion_fit (h task)))
    else Ok true.

(** The closure of [add_time_constraint]. *)
Definition time_constraint (task_map : gmap string ref) (cond : conditions)
    : constraint :=
  λ _ variable value,
    if value then
      task ← getitem task_map variable;
      Ok (is_time_suitable (h task) (default now (current_time cond)))
    else Ok true.

(** The closure of [add_resource_constraint]. *)
Definition resource_constraint (task_map : gmap string ref) (cond : conditions)
    : constraint :=
  λ _ variable value,
    if value then
      task ← getitem task_map variable;
      Ok (check_constraints now (h task) cond)
    else Ok true.

(** [CSP.__init__]: the constraints are appended in the order emotion,
    resource, time. *)
Definition CSP_init (tasks : list ref) (emotion : string)
    (current_conditions : option conditions) : CSP :=
  let cond := cond_or_empty current_conditions in
  let tmap := foldl (λ m task, <[name (h task) := task]> m) ∅ tasks in
  {| csp_tasks := tasks;
     csp_emotion := emotion;
     csp_conditions := cond;
     variables := (λ task, name (h task)) <$> tasks;
     domains := foldl (λ m task, <[name (h task) := [true; false]]> m) ∅ tasks;
     csp_constraints := [emotion_constraint tmap emotion;
                         resource_constraint tmap cond;
                         time_constraint tmap cond];
     task_map := tmap |}.

Variable self : CSP.

(** The loop of [is_consistent] over [self.constraints]. *)
Fixpoint all_constraints (cs : list constraint) (temp : assignment)
    (variable : var) (value : bool) : result bool :=
  match cs with
  | [] => Ok true
  | c :: cs' =>
      ok ← c temp variable value;
      if negb (ok : bool) then Ok false else all_constraints cs' temp variable value
  end.

(** [CSP.is_consistent]. *)
Definition is_consistent (a : assignment) (variable : var) (value : bool)
    : result bool :=
  let temp_assignment := dict_set variable value a in
  all_constraints (csp_constraints self) temp_assignment variable value.

(** [var for var in self.variables if var not in assignment]. *)
Definition unassigned_of (a : assignment) : list string :=
  filter (λ v, dict_mem (Some v) a = false) (variables self).

Fixpoint count_legal (a : assignment) (variable : var) (values : list bool)
    : result Z :=
  match values with
  | [] => Ok 0
  | value :: values' =>
      ok ← is_consistent a variable value;
      n ← count_legal a variable values';
      Ok ((if (ok : bool) then 1 else 0) + n)
  end.

Fixpoint mrv_scores (a : assignment) (vs : list string)
    : result (list (Z * string)) :=
  match vs with
  | [] => Ok ([] : list (Z * string))
  | variable :: vs' =>
      values ← getitem (domains self) (Some variable);
      legal_values ← count_legal a (Some variable) values;
      rest ← mrv_scores a vs';
      Ok ((legal_values, variable) :: rest)
  end.

(** [CSP.mrv_heuristic]. *)
Definition mrv_heuristic (a : assignment) : result var :=
  match unassigned_of a with
  | [] => Ok None
  | unassigned =>
      scores ← mrv_scores a unassigned;
      match scores with
      | [] => Ok None
      | s :: scores' => Ok (Some (zmin_from fst s scores').2)
      end
  end.

(** The degree of one variable against the other unassigned ones. *)
Fixpoint degree_of (variable : string) (task1 : ref) (others : list string)
    : result Z :=
  match others with
  | [] => Ok 0
  | other_var :: others' =>
      d ← (if bool_decide (variable ≠ other_var) then
             task2 ← getitem (task_map self) (Some other_var);
             let time1_ok := is_time_suitable (h task1) now in
             let time2_ok := is_time_suitable (h task2) now in
             let d1 := if negb time1_ok && negb time2_ok then 1 else 0 in
             let req1 := get_requires (h task1) in
             let req2 := get_requires (h task2) in
             let d2 := if req_truthy req1 && req_truthy req2
                          && bool_decide (req1 = req2) then 1 else 0 in
             Ok (d1 + d2)
           else Ok 0);
      n ← degree_of variable task1 others';
      Ok (d + n)
  end.

Fixpoint degree_scores (unassigned vs : list string) : result (list (Z * string)) :=
  match vs with
  | [] => Ok ([] : list (Z * string))
  | variable :: vs' =>
      task1 ← getitem (task_map self) (Some variable);
      degree ← degree_of variable task1 unassigned;
      rest ← degree_scores unassigned vs';
      Ok ((degree, variable) :: rest)
  end.

(** [CSP.degree_heuristic]. *)
Definition degree_heuristic (a : assignment) : result var :=
  match unassigned_of a with
  | [] => Ok None
  | unassigned =>
      scores ← degree_scores unassigned unassigned;
      match scores with
      | [] => Ok None
      | s :: scores' => Ok (Some (zmax_from fst s scores').2)
      end
  end.

(** The loop [for value in [True, False]] of [backtrack]; [rec] is the
    recursive call.  The pair returned is (a solution was found, the
    state of the dict [assignment]). *)
Fixpoint try_values (rec : assignment → result (bool * assignment))
    (v : var) (values : list bool) (a : assignment)
    : result (bool * assignment) :=
  match values with
  | [] => Ok (false, a)
  | value :: values' =>
      ok ← is_consistent a v value;
      if (ok : bool) then
        r ← rec (dict_set v value a);
        if (r : bool * assignment).1 then Ok r
        else try_values rec v values' (dict_del v r.2)
      else try_values rec v values' a
  end.

(** [CSP.backtrack].  The dict [assignment] is mutated in place and is
    what a successful call returns, so the model returns its final state
    together with the flag [result is not None]. *)
Fixpoint backtrack (fuel : nat) (a : assignment) : result (bool * assignment) :=
  match fuel with
  | O => Raise OutOfFuel
  | S fuel' =>
      if bool_decide (length a = length (variables self)) then Ok (true, a)
      else
        v ← mrv_heuristic a;
        v ← (match v with
             | None => degree_heuristic a
             | Some _ => Ok v
             end);
        try_values (backtrack fuel') v [true; false] a
  end.

(** The loop of [solve] over [solution.items()]. *)
Fixpoint collect (items : assignment) : result (list ref * list warning) :=
  match items with
  | [] => Ok ([], [])
  | (task_name, recommended) :: items' =>
      if (recommended : bool) then
        task ← getitem (task_map self) task_name;
        let cond := csp_conditions self in
        let w1 := if negb (is_time_suitable (h task) (default now (current_time cond)))
                  then [WarnTime (name (h task))] else [] in
        let w2 := if negb (check_constraints now (h task) cond)
                  then (if req_truthy (get_requires (h task))
                        then [WarnRequires (name (h task)) (get_requires (h task))]
                        else [])
                  else [] in
        rest ← collect items';
        Ok (task :: (rest : list ref * list warning).1, (w1 ++ w2 ++ rest.2)%list)
      else collect items'
  end.

(** [CSP.solve]. *)
Definition solve (fuel : nat) : result (list ref * list warning) :=
  r ← backtrack fuel [];
  if negb (r : bool * assignment).1 then Ok ([], [WarnNoSolution])
  else collect r.2.

End CSP_solver.

(** [csp_filter]. *)
Definition csp_filter (now : datetime) (h : heap) (fuel : nat) (tasks : list ref)
    (emotion : string) (current_conditions : option conditions)
    : result (list ref * list warning) :=
  match tasks with
  | [] => Ok ([], [])
  | _ => solve now h (CSP_init now h tasks emotion current_conditions) fuel
  end.

(** What the three constraint closures ask of a task that is to be
    recommended: plain emotion membership, [check_constraints], and
    [is_time_suitable] at the time of the conditions. *)
Definition csp_passes (now : datetime) (emotion : string) (cond : conditions)
    (t : Task) : bool :=
  str_in emotion (emotion_fit t)
  && check_constraints now t cond
  && is_time_suitable t (default now (current_time cond)).

(** ** The deadline selector ([csp_task]) *)

Inductive category_t := overdue | due_today | due_tomorrow | due_week | due_later.

#[global] Instance category_eq_dec : EqDecision category_t.
Proof. solve_decision. Defined.

(** The warning strings, by their shape. *)
Inductive deadline_msg :=
  | MsgNoTasks                 (* "No tasks with deadlines found" *)
  | MsgNoDeadlines             (* "No tasks have deadlines set" *)
  | MsgEmpty                   (* "" *)
  | MsgOverdue (days : Z)      (* "This task is {abs(days)} days OVERDUE! ..." *)
  | MsgDueToday
  | MsgDueTomorrow
  | MsgDueWeek (days : Z)
  | MsgDueLater (days : Z).

(** [list.sort(key=...)]: a stable sort, here by insertion. *)
Fixpoint insert_by {A} (key : A → Z) (x : A) (l : list A) : list A :=
  match l with
  | [] => [x]
  | y :: l' => if key x <=? key y then x :: y :: l' else y :: insert_by key x l'
  end.

Definition sort_by {A} (key : A → Z) (l : list A) : list A :=
  foldr (insert_by key) [] l.

Definition has_deadline (t : Task) : bool :=
  match deadline t with
  | DateNone => false
  | _ => true
  end.

(** The bucket a number of days falls in. *)
Definition categorize (days : Z) : category_t :=
  if days <? 0 then overdue
  else if days =? 0 then due_today
  else if days =? 1 then due_tomorrow
  else if days <=? 7 then due_week
  else due_later.

(** The first loop: the parsable deadlines with their day counts, in pool
    order; a task on which [strptime] raises is skipped. *)
Definition parse_deadlines (h : heap) (current_time : datetime) (tasks : list ref)
    : list (ref * Z) :=
  omap (λ task, match deadline (h task) with
                | DateDay d => Some (task, days_until d current_time)
                | _ => None
                end) tasks.

(** [urgency_categories[category]] after the first loop. *)
Definition bucket (c : category_t) (parsed : list (ref * Z)) : list (ref * Z) :=
  filter (λ p, categorize p.2 = c) parsed.

Definition sort_bucket (c : category_t) (b : list (ref * Z)) : list (ref * Z) :=
  match c with
  | overdue => sort_by (λ x, Z.abs x.2) b
  | _ => sort_by (λ x, x.2) b
  end.

Definition message_of (c : category_t) (days : Z) : deadline_msg :=
  match c with
  | overdue => MsgOverdue (Z.abs days)
  | due_today => MsgDueToday
  | due_tomorrow => MsgDueTomorrow
  | due_week => MsgDueWeek days
  | due_later => MsgDueLater days
  end.

(** The loop over the categories, left at the first non-empty bucket. *)
Fixpoint select_category (cats : list category_t) (parsed : list (ref * Z))
    : option ref * deadline_msg * option category_t :=
  match cats with
  | [] => (None, MsgEmpty, None)
  | c :: cats' =>
      match sort_bucket c (bucket c parsed) with
      | [] => select_category cats' parsed
      | (task, days) :: _ => (Some task, message_of c days, Some c)
      end
  end.

(** [csp_task]; the urgency level ["none"] is [None]. *)
Definition csp_task (now : datetime) (h : heap) (tasks : list ref)
    (current_time : option datetime)
    : option ref * deadline_msg * option category_t :=
  match tasks with
  | [] => (None, MsgNoTasks, None)
  | _ =>
      match filter (λ task, has_deadline (h task) = true) tasks with
      | [] => (None, MsgNoDeadlines, None)
      | tasks_with_deadlines =>
          let current_time := default now current_time in
          select_category [overdue; due_today; due_tomorrow; due_week; due_later]
            (parse_deadlines h current_time tasks_with_deadlines)
      end
  end.

(** ** Greedy selection ([greedy]) *)

(** [emotion or "neutral"]. *)
Definition emotion_or_neutral (emotion : option string) : string :=
  match emotion with
  | Some e => if String.eqb e "" then "neutral" else e
  | None => "neutral"
  end.

(** One round of the scoring loop: [task.heuristic_score =
    task.compute_score(...)], which also writes [task.score]. *)
Definition score_task_greedy (now : datetime) (emotion : string)
    (current_time : datetime) (energy : Z) (pref urg : Q) (h : heap) (task : ref)
    : heap :=
  let s := compute_score now (h task) emotion (Some current_time) energy pref urg in
  heap_set h task (set_heuristic_score s (set_score s (h task))).

(** One round of the selection loop; [None] is the start
    ([best_task = None], [best_score = -inf]). *)
Definition greedy_step (h : heap) (best : option (ref * Q)) (task : ref)
    : option (ref * Q) :=
  let current_score := default 0%Q (heuristic_score (h task)) in
  match best with
  | None => Some (task, current_score)
  | Some (best_task, best_score) =>
      if Qltb best_score current_score then Some (task, current_score)
      else if Qeq_bool current_score best_score then
        if base_priority (h best_task) <? base_priority (h task)
        then Some (task, best_score)
        else if base_priority (h task) =? base_priority (h best_task) then
          if duration (h task) <? duration (h best_task)
          then Some (task, best_score)
          else best
        else best
      else best
  end.

Definition greedy (now : datetime) (h : heap) (tasks : list ref)
    (emotion : option string) (current_conditions : option conditions)
    : option ref * heap :=
  match tasks with
  | [] => (None, h)
  | _ =>
      let cond := cond_or_empty current_conditions in
      let current_time := default now (current_time cond) in
      let energy := default 5 (current_energy cond) in
      let pref := default 0%Q (preference_bonus cond) in
      let urg := default 0%Q (urgency_bonus cond) in
      let valid_tasks :=
        apply_strict_constraints now h tasks cond (emotion_or_neutral emotion) in
      match valid_tasks with
      | [] => (None, h)
      | _ =>
          let h' := foldl (score_task_greedy now (emotion_or_neutral emotion)
                             current_time energy pref urg) h valid_tasks in
          (fst <$> foldl (greedy_step h') None valid_tasks, h')
      end
  end.

(** ** Hill climbing ([hill_climbing], [calculate_task_similarity]) *)

Definition Qdiv_Z (a b : Z) : Q := (inject_Z a / inject_Z b)%Q.

(** [calculate_task_similarity]; every [hasattr] test holds of a [Task]. *)
Definition calculate_task_similarity (task1 task2 : Task) : Q :=
  let s1 : gset string := list_to_set (emotion_fit task1) in
  let s2 : gset string := list_to_set (emotion_fit task2) in
  let emotion_overlap := Z.of_nat (size (s1 ∩ s2)) in
  let emotion_total := Z.of_nat (size (s1 ∪ s2)) in
  let '(sim1, f1) :=
    if 0 <? emotion_total
    then ((Qdiv_Z emotion_overlap emotion_total * 2)%Q, 2)
    else (0%Q, 0) in
  let '(sim2, f2) :=
    if (0 <? duration task1) && (0 <? duration task2)
    then (Qdiv_Z (Z.min (duration task1) (duration task2))
                 (Z.max (duration task1) (duration task2)), 1)
    else (0%Q, 0) in
  let priority_diff := Z.abs (base_priority task1 - base_priority task2) in
  let sim3 := Qdiv_Z (10 - priority_diff) 10 in
  let sim4 := if String.eqb (task_type task1) (task_type task2) then 1%Q else 0%Q in
  let sim5 := if String.eqb (category task1) (category task2) then 1%Q else 0%Q in
  let similarity := (sim1 + sim2 + sim3 + sim4 + sim5)%Q in
  let factors := f1 + f2 + 1 + 1 + 1 in
  if 0 <? factors then (similarity / inject_Z factors)%Q else (5 # 10)%Q.

(** The neighbours of [current_best]: the other objects of the whole pool
    that are similar enough. *)
Definition neighbors_of (h : heap) (tasks : list ref) (current_best : ref) : list ref :=
  filter (λ task, task ≠ current_best ∧
                  Qle_bool (6 # 10) (calculate_task_similarity (h current_best) (h task)) = true)
         tasks.

(** The loop [for iteration in range(max_iterations)]. *)
Fixpoint climb (h : heap) (tasks : list ref) (iterations : nat) (current_best : ref)
    : ref :=
  match iterations with
  | O => current_best
  | S iterations' =>
      match neighbors_of h tasks current_best with
      | [] => current_best
      | n :: ns =>
          let best_neighbor := max_from (λ t, score (h t)) n ns in
          if Qltb (score (h current_best)) (score (h best_neighbor))
          then climb h tasks iterations' best_neighbor
          else current_best
      end
  end.

(** One round of the scoring loop of [hill_climbing]. *)
Definition score_task_hill (now : datetime) (emotion : string) (energy : Z)
    (h : heap) (task : ref) : heap :=
  heap_set h task
    (set_score (compute_score now (h task) emotion None energy 0 0) (h task)).

Definition hill_climbing (now : datetime) (h : heap) (tasks : list ref)
    (current_conditions : option conditions) (max_iterations : Z)
    : option ref * heap :=
  match tasks with
  | [] => (None, h)
  | _ =>
      let cond := cond_or_empty current_conditions in
      let emotion := default "neutral" (current_emotion cond) in
      let energy := default 5 (current_energy cond) in
      let valid_tasks := apply_strict_constraints now h tasks cond emotion in
      match valid_tasks with
      | [] => (None, h)
      | v :: vs =>
          let h' := foldl (score_task_hill now emotion energy) h valid_tasks in
          let start := max_from (λ t, score (h' t)) v vs in
          (Some (climb h' tasks (Z.to_nat max_iterations) start), h')
      end
  end.

(** ** The sequence planner ([mini_a_star]) *)

(** Step 3, "Remove duplicates": the first object of each name, in order
    ([list(unique_tasks.values())]). *)
Fixpoint unique_by_name (h : heap) (seen : list string) (pool : list ref) : list ref :=
  match pool with
  | [] => []
  | task :: pool' =>
      if str_in (name (h task)) seen then unique_by_name h seen pool'
      else task :: unique_by_name h (name (h task) :: seen) pool'
  end.

(** [g_score]; [fatigue_score] is a variable of the enclosing call. *)
Definition g_score (now : datetime) (fatigue_score : Z) (task : Task)
    (emotion : string) (is_first : bool) : Q :=
  let cost := inject_Z (10 - base_priority task) in
  let cost := if negb (str_in emotion (emotion_fit task)) then (cost + 5)%Q else cost in
  let cost := (cost + inject_Z fatigue_score * (5 # 10))%Q in
  let cost := if is_first then (cost - 2)%Q else cost in
  let cost :=
    if String.eqb (task_type task) "preference" then
      let cost := if str_in emotion (emotion_fit task) then (cost - 3)%Q else cost in
      match c_allowed_time (constraints task) with
      | Some (AllowedDict start end_) =>
          let current_hour := dt_hour now in
          let start := default 0 start in
          let end_ := default 24 end_ in
          if negb ((start <=? current_hour) && (current_hour <? end_))
          then (cost + 5)%Q else cost
      | _ => cost
      end
    else cost in
  py_max 0 cost.

(** [h_score]: the value returned; the call of [compute_score] also
    writes [task.score] (see [h_score_store]). *)
Definition h_score (now : datetime) (fatigue_score : Z) (task : Task)
    (predicted_emotion : string) : Q :=
  (50 - compute_score now task predicted_emotion (Some now) (10 - fatigue_score) 0 0)%Q.

Definition h_score_store (now : datetime) (fatigue_score : Z) (h : heap) (task : ref)
    (predicted_emotion : string) : heap :=
  heap_set h task
    (set_score (compute_score now (h task) predicted_emotion (Some now)
                              (10 - fatigue_score) 0 0) (h task)).

(** [predict_next_emotion]. *)
Definition predict_next_emotion (task : Task) (emotion : string) : string :=
  if str_in (category task) ["break"; "personal"; "life"; "mood_enhancer"; "user_preference"] then
    if str_in emotion ["sad"; "angry"; "tired"; "stressed"] then "neutral"
    else if str_in emotion ["neutral"; "happy"] then "happy"
    else emotion
  else if str_in (category task) ["academic"; "work"; "todo_must"] then
    if str_in emotion ["neutral"; "focused"] then "focused"
    else if str_in emotion ["sad"; "angry"; "tired"] then "tired"
    else emotion
  else if str_in emotion ["sad"; "angry"; "tired"] then "neutral"
  else emotion.

(** The search node. *)
#[warnings="-register-all"]
Inductive Node := mkNode {
  node_task : ref;
  emotion_after : string;
  node_g : Q;
  node_h : Q;
  node_f : Q;
  node_parent : option Node;
  node_depth : Z
}.

(** [Node.__init__]. *)
Definition Node_init (h : heap) (task : ref) (emotion : string) (g hh : Q)
    (parent : option Node) : Node :=
  {| node_task := task;
     emotion_after := predict_next_emotion (h task) emotion;
     node_g := g;
     node_h := hh;
     node_f := (g + hh)%Q;
     node_parent := parent;
     node_depth := match parent with
                   | None => 1
                   | Some p => node_depth p + 1
                   end |}.

(** [Node.sequence]: the tasks from the root down to the node. *)
Fixpoint sequence (n : Node) : list ref :=
  match node_parent n with
  | None => [node_task n]
  | Some p => (sequence p ++ [node_task n])%list
  end.

(** An entry of the open set: [(f, id(node), node)].  The identity of a
    node is the address [addr k] of the [k]-th node created; the entries
    present at one time have distinct addresses, so that the tuple
    comparison never reaches the nodes. *)
Definition entry := (Q * nat * Node)%type.

Section Planner.
Variable now : datetime.
Variable addr : nat → Z.

Definition entry_lt (e1 e2 : entry) : bool :=
  Qltb e1.1.1 e2.1.1
  || (Qeq_bool e1.1.1 e2.1.1 && (addr e1.1.2 <? addr e2.1.2)).

(** [heappop] on a non-empty open set [e :: l]: the least entry and the
    entries left. *)
Fixpoint pop_min (e : entry) (l : list entry) : entry * list entry :=
  match l with
  | [] => (e, [])
  | e' :: l' =>
      let '(m, rest) := pop_min e' l' in
      if entry_lt m e then (m, e :: rest) else (e, e' :: l')
  end.

(** The planner's state: the task store, the number of nodes created so
    far, the open set, [best_sequence] and [best_score] ([None] is
    [inf]). *)
Record search_state := mkState {
  st_heap : heap;
  st_serial : nat;
  st_open : list entry;
  best_sequence : option (list ref);
  best_score : option Q
}.

Variable fatigue_score : Z.
Variable all_tasks : list ref.

(** The initialisation loop of the open set. *)
Definition push_root (current_emotion : string) (st : search_state) (task : ref)
    : search_state :=
  let h := st_heap st in
  let g := g_score now fatigue_score (h task) current_emotion true in
  let p := predict_next_emotion (h task) current_emotion in
  let hh := h_score now fatigue_score (h task) p in
  let h' := h_score_store now fatigue_score h task p in
  let node := Node_init h' task current_emotion g hh None in
  {| st_heap := h';
     st_serial := S (st_serial st);
     st_open := (st_open st ++ [((g + hh)%Q, st_serial st, node)])%list;
     best_sequence := best_sequence st;
     best_score := best_score st |}.

(** The emotion gate of the expansion loop. *)
Definition next_emotion_ok (predicted_emotion : string) (t : Task) : bool :=
  if negb (str_in predicted_emotion (emotion_fit t)) then
    if negb (String.eqb (task_type t) "must_do" && (7 <=? base_priority t)) then false
    else true
  else true.

(** One round of [for next_task in all_tasks] for the node [node]. *)
Definition expand_step (node : Node) (st : search_state) (next_task : ref)
    : search_state :=
  if bool_decide (next_task ∈ sequence node) then st
  else
    let h := st_heap st in
    let predicted_emotion := emotion_after node in
    if negb (next_emotion_ok predicted_emotion (h next_task)) then st
    else
      let g_new := (node_g node
                    + g_score now fatigue_score (h next_task) predicted_emotion false)%Q in
      let p := predict_next_emotion (h next_task) predicted_emotion in
      let h_new := h_score now fatigue_score (h next_task) p in
      let h' := h_score_store now fatigue_score h next_task p in
      let new_node := Node_init h' next_task predicted_emotion g_new h_new (Some node) in
      {| st_heap := h';
         st_serial := S (st_serial st);
         st_open := (st_open st ++ [((g_new + h_new)%Q, st_serial st, new_node)])%list;
         best_sequence := best_sequence st;
         best_score := best_score st |}.

(** One round of [while open_set]; [None] when the open set is empty. *)
Definition search_step (max_sequence_length : Z) (st : search_state)
    : option search_state :=
  match st_open st with
  | [] => None
  | e :: l =>
      let '(m, rest) := pop_min e l in
      let node := m.2 in
      if max_sequence_length <=? node_depth node then
        let better := match best_score st with
                      | None => true
                      | Some b => Qltb (node_f node) b
                      end in
        Some {| st_heap := st_heap st;
                st_serial := st_serial st;
                st_open := rest;
                best_sequence := if better then Some (sequence node)
                                 else best_sequence st;
                best_score := if better then Some (node_f node)
                              else best_score st |}
      else
        Some (foldl (expand_step node)
                    {| st_heap := st_heap st;
                       st_serial := st_serial st;
                       st_open := rest;
                       best_sequence := best_sequence st;
                       best_score := best_score st |}
                    all_tasks)
  end.

(** The search loop, run for at most [fuel] rounds; [None] when the
    budget is spent before the open set is empty. *)
Fixpoint search (max_sequence_length : Z) (fuel : nat) (st : search_state)
    : option search_state :=
  match st_open st with
  | [] => Some st
  | _ =>
      match fuel with
      | O => None
      | S fuel' =>
          match search_step max_sequence_length st with
          | Some st' => search max_sequence_length fuel' st'
          | None => Some st
          end
      end
  end.

End Planner.

(** [l[:k]], also for a negative [k]. *)
Definition slice_to {A} (k : Z) (l : list A) : list A :=
  if k <? 0 then take (Z.to_nat (Z.of_nat (length l) + k)) l
  else take (Z.to_nat k) l.

(** [fatigue_score]: 0 unless the conditions are a non-empty dict. *)
Definition fatigue_of (current_conditions : option conditions) : Z :=
  match current_conditions with
  | Some c => if cond_truthy c then 10 - default 5 (current_energy c) else 0
  | None => 0
  end.

(** The state when the search loop is entered: one root per task. *)
Definition open_roots (now : datetime) (fatigue_score : Z) (current_emotion : string)
    (h : heap) (all_tasks : list ref) : search_state :=
  foldl (push_root now fatigue_score current_emotion)
        (mkState h 0 [] None None) all_tasks.

(** [[fallback_task] if fallback_task else []]. *)
Definition fallback_list (fallback_task : option ref) : list ref :=
  match fallback_task with
  | Some t => [t]
  | None => []
  end.

(** The last lines of [mini_a_star]: the best sequence when it has two
    tasks or more, the greedy choice otherwise. *)
Definition planner_result (now : datetime) (all_tasks : list ref)
    (current_emotion : string) (max_sequence_length : Z) (st : search_state)
    : list ref * heap :=
  match best_sequence st with
  | Some ((_ :: _ :: _) as seq) =>
      (slice_to max_sequence_length seq, st_heap st)
  | _ =>
      let '(fallback_task, h') :=
        greedy now (st_heap st) all_tasks (Some current_emotion) None in
      (fallback_list fallback_task, h')
  end.

(** [mini_a_star]; [None] only when [fuel] rounds of the search loop do
    not empty the open set. *)
Definition mini_a_star (now : datetime) (addr : nat → Z) (fuel : nat) (h : heap)
    (tasks : list ref) (current_emotion : string)
    (current_conditions : option conditions) (max_sequence_length : Z)
    (user_preferences : list ref) : option (list ref * heap) :=
  let pool := tasks ++ user_preferences in
  match pool with
  | [] => Some ([], h)
  | _ =>
      let valid_pool :=
        apply_strict_constraints now h pool (cond_or_empty current_conditions)
                                 current_emotion in
      match valid_pool with
      | [] => Some ([], h)
      | _ =>
          let all_tasks := unique_by_name h [] valid_pool in
          let fatigue_score := fatigue_of current_conditions in
          st ← search now addr fatigue_score all_tasks max_sequence_length fuel
                      (open_roots now fatigue_score current_emotion h all_tasks);
          Some (planner_result now all_tasks current_emotion max_sequence_length st)
      end
  end.

(** ** [analyze_csp_failure] *)

(** The three list comprehensions, in their order; [conditions] is a
    dict here, read with [.get]. *)
Definition analyze_csp_failure (now : datetime) (h : heap) (tasks : list ref)
    (emotion : string) (cond : conditions) : list ref :=
  let emotion_matches :=
    filter (λ t, str_in emotion (emotion_fit (h t)) = true) tasks in
  let time_suitable :=
    filter (λ t, is_time_suitable (h t) (default now (current_time cond)) = true)
           emotion_matches in
  filter (λ t, check_constraints now (h t) cond = true) time_suitable.

(** ** Random selection ([stochastic]) *)

(** [random.choice(seq)] is [seq[randbelow(len(seq))]], where the
    generator yields an index below the length; [randbelow] is the
    generator, a parameter of the model.  An index out of range, which the
    generator never yields, reads as the first element here. *)
Definition random_choice (randbelow : nat → nat) (first : ref) (rest : list ref) : ref :=
  nth (randbelow (length (first :: rest))) (first :: rest) first.

Definition stochastic (now : datetime) (randbelow : nat → nat) (h : heap)
    (tasks : list ref) (emotion : option string)
    (current_conditions : option conditions) : option ref :=
  match tasks with
  | [] => None
  | _ =>
      match apply_strict_constraints now h tasks (cond_or_empty current_conditions)
              (emotion_or_neutral emotion) with
      | [] => None
      | [only] => Some only
      | first :: rest => Some (random_choice randbelow first rest)
      end
  end.

(** ** Sorting in descending order *)

(** [list.sort(key=..., reverse=True)]: stable, so that of two elements
    of equal key the one that came first stays first; [gt y x] is
    [key(y) > key(x)]. *)
Fixpoint insert_desc {A} (gt : A → A → bool) (x : A) (l : list A) : list A :=
  match l with
  | [] => [x]
  | y :: l' => if gt y x then y :: insert_desc gt x l' else x :: y :: l'
  end.

Definition sort_desc {A} (gt : A → A → bool) (l : list A) : list A :=
  foldr (insert_desc gt) [] l.

(** ** The multi-objective ranking ([multi_objective_optimization]) *)

(** [max(...)] over a non-empty run of numbers. *)
Definition qmax_list (first : Q) (rest : list Q) : Q := foldl py_max first rest.

Definition zmax_list (first : Z) (rest : list Z) : Z := foldl Z.max first rest.

(** The default weights. *)
Definition default_weights : gmap string Q :=
  {[ "score" := (5 # 10)%Q; "duration" := (3 # 10)%Q; "success" := (2 # 10)%Q ]}.

(** The value [combined] of one round of the loop, for weights that are
    there. *)
Definition combined_value (h : heap) (w_score w_duration w_success : Q)
    (first : ref) (rest : list ref) (task : ref) : Q :=
  let max_score := qmax_list (score (h first)) ((λ t, score (h t)) <$> rest) in
  let score_norm := if Qltb 0 max_score then (score (h task) / max_score)%Q else 0%Q in
  let max_duration := zmax_list (duration (h first)) ((λ t, duration (h t)) <$> rest) in
  let duration_norm :=
    (1 - (if 0 <? max_duration then Qdiv_Z (duration (h task)) max_duration else 0))%Q in
  let success_norm := success_rate (h task) in
  (w_score * score_norm + w_duration * duration_norm + w_success * success_norm)%Q.

(** One round of the loop: the three weights are looked up in the order
    of the expression. *)
Definition combined_of (h : heap) (weights : gmap string Q)
    (first : ref) (rest : list ref) (task : ref) : result (Q * ref) :=
  w_score ← getitem weights (Some "score");
  w_duration ← getitem weights (Some "duration");
  w_success ← getitem weights (Some "success");
  Ok (combined_value h w_score w_duration w_success first rest task, task).

Fixpoint combined_all (h : heap) (weights : gmap string Q)
    (first : ref) (rest : list ref) (todo : list ref) : result (list (Q * ref)) :=
  match todo with
  | [] => Ok []
  | task :: todo' =>
      c ← combined_of h weights first rest task;
      cs ← combined_all h weights first rest todo';
      Ok (c :: cs)
  end.

Definition multi_objective_optimization (h : heap) (tasks : list ref)
    (weights : option (gmap string Q)) : result (list ref) :=
  match tasks with
  | [] => Ok []
  | first :: rest =>
      let weights := default default_weights weights in
      optimized ← combined_all h weights first rest tasks;
      Ok (snd <$> take 3 (sort_desc (λ y x : Q * ref, Qltb x.1 y.1) optimized))
  end.

(** ** The fallback sequence ([fallback_sequence_with_preferences]) *)

Definition mood_categories : list string :=
  ["break"; "personal"; "life"; "mood_enhancer"; "user_preference"].

Definition work_categories : list string := ["academic"; "work"; "todo_must"].

Definition preference_categories : list string := ["user_preference"; "mood_enhancer"].

(** [key=lambda x: x.base_priority, reverse=True]. *)
Definition by_priority (h : heap) (l : list ref) : list ref :=
  sort_desc (λ y x, base_priority (h x) <? base_priority (h y)) l.

(** [key=lambda x: (x.base_priority, -x.duration), reverse=True]: the
    tuples compare lexicographically. *)
Definition by_priority_then_short (h : heap) (l : list ref) : list ref :=
  sort_desc (λ y x,
               (base_priority (h x) <? base_priority (h y))
               || ((base_priority (h x) =? base_priority (h y))
                   && (- duration (h x) <? - duration (h y)))) l.

(** The front of the sequence, before the remaining slots are filled. *)
Definition fallback_front (h : heap) (matching_tasks : list ref) (emotion : string)
    (length_ : Z) : list ref :=
  if str_in emotion ["sad"; "angry"; "tired"; "stressed"] then
    let mood_tasks :=
      filter (λ t, str_in (category (h t)) mood_categories = true) matching_tasks in
    let work_tasks :=
      filter (λ t, str_in (category (h t)) work_categories = true) matching_tasks in
    let sequence1 :=
      match mood_tasks with
      | [] => []
      | _ => slice_to 1 (by_priority_then_short h mood_tasks)
      end in
    match work_tasks with
    | [] => sequence1
    | _ =>
        if Z.of_nat (length sequence1) <? length_
        then sequence1
             ++ slice_to (length_ - Z.of_nat (length sequence1)) (by_priority h work_tasks)
        else sequence1
    end
  else
    let productive_tasks :=
      filter (λ t, str_in (category (h t)) work_categories = true) matching_tasks in
    let preference_tasks :=
      filter (λ t, str_in (category (h t)) preference_categories = true) matching_tasks in
    let sequence1 :=
      match productive_tasks with
      | [] => []
      | _ => slice_to (Z.min 2 length_) (by_priority h productive_tasks)
      end in
    match preference_tasks with
    | [] => sequence1
    | _ =>
        if Z.of_nat (length sequence1) <? length_
        then sequence1
             ++ slice_to (length_ - Z.of_nat (length sequence1))
                         (by_priority h preference_tasks)
        else sequence1
    end.

(** [fallback_sequence_with_preferences]; the parameter
    [user_preferences] is accepted and not read. *)
Definition fallback_sequence_with_preferences (h : heap) (all_tasks : list ref)
    (emotion : string) (user_preferences : list ref) (length_ : Z) : list ref :=
  let matching_tasks :=
    match filter (λ t, str_in emotion (emotion_fit (h t)) = true) all_tasks with
    | [] => all_tasks
    | m => m
    end in
  let sequence1 := fallback_front h matching_tasks emotion length_ in
  let sequence2 :=
    if Z.of_nat (length sequence1) <? length_ then
      let remaining := filter (λ t, t ∉ sequence1) matching_tasks in
      sequence1
      ++ slice_to (length_ - Z.of_nat (length sequence1)) (by_priority h remaining)
    else sequence1 in
  slice_to length_ sequence2.

(** ** Preference ranking ([csp_preferences], [create_preference_task]) *)

(** What [csp_preferences] returns or raises: the bare empty list of its
    first lines, the pair of the ranked tasks and the excluded reasons,
    or the [ZeroDivisionError] of the resource fitness. *)
Inductive preferences_outcome :=
  | PrefNoTasks
  | PrefRanked (recommended : list ref) (excluded_reasons : list string)
  | PrefZeroDivision.

(** [sep.join(l)]. *)
Fixpoint join_with (sep : string) (l : list string) : string :=
  match l with
  | [] => ""
  | x :: l' =>
      match l' with
      | [] => x
      | _ => String.append x (String.append sep (join_with sep l'))
      end
  end.

(** Step 1, the resource check. *)
Definition pref_resource_valid (available_resources : list string) (t : Task) : bool :=
  match c_requires (constraints t) with
  | Some (ReqList required) => forallb (λ req, str_in req available_resources) required
  | Some (ReqOne required) => str_in required available_resources
  | None => true
  end.

(** Step 1, the two time checks: the window [allowed_time] and
    [preferred_time]. *)
Definition pref_window_valid (current_hour : Z) (t : Task) : bool :=
  match c_allowed_time (constraints t) with
  | Some (AllowedDict start end_) =>
      let start_hour := default 0 start in
      let end_hour := default 24 end_ in
      (start_hour <=? current_hour) && (current_hour <? end_hour)
  | _ => true
  end.

Definition pref_preferred_valid (current_hour : Z) (t : Task) : bool :=
  match c_preferred_time (constraints t) with
  | Some pref =>
      if String.eqb pref "morning" then (6 <=? current_hour) && (current_hour <? 12)
      else if String.eqb pref "afternoon" then (12 <=? current_hour) && (current_hour <? 17)
      else if String.eqb pref "evening" then (17 <=? current_hour) && (current_hour <? 22)
      else if String.eqb pref "daylight" then (7 <=? current_hour) && (current_hour <? 18)
      else if String.eqb pref "night" then (19 <=? current_hour) || (current_hour <? 5)
      else true
  | None => true
  end.

Definition pref_time_valid (current_hour : Z) (t : Task) : bool :=
  pref_window_valid current_hour t && pref_preferred_valid current_hour t.

(** The test [resource_valid and time_valid and emotion_valid]. *)
Definition pref_valid (current_hour : Z) (available_resources : list string)
    (current_emotion : string) (t : Task) : bool :=
  pref_resource_valid available_resources t
  && pref_time_valid current_hour t
  && str_in current_emotion (emotion_fit t).

(** The line appended to [excluded_reasons] for a task that fails. *)
Definition pref_reasons (current_hour : Z) (available_resources : list string)
    (current_emotion : string) (t : Task) : list string :=
  (if negb (pref_resource_valid available_resources t)
   then ["Resource constraint"] else [])
  ++ (if negb (pref_time_valid current_hour t) then ["Time constraint"] else [])
  ++ (if negb (str_in current_emotion (emotion_fit t))
      then [String.append "Emotion mismatch ("
              (String.append current_emotion ")")]
      else []).

Definition pref_reason_line (t : Task) (reasons : list string) : string :=
  String.append "**" (String.append (name t)
    (String.append "**: " (join_with ", " reasons))).

(** One round of the loop of Step 1 on the pair ([valid_tasks],
    [excluded_reasons]). *)
Definition pref_filter_step (h : heap) (current_hour : Z)
    (available_resources : list string) (current_emotion : string)
    (acc : list ref * list string) (task : ref) : list ref * list string :=
  if pref_valid current_hour available_resources current_emotion (h task)
  then (acc.1 ++ [task], acc.2)
  else
    let reasons :=
      pref_reasons current_hour available_resources current_emotion (h task) in
    match reasons with
    | [] => acc
    | _ => (acc.1, acc.2 ++ [pref_reason_line (h task) reasons])
    end.

(** Step 2: [task.mrv_score]. *)
Definition pref_mrv_score (t : Task) : Z :=
  let time_flexibility :=
    match c_allowed_time (constraints t) with
    | Some (AllowedDict start end_) => default 24 end_ - default 0 start
    | _ => 0
    end in
  let resource_flexibility :=
    match c_requires (constraints t) with
    | Some (ReqList required) => 10 - Z.of_nat (length required)
    | Some (ReqOne _) => 9
    | None => 0
    end in
  let emotion_flexibility := Z.of_nat (length (emotion_fit t)) in
  time_flexibility + resource_flexibility + emotion_flexibility.

(** Step 3: what one other task adds to the degree. *)
Definition pref_shared (t other : Task) : Z :=
  let d_time :=
    match c_allowed_time (constraints t), c_allowed_time (constraints other) with
    | Some (AllowedDict ts te), Some (AllowedDict os oe) =>
        let task_start := default 0 ts in
        let task_end := default 24 te in
        let other_start := default 0 os in
        let other_end := default 24 oe in
        if negb ((task_end <=? other_start) || (other_end <=? task_start))
        then 1 else 0
    | _, _ => 0
    end in
  let d_req :=
    match c_requires (constraints t), c_requires (constraints other) with
    | Some (ReqList task_req), Some (ReqList other_req) =>
        let common : gset string := list_to_set task_req ∩ list_to_set other_req in
        if bool_decide (common = ∅) then 0 else Z.of_nat (size common)
    | Some task_req, Some other_req =>
        if bool_decide (task_req = other_req) then 1 else 0
    | _, _ => 0
    end in
  d_time + d_req.

(** Step 3: [task.degree_score], over the other objects of
    [valid_tasks]. *)
Definition pref_degree (h : heap) (valid_tasks : list ref) (task : ref) : Z :=
  foldl (λ degree other_task,
           if bool_decide (task = other_task) then degree
           else degree + pref_shared (h task) (h other_task))
        0 valid_tasks.

(** Attributes that [csp_preferences] sets on task objects and that
    [Task.__init__] does not create; [None] while the object does not
    have the attribute. *)
Record pref_attrs := mkAttrs {
  mrv_score : option Z;
  degree_score : option Z;
  fitness_score : option Q
}.

(** The store of these attributes, one entry per task object. *)
Definition attr_store := ref → pref_attrs.

Definition attr_update (s : attr_store) (task : ref) (f : pref_attrs → pref_attrs)
    : attr_store :=
  λ r, if decide (r = task) then f (s r) else s r.

Definition set_mrv_score (v : Z) (a : pref_attrs) : pref_attrs :=
  mkAttrs (Some v) (degree_score a) (fitness_score a).

Definition set_degree_score (v : Z) (a : pref_attrs) : pref_attrs :=
  mkAttrs (mrv_score a) (Some v) (fitness_score a).

Definition set_fitness_score (v : Q) (a : pref_attrs) : pref_attrs :=
  mkAttrs (mrv_score a) (degree_score a) (Some v).

(** Step 4 with both heuristics: the value written to
    [task.heuristic_score], from the attributes read with [getattr]. *)
Definition pref_heuristic (s : attr_store) (task : ref) : Q :=
  let mrv_norm := 10 - default 5 (mrv_score (s task)) in
  let dh_norm := default 0 (degree_score (s task)) in
  ((6 # 10) * inject_Z mrv_norm + (4 # 10) * inject_Z dh_norm)%Q.

(** Steps 2 to 4: the loop that writes [task.mrv_score] when [use_mrv],
    the loop that writes [task.degree_score] when [use_dh], and
    [valid_tasks] sorted in place by the attributes just written; with
    both heuristics [task.heuristic_score] is written first.  The result
    is the sorted list, the task store and the attribute store. *)
Definition pref_order (use_mrv use_dh : bool) (h : heap) (s : attr_store)
    (valid_tasks : list ref) : list ref * heap * attr_store :=
  let s :=
    if use_mrv then
      foldl (λ s task, attr_update s task (set_mrv_score (pref_mrv_score (h task))))
            s valid_tasks
    else s in
  let s :=
    if use_dh then
      foldl (λ s task,
               attr_update s task (set_degree_score (pref_degree h valid_tasks task)))
            s valid_tasks
    else s in
  if use_mrv && use_dh then
    let h' :=
      foldl (λ hh task,
               heap_set hh task (set_heuristic_score (pref_heuristic s task) (hh task)))
            h valid_tasks in
    (sort_desc (λ y x, Qltb (default 0%Q (heuristic_score (h' x)))
                            (default 0%Q (heuristic_score (h' y))))
               valid_tasks, h', s)
  else if use_mrv then
    (sort_by (λ x, default 0 (mrv_score (s x))) valid_tasks, h, s)
  else if use_dh then
    (sort_desc (λ y x, default 0 (degree_score (s x)) <? default 0 (degree_score (s y)))
               valid_tasks, h, s)
  else (valid_tasks, h, s).

(** [abs] on rationals. *)
Definition py_abs (x : Q) : Q := if Qltb x 0 then (- x)%Q else x.

(** Step 5: the fitness of one task; [None] is [ZeroDivisionError].
    [optimal] is the entry ["optimal"] of the dict [allowed_time], and
    [is_preference] the truth value of the attribute of that name, both
    kept outside the record. *)
Definition pref_fitness (current_hour : Z) (available_resources : list string)
    (current_emotion : string) (optimal : option Q) (is_preference : bool)
    (t : Task) : option Q :=
  let fitness := 0%Q in
  let fitness :=
    match c_allowed_time (constraints t) with
    | Some (AllowedDict start end_) =>
        let optimal_hour :=
          default (Qdiv_Z (default 0 start + default 24 end_) 2) optimal in
        let time_diff := py_abs (inject_Z current_hour - optimal_hour) in
        let time_fitness := py_max 0 (10 - time_diff) in
        (fitness + time_fitness * (4 # 10))%Q
    | _ => fitness
    end in
  fitness ←
    match c_requires (constraints t) with
    | Some (ReqList required) =>
        let available_count :=
          Z.of_nat (length (filter (λ req, str_in req available_resources = true)
                                   required)) in
        if bool_decide (required = []) then None
        else
          let resource_fitness :=
            (Qdiv_Z available_count (Z.of_nat (length required)) * 10)%Q in
          Some (fitness + resource_fitness * (3 # 10))%Q
    | Some (ReqOne required) =>
        let resource_fitness :=
          if str_in required available_resources then 10%Q else 0%Q in
        Some (fitness + resource_fitness * (3 # 10))%Q
    | None => Some fitness
    end;
  let emotion_fitness :=
    if str_in current_emotion (emotion_fit t) then 10%Q else 5%Q in
  let fitness := (fitness + emotion_fitness * (3 # 10))%Q in
  let fitness := if is_preference then (fitness + 30)%Q else fitness in
  Some fitness.

(** The loop of Step 5, which also writes [task.fitness_score]; the
    attribute store returned is the one reached when the loop ends or
    raises. *)
Fixpoint pref_score_all (h : heap) (current_hour : Z)
    (available_resources : list string) (current_emotion : string)
    (optimal : ref → option Q) (is_preference : ref → bool) (s : attr_store)
    (todo : list ref) : option (list (Q * ref)) * attr_store :=
  match todo with
  | [] => (Some [], s)
  | task :: todo' =>
      match pref_fitness current_hour available_resources current_emotion
              (optimal task) (is_preference task) (h task) with
      | None => (None, s)
      | Some fitness =>
          let s := attr_update s task (set_fitness_score fitness) in
          let '(rest, s) :=
            pref_score_all h current_hour available_resources current_emotion
              optimal is_preference s todo' in
          (cons (fitness, task) <$> rest, s)
      end
  end.

(** [csp_preferences]; [current_conditions] is a dict.  The stores
    returned are the task store and the attribute store after the
    call. *)
Definition csp_preferences (now : datetime) (h : heap) (s : attr_store)
    (optimal : ref → option Q) (is_preference : ref → bool) (tasks : list ref)
    (current_conditions : conditions) (use_mrv use_dh : bool)
    : preferences_outcome * heap * attr_store :=
  match tasks with
  | [] => (PrefNoTasks, h, s)
  | _ =>
      let current_time := default now (current_time current_conditions) in
      let available_resources := resources_of current_conditions in
      let current_emotion :=
        default "neutral" (current_emotion current_conditions) in
      let current_hour := dt_hour current_time in
      let '(valid_tasks, excluded_reasons) :=
        foldl (pref_filter_step h current_hour available_resources current_emotion)
              ([], []) tasks in
      let '(valid_tasks, h', s) := pref_order use_mrv use_dh h s valid_tasks in
      match pref_score_all h' current_hour available_resources current_emotion
              optimal is_preference s valid_tasks with
      | (None, s') => (PrefZeroDivision, h', s')
      | (Some scored_tasks, s') =>
          (PrefRanked (snd <$> sort_desc (λ y x : Q * ref, Qltb x.1 y.1) scored_tasks)
                      excluded_reasons, h', s')
      end
  end.

(** The arguments of [create_preference_task] by their Python types. *)
Inductive emotions_arg :=
  | EmotionsList (l : list string)
  | EmotionsOne (e : string).

Inductive time_range_arg :=
  | TimeTuple2 (start end_ : Z)
  | TimeDict (start end_ : option Z)
  | TimeOther.

Inductive resources_arg :=
  | ResourcesList (l : list string)
  | ResourcesOne (r : string)
  | ResourcesNone.

(** [create_preference_task]; the task has no deadline. *)
Definition create_preference_task (name : string) (emotions : emotions_arg)
    (time_range : time_range_arg) (required_resources : resources_arg)
    (base_priority : Z) : Task :=
  let allowed_time :=
    match time_range with
    | TimeTuple2 s e => Some (AllowedDict (Some s) (Some e))
    | TimeDict s e => Some (AllowedDict s e)
    | TimeOther => None
    end in
  let requires :=
    match required_resources with
    | ResourcesList l => if bool_decide (l = []) then None else Some (ReqList l)
    | ResourcesOne r => if String.eqb r "" then None else Some (ReqList [r])
    | ResourcesNone => None
    end in
  Task_init name base_priority "user_preference" 30
    (match emotions with
     | EmotionsList l => l
     | EmotionsOne e => [e]
     end)
    DateNone "preference"
    (mkConstraints None requires None None None None None allowed_time).

(** ** The specification's wording, where it is compared with the code *)



(** The Emotion predicate as §4.1 words it: membership, bypassed for
    must-do tasks of priority 7 or more. *)
Definition emotion_predicate_spec (current_emotion : string) (t : Task) : bool :=
  str_in current_emotion (emotion_fit t)
  || (String.eqb (task_type t) "must_do" && (7 <=? base_priority t)).

(** The overdue tie-break as §4.4 words it: the largest overdue magnitude
    comes first. *)
Definition sort_overdue_spec (b : list (ref * Z)) : list (ref * Z) :=
  sort_by (λ x, - Z.abs x.2) b.

(** ** Invariants and measures used in the proofs *)

(** The state of a task after a run of attempts, each with the clock
    reading of its call. *)
Definition attempts_run (t : Task) (attempts : list (datetime * bool)) : Task :=
  foldl (λ t a, mark_attempted a.1 a.2 t) t attempts.

(** The verdict of the solver on a variable: that of the task its name
    maps to. *)
Definition csp_verdict (now : datetime) (h : heap) (self : CSP) (emotion : string)
    (cond : conditions) (v : string) : bool :=
  match task_map self !! v with
  | Some r => csp_passes now emotion cond (h r)
  | None => false
  end.

(** The invariant of the backtracking search: the keys of the assignment
    are distinct variables, each holding its verdict. *)
Definition assignment_ok (now : datetime) (h : heap) (self : CSP) (emotion : string)
    (cond : conditions) (a : assignment) : Prop :=
  NoDup a.*1
  ∧ ∀ k b, (k, b) ∈ a →
           ∃ v, k = Some v ∧ v ∈ variables self
                ∧ b = csp_verdict now h self emotion cond v.

(** The place of a category in the order the selector visits them. *)
Definition category_rank (c : category_t) : nat :=
  match c with
  | overdue => 0
  | due_today => 1
  | due_tomorrow => 2
  | due_week => 3
  | due_later => 4
  end.

(** The sort key of a bucket. *)
Definition bucket_key (c : category_t) (x : ref * Z) : Z :=
  match c with
  | overdue => Z.abs x.2
  | _ => x.2
  end.

(** The weight of an open-set entry for a pool of [n] tasks and a depth
    limit [D]: a bound on the rounds of the search loop spent on the
    entry and on everything expanded from it. *)
Definition entry_weight (n : nat) (D : Z) (e : entry) : nat :=
  (S n ^ Z.to_nat (D - node_depth e.2))%nat.

Definition open_weight (n : nat) (D : Z) (open : list entry) : nat :=
  sum_list_with (entry_weight n D) open.

(** What the planner maintains of a sequence of tasks: no object twice,
    and only objects of the deduplicated pool. *)
Definition sequence_ok (all_tasks : list ref) (s : list ref) : Prop :=
  NoDup s ∧ ∀ x, x ∈ s → x ∈ all_tasks.

Definition planner_ok (all_tasks : list ref) (st : search_state) : Prop :=
  (∀ e, e ∈ st_open st → sequence_ok all_tasks (sequence e.2))
  ∧ (∀ s, best_sequence st = Some s → sequence_ok all_tasks s).

(** The store before and after a call: the names are not written. *)
Definition same_names (h h' : heap) : Prop := ∀ r, name (h' r) = name (h r).

(** ** A pool for the concrete cases *)

(** Wednesday 2024-04-24, noon. *)
Definition ex_now : datetime := mkDT 739000 12 0 0 0.

(** Five task objects; objects 1 and 4 carry the same name. *)
Definition ex_heap : heap := λ r,
  match r with
  | 0%nat => Task_init "Write report" 9 "work" 60 ["happy"; "neutral"; "focused"]
                       (DateDay 738994) "must_do" no_constraints
  | 1%nat => Task_init "Take a walk" 5 "break" 20 ["sad"; "neutral"; "happy"]
                       (DateDay 738999) "mood_changer" no_constraints
  | 2%nat => Task_init "Read a chapter" 6 "personal" 30 ["happy"; "neutral"; "focused"]
                       DateNone "general" no_constraints
  | 3%nat => Task_init "Plan the week" 3 "work" 30 ["neutral"; "focused"; "happy"]
                       DateNone "general" no_constraints
  | _ => Task_init "Take a walk" 4 "break" 15 ["sad"] DateNone "general" no_constraints
  end.


(** The order of the greedy selector: [r] is at least as good as [v] when
    it scores strictly more, or the same with a higher priority, or the
    same with the same priority and a duration that is not longer. *)
Definition greedy_prefers (h : heap) (r v : ref) : Prop :=
  let sr := default 0%Q (heuristic_score (h r)) in
  let sv := default 0%Q (heuristic_score (h v)) in
  (sv < sr)%Q
  ∨ ((sv == sr)%Q
     ∧ (base_priority (h v) < base_priority (h r)
        ∨ (base_priority (h v) = base_priority (h r)
           ∧ duration (h r) <= duration (h v)))).

(** The state of the selection loop of [greedy] after the tasks [seen]. *)
Definition greedy_loop_ok (h : heap) (seen : list ref) (best : option (ref * Q)) : Prop :=
  match best with
  | None => seen = []
  | Some (b, bs) =>
      b ∈ seen
      ∧ (bs == default 0%Q (heuristic_score (h b)))%Q
      ∧ ∀ v, v ∈ seen → greedy_prefers h b v
  end.

(** What the planner maintains of the depths: the depth of a node is the
    length of its sequence and never passes the limit, and a best
    sequence has the full length. *)
Definition node_full (max_sequence_length : Z) (n : Node) : Prop :=
  node_depth n = Z.of_nat (length (sequence n)) ∧ node_depth n <= max_sequence_length.

Definition planner_full (max_sequence_length : Z) (st : search_state) : Prop :=
  (∀ e, e ∈ st_open st → node_full max_sequence_length e.2)
  ∧ (∀ s, best_sequence st = Some s → Z.of_nat (length s) = max_sequence_length).

(** The tasks of the pool that score strictly more than [r]: how far
    hill climbing can still go from [r]. *)
Definition better_than (h : heap) (tasks : list ref) (r : ref) : list ref :=
  filter (λ t, Qltb (score (h r)) (score (h t)) = true) tasks.

(** The fitness of Step 5 as a number (0 where the step fails). *)
Definition fitness_of (h : heap) (current_hour : Z) (available_resources : list string)
    (current_emotion : string) (optimal : ref → option Q)
    (is_preference : ref → bool) (r : ref) : Q :=
  default 0%Q (pref_fitness current_hour available_resources current_emotion
                 (optimal r) (is_preference r) (h r)).

(** The value Step 4 writes to [heuristic_score] with both heuristics,
    from the scores of Steps 2 and 3. *)
Definition pref_heuristic_value (h : heap) (valid_tasks : list ref) (task : ref) : Q :=
  ((6 # 10) * inject_Z (10 - pref_mrv_score (h task))
   + (4 # 10) * inject_Z (pref_degree h valid_tasks task))%Q.

(** The store before and after a call that writes [heuristic_score]
    only. *)
Definition heuristic_frame (h h' : heap) : Prop :=
  ∀ r, h' r = h r ∨ ∃ s, h' r = set_heuristic_score s (h r).

(** The order in which the solver assigns the variables [vs]: MRV takes
    the variables with one legal value, those whose verdict is [False],
    first. *)
Definition mrv_order (verdict : string → bool) (vs : list string) : list string :=
  filter (λ v, verdict v = false) vs ++ filter (λ v, verdict v = true) vs.

(** The emotional transitions of a sequence of tasks.  [follows h e s]:
    started in the predicted emotion [e], each task of [s] passes the
    emotion gate of the planner's expansion loop for the emotion
    predicted after the task before it. *)
Fixpoint follows (h : heap) (e : string) (s : list ref) : bool :=
  match s with
  | [] => true
  | t :: s' =>
      next_emotion_ok e (h t) && follows h (predict_next_emotion (h t) e) s'
  end.

(** The first task is not gated; the tasks after it are. *)
Definition transitions_ok (h : heap) (current_emotion : string) (s : list ref) : bool :=
  match s with
  | [] => true
  | t :: s' => follows h (predict_next_emotion (h t) current_emotion) s'
  end.

(** The emotion predicted after the tasks of [s]. *)
Definition emotion_at (h : heap) (current_emotion : string) (s : list ref) : string :=
  foldl (λ e t, predict_next_emotion (h t) e) current_emotion s.

(** The store before and after the planner's writes: the attributes the
    emotion gate and the prediction read are not written. *)
Definition same_static (h h' : heap) : Prop :=
  ∀ r, category (h' r) = category (h r)
       ∧ emotion_fit (h' r) = emotion_fit (h r)
       ∧ task_type (h' r) = task_type (h r)
       ∧ base_priority (h' r) = base_priority (h r).

Definition node_chain (h : heap) (current_emotion : string) (n : Node) : Prop :=
  emotion_after n = emotion_at h current_emotion (sequence n)
  ∧ transitions_ok h current_emotion (sequence n) = true.

Definition planner_chain (h : heap) (current_emotion : string) (st : search_state)
    : Prop :=
  same_static h (st_heap st)
  ∧ (∀ e, e ∈ st_open st → node_chain h current_emotion e.2)
  ∧ (∀ s, best_sequence st = Some s → transitions_ok h current_emotion s = true).

(** * Properties *)

(** ** Order on rationals *)

Lemma Qltb_lt (x y : Q) : Qltb x y = true ↔ (x < y)%Q.
Proof.
  unfold Qltb. rewrite negb_true_iff, <- not_true_iff_false, Qle_bool_iff.
  split; [apply Qnot_le_lt | apply Qlt_not_le].
Qed.

Lemma Qltb_ge (x y : Q) : Qltb x y = false ↔ (y <= x)%Q.
Proof.
  unfold Qltb. rewrite negb_false_iff. apply Qle_bool_iff.
Qed.

Lemma py_max_lower (a b : Q) : (a <= py_max a b)%Q.
Proof.
  unfold py_max. destruct (Qltb a b) eqn:E.
  - apply Qlt_le_weak, Qltb_lt, E.
  - apply Qle_refl.
Qed.

Lemma py_max_upper (a b c : Q) : (a <= c)%Q → (b <= c)%Q → (py_max a b <= c)%Q.
Proof. unfold py_max. destruct (Qltb a b); auto. Qed.

Lemma py_min_upper (a b : Q) : (py_min a b <= a)%Q.
Proof.
  unfold py_min. destruct (Qltb b a) eqn:E.
  - apply Qlt_le_weak, Qltb_lt, E.
  - apply Qle_refl.
Qed.

Lemma py_min_lower (a b c : Q) : (c <= a)%Q → (c <= b)%Q → (c <= py_min a b)%Q.
Proof. unfold py_min. destruct (Qltb b a); auto. Qed.

(** ** The scoring model *)

(** C5. For every task and every emotion label, time, energy, preference
    bonus and urgency bonus, [compute_score] returns a value that is at
    least 0.1; the function is total, so no input makes it fail. *)
Theorem compute_score_at_least_tenth (now : datetime) (t : Task)
    (current_emotion : string) (current_time : option datetime)
    (current_energy : Z) (preference_bonus urgency_bonus : Q) :
  (1 # 10 <= compute_score now t current_emotion current_time current_energy
                           preference_bonus urgency_bonus)%Q.
Proof. unfold compute_score. apply py_max_lower. Qed.


(** ** Success history *)

Lemma mark_attempted_in_range (now : datetime) (successful : bool) (t : Task) :
  (1 # 10 <= success_rate t)%Q → (success_rate t <= 1)%Q →
  (1 # 10 <= success_rate (mark_attempted now successful t))%Q
  ∧ (success_rate (mark_attempted now successful t) <= 1)%Q.
Proof.
  intros Hlo Hhi. destruct successful; simpl.
  - split; [| apply py_min_upper].
    apply py_min_lower; [reflexivity || (unfold Qle; simpl; lia) |].
    apply Qle_trans with (success_rate t); [exact Hlo |].
    rewrite <- (Qplus_0_r (success_rate t)) at 1.
    apply Qplus_le_r. unfold Qle; simpl; lia.
  - split; [apply py_max_lower |].
    apply py_max_upper; [unfold Qle; simpl; lia |].
    apply Qle_trans with (success_rate t); [| exact Hhi].
    rewrite <- (Qplus_0_r (success_rate t)) at 2.
    unfold Qminus. apply Qplus_le_r. unfold Qle; simpl; lia.
Qed.

(** C9. A task whose [success_rate] lies in [0.1, 1.0] (a new task has
    1.0) keeps it there through any sequence of [mark_attempted] calls; a
    successful attempt adds 0.1, capped at 1.0, and a failed one takes 0.2
    away, floored at 0.1. *)
Theorem success_rate_stays_clamped (t : Task) (attempts : list (datetime * bool)) :
  (1 # 10 <= success_rate t)%Q → (success_rate t <= 1)%Q →
  ((1 # 10 <= success_rate (attempts_run t attempts))%Q
   ∧ (success_rate (attempts_run t attempts) <= 1)%Q)
  ∧ (∀ now t', success_rate (mark_attempted now true t')
               = py_min 1 (success_rate t' + (1 # 10))%Q)
  ∧ (∀ now t', success_rate (mark_attempted now false t')
               = py_max (1 # 10) (success_rate t' - (2 # 10))%Q)
  ∧ (∀ n p c d e dl ty cs, success_rate (Task_init n p c d e dl ty cs) = 1%Q).
Proof.
  intros Hlo Hhi. split; [| repeat split].
  revert t Hlo Hhi. induction attempts as [| [now s] attempts IH]; intros t Hlo Hhi.
  - split; assumption.
  - simpl. destruct (mark_attempted_in_range now s t Hlo Hhi) as [H1 H2].
    apply IH; assumption.
Qed.

(** ** The strict filter *)

(** C8. The list [apply_strict_constraints] returns is made of elements
    of its input list, the same objects, in their original relative
    order. *)
Theorem strict_filter_is_sublist (now : datetime) (h : heap) (tasks : list ref)
    (cond : conditions) (current_emotion : string) :
  apply_strict_constraints now h tasks cond current_emotion `sublist_of` tasks.
Proof.
  unfold apply_strict_constraints. destruct tasks as [| r tasks]; [constructor |].
  apply sublist_filter.
Qed.

Lemma strict_filter_spec (now : datetime) (h : heap) (tasks : list ref)
    (cond : conditions) (current_emotion : string) (r : ref) :
  r ∈ apply_strict_constraints now h tasks cond current_emotion
  ↔ r ∈ tasks ∧ strict_ok now cond current_emotion (h r) = true.
Proof.
  unfold apply_strict_constraints. destruct tasks as [| r0 tasks].
  - split; [intros H; inversion H | intros [H _]; inversion H].
  - rewrite list_elem_of_filter. tauto.
Qed.

Lemma strict_emotion_ok_spec (current_emotion : string) (t : Task) :
  strict_emotion_ok current_emotion t = true
  ↔ current_emotion ∈ emotion_fit t
    ∨ (task_type t = "must_do" ∧ 7 <= base_priority t).
Proof.
  unfold strict_emotion_ok, str_in.
  destruct (bool_decide_reflect (current_emotion ∈ emotion_fit t)) as [Hin | Hin];
    simpl; [tauto |].
  destruct (String.eqb_spec (task_type t) "must_do") as [Ht | Ht]; simpl.
  - destruct (Z.leb_spec 7 (base_priority t)) as [Hp | Hp]; simpl; split; intros H;
      try tauto; try discriminate.
    destruct H as [H | [_ H]]; [tauto | lia].
  - split; [discriminate | intros [H | [H _]]; tauto].
Qed.

(** ** The Emotion checks *)

(** C4 (amended). In the strict filter a task passes the Emotion check
    iff the current emotion is in its [emotion_fit] or it is a must-do
    task of priority 7 or more.  The Emotion constraint of the CSP solver
    has no such exception: for a recommended task it holds iff the
    current emotion is in [emotion_fit], and it always holds for a task
    that is not recommended. *)
Theorem emotion_checks (now : datetime) (h : heap) (tasks : list ref)
    (emotion : string) (current_conditions : option conditions)
    (a : assignment) (v : string) (r : ref) :
  task_map (CSP_init now h tasks emotion current_conditions) !! v = Some r →
  (strict_emotion_ok emotion (h r) = true
   ↔ emotion ∈ emotion_fit (h r)
     ∨ (task_type (h r) = "must_do" ∧ 7 <= base_priority (h r)))
  ∧ head (csp_constraints (CSP_init now h tasks emotion current_conditions))
    = Some (emotion_constraint h
              (task_map (CSP_init now h tasks emotion current_conditions)) emotion)
  ∧ emotion_constraint h
      (task_map (CSP_init now h tasks emotion current_conditions)) emotion
      a (Some v) true
    = Ok (bool_decide (emotion ∈ emotion_fit (h r)))
  ∧ emotion_constraint h
      (task_map (CSP_init now h tasks emotion current_conditions)) emotion
      a (Some v) false
    = Ok true.
Proof.
  intros Hv. split; [apply strict_emotion_ok_spec |].
  split; [reflexivity |]. split; [| reflexivity].
  unfold emotion_constraint, getitem. rewrite Hv. reflexivity.
Qed.

(** ** Hill climbing *)

Lemma max_from_elem {A} (key : A → Q) (best : A) (l : list A) :
  max_from key best l ∈ best :: l.
Proof.
  revert best. induction l as [| x l IH]; intros best; simpl.
  - apply list_elem_of_here.
  - specialize (IH (if Qltb (key best) (key x) then x else best)).
    apply elem_of_cons in IH as [-> | IH].
    + destruct (Qltb (key best) (key x)).
      * apply list_elem_of_further, list_elem_of_here.
      * apply list_elem_of_here.
    + do 2 apply list_elem_of_further. exact IH.
Qed.

Lemma max_from_start {A} (key : A → Q) (best : A) (l : list A) :
  (key best <= key (max_from key best l))%Q.
Proof.
  revert best. induction l as [| x l IH]; intros best; simpl.
  - apply Qle_refl.
  - destruct (Qltb (key best) (key x)) eqn:E; [| apply IH].
    apply Qle_trans with (key x); [| apply IH].
    apply Qlt_le_weak, Qltb_lt, E.
Qed.

Lemma max_from_greatest {A} (key : A → Q) (best : A) (l : list A) (x : A) :
  x ∈ best :: l → (key x <= key (max_from key best l))%Q.
Proof.
  revert best. induction l as [| y l IH]; intros best Hx; simpl.
  - apply list_elem_of_singleton in Hx as ->. apply Qle_refl.
  - apply elem_of_cons in Hx as [-> | Hx].
    + apply Qle_trans with (key (if Qltb (key best) (key y) then y else best));
        [| apply max_from_start].
      destruct (Qltb (key best) (key y)) eqn:E; [| apply Qle_refl].
      apply Qlt_le_weak, Qltb_lt, E.
    + apply elem_of_cons in Hx as [-> | Hx].
      * apply Qle_trans with (key (if Qltb (key best) (key y) then y else best));
          [| apply max_from_start].
        destruct (Qltb (key best) (key y)) eqn:E; [apply Qle_refl |].
        apply Qltb_ge, E.
      * apply IH. apply list_elem_of_further, Hx.
Qed.

(** Every move of the climb goes to a strictly better score, so the task
    it ends on scores at least as well as the one it starts from. *)
Lemma climb_monotone (h : heap) (tasks : list ref) (iterations : nat) (start : ref) :
  (score (h start) <= score (h (climb h tasks iterations start)))%Q.
Proof.
  revert start. induction iterations as [| n IH]; intros start; simpl.
  - apply Qle_refl.
  - destruct (neighbors_of h tasks start) as [| x xs]; [apply Qle_refl |].
    destruct (Qltb _ _) eqn:E; [| apply Qle_refl].
    eapply Qle_trans; [| apply IH].
    apply Qlt_le_weak, Qltb_lt, E.
Qed.

Lemma climb_elem (h : heap) (tasks : list ref) (iterations : nat) (start : ref) :
  start ∈ tasks → climb h tasks iterations start ∈ tasks.
Proof.
  revert start. induction iterations as [| n IH]; intros start Hs; simpl; [exact Hs |].
  destruct (neighbors_of h tasks start) as [| x xs] eqn:En; [exact Hs |].
  destruct (Qltb _ _); [| exact Hs].
  apply IH.
  assert (Hm : max_from (λ t, score (h t)) x xs ∈ neighbors_of h tasks start)
    by (rewrite En; apply max_from_elem).
  unfold neighbors_of in Hm. apply list_elem_of_filter in Hm. tauto.
Qed.

Lemma compute_score_set_score (now : datetime) (s : Q) (t : Task) (e : string)
    (ct : option datetime) (en : Z) (p u : Q) :
  compute_score now (set_score s t) e ct en p u = compute_score now t e ct en p u.
Proof.
  unfold compute_score, raw_score, get_urgency_bonus, emotion_bonus, type_bonus,
    energy_bonus, energy_required, get_time_suitability, preferred_time, set_score.
  cbn [name base_priority category duration emotion_fit deadline task_type
       constraints success_rate].
  reflexivity.
Qed.

Lemma set_score_set_score (s s' : Q) (t : Task) :
  set_score s (set_score s' t) = set_score s t.
Proof. destruct t; reflexivity. Qed.

(** The scoring loop writes, into every task it visits, the score
    computed from the task as it was before the call. *)
Lemma hill_scoring_loop (now : datetime) (emotion : string) (energy : Z)
    (h : heap) (l : list ref) :
  let cs := λ r, compute_score now (h r) emotion None energy 0 0 in
  let h' := foldl (score_task_hill now emotion energy) h l in
  (∀ r, h' r = h r ∨ h' r = set_score (cs r) (h r))
  ∧ (∀ v, v ∈ l → h' v = set_score (cs v) (h v)).
Proof.
  intros cs. induction l as [| x l IH] using rev_ind; simpl.
  - split; [auto | intros v Hv; inversion Hv].
  - rewrite foldl_snoc. destruct IH as [IH1 IH2].
    set (hl := foldl (score_task_hill now emotion energy) h l) in *.
    assert (Hx : score_task_hill now emotion energy hl x x = set_score (cs x) (h x)).
    { unfold score_task_hill, heap_set. rewrite decide_True by reflexivity.
      destruct (IH1 x) as [-> | ->]; [reflexivity |].
      rewrite compute_score_set_score, set_score_set_score. reflexivity. }
    split.
    + intros r. destruct (decide (r = x)) as [-> | Hne]; [right; exact Hx |].
      unfold score_task_hill, heap_set. rewrite decide_False by exact Hne. apply IH1.
    + intros v Hv. destruct (decide (v = x)) as [-> | Hne]; [exact Hx |].
      apply elem_of_app in Hv as [Hv | Hv].
      * unfold score_task_hill, heap_set. rewrite decide_False by exact Hne.
        apply IH2, Hv.
      * apply list_elem_of_singleton in Hv. contradiction.
Qed.

(** C6. Whenever the strict filter leaves a task, [hill_climbing] returns
    a task of the pool whose score is not below the score of any strictly
    filtered task, the best-scoring starting task included; the scores
    compared are those the call has just computed.  It returns [None]
    exactly when the filter leaves nothing. *)
Theorem hill_climbing_not_below_start (now : datetime) (h : heap)
    (tasks : list ref) (current_conditions : option conditions)
    (max_iterations : Z) :
  let cond := cond_or_empty current_conditions in
  let emotion := default "neutral" (current_emotion cond) in
  let energy := default 5 (current_energy cond) in
  let valid := apply_strict_constraints now h tasks cond emotion in
  match hill_climbing now h tasks current_conditions max_iterations with
  | (Some r, h') =>
      r ∈ tasks
      ∧ Forall (λ v, score (h' v) = compute_score now (h v) emotion None energy 0 0) valid
      ∧ Forall (λ v, (score (h' v) <= score (h' r))%Q) valid
  | (None, _) => valid = []
  end.
Proof.
  intros cond emotion energy valid. unfold hill_climbing.
  destruct tasks as [| t0 tasks']; [reflexivity |].
  fold cond emotion energy valid.
  destruct valid as [| v vs] eqn:Ev; [reflexivity |].
  set (h' := foldl (score_task_hill now emotion energy) h (v :: vs)).
  set (start := max_from (λ t, score (h' t)) v vs).
  destruct (hill_scoring_loop now emotion energy h (v :: vs)) as [_ Hset].
  fold h' in Hset.
  assert (Hsub : ∀ x, x ∈ v :: vs → x ∈ t0 :: tasks').
  { intros x Hx. rewrite <- Ev in Hx. subst valid.
    apply strict_filter_spec in Hx. tauto. }
  split; [| split].
  - apply climb_elem, Hsub, max_from_elem.
  - apply Forall_forall. intros x Hx. rewrite (Hset x Hx). reflexivity.
  - apply Forall_forall. intros x Hx.
    apply Qle_trans with (score (h' start)); [| apply climb_monotone].
    apply (max_from_greatest (λ t, score (h' t))), Hx.
Qed.

(** ** The CSP solver *)

Lemma zmin_from_elem {A} (key : A → Z) (best : A) (l : list A) :
  zmin_from key best l ∈ best :: l.
Proof.
  revert best. induction l as [| x l IH]; intros best; simpl.
  - apply list_elem_of_here.
  - specialize (IH (if key x <? key best then x else best)).
    apply elem_of_cons in IH as [-> | IH].
    + destruct (key x <? key best).
      * apply list_elem_of_further, list_elem_of_here.
      * apply list_elem_of_here.
    + do 2 apply list_elem_of_further. exact IH.
Qed.

Lemma dict_set_fresh (k : var) (v : bool) (a : assignment) :
  k ∉ a.*1 → dict_set k v a = (a ++ [(k, v)])%list.
Proof.
  intros Hk. unfold dict_set, dict_mem. rewrite bool_decide_false by exact Hk.
  reflexivity.
Qed.

(** The dict [{task.name: task for task in tasks}]. *)
Lemma name_map_other (h : heap) (l : list ref) (m : gmap string ref) (k : string) :
  k ∉ (λ task, name (h task)) <$> l →
  foldl (λ m task, <[name (h task) := task]> m) m l !! k = m !! k.
Proof.
  revert m. induction l as [| x l IH]; intros m Hk; simpl; [reflexivity |].
  rewrite fmap_cons in Hk. apply not_elem_of_cons in Hk as [Hne Hk].
  rewrite IH by exact Hk. apply lookup_insert_ne. congruence.
Qed.

Lemma name_map_lookup (h : heap) (l : list ref) (m : gmap string ref) (r : ref) :
  NoDup ((λ task, name (h task)) <$> l) → r ∈ l →
  foldl (λ m task, <[name (h task) := task]> m) m l !! name (h r) = Some r.
Proof.
  revert m. induction l as [| x l IH]; intros m Hnd Hr; simpl; [inversion Hr |].
  rewrite fmap_cons in Hnd. apply NoDup_cons in Hnd as [Hx Hnd].
  apply elem_of_cons in Hr as [-> | Hr].
  - rewrite name_map_other by exact Hx. apply lookup_insert_eq.
  - apply IH; assumption.
Qed.

Lemma name_map_defined (h : heap) (l : list ref) (m : gmap string ref) (k : string) :
  k ∈ (λ task, name (h task)) <$> l →
  ∃ r, foldl (λ m task, <[name (h task) := task]> m) m l !! k = Some r
       ∧ r ∈ l ∧ name (h r) = k.
Proof.
  revert m. induction l as [| x l IH]; intros m Hk; simpl; [inversion Hk |].
  destruct (decide (k ∈ (λ task, name (h task)) <$> l)) as [Hin | Hout].
  - destruct (IH (<[name (h x) := x]> m) Hin) as (r & Hr & Hrl & Hn).
    exists r. split; [exact Hr |]. split; [apply list_elem_of_further, Hrl | exact Hn].
  - rewrite fmap_cons in Hk. apply elem_of_cons in Hk as [-> | Hk]; [| contradiction].
    exists x. rewrite name_map_other by exact Hout.
    split; [apply lookup_insert_eq |]. split; [apply list_elem_of_here | reflexivity].
Qed.

Lemma domain_map_lookup (h : heap) (l : list ref) (m : gmap string (list bool))
    (k : string) :
  k ∈ (λ task, name (h task)) <$> l →
  foldl (λ m task, <[name (h task) := [true; false]]> m) m l !! k
  = Some [true; false].
Proof.
  revert m. induction l as [| x l IH]; intros m Hk; simpl; [inversion Hk |].
  destruct (decide (k ∈ (λ task, name (h task)) <$> l)) as [Hin | Hout].
  - apply IH, Hin.
  - rewrite fmap_cons in Hk. apply elem_of_cons in Hk as [-> | Hk]; [| contradiction].
    clear IH. revert m. induction l as [| y l IH]; intros m; simpl.
    + apply lookup_insert_eq.
    + rewrite fmap_cons in Hout. apply not_elem_of_cons in Hout as [Hne Hout].
      rewrite insert_insert_ne by congruence. apply IH, Hout.
Qed.

Lemma filter_length_le {A} (P Q : A → Prop) `{∀ x, Decision (P x)}
    `{∀ x, Decision (Q x)} (l : list A) :
  (∀ y, Q y → P y) → (length (filter Q l) ≤ length (filter P l))%nat.
Proof.
  intros HQP. induction l as [| y l IH]; [reflexivity |].
  rewrite !filter_cons.
  destruct (decide (Q y)) as [Hq | Hq]; destruct (decide (P y)) as [Hp | Hp];
    simpl; try lia.
  exfalso. apply Hp, HQP, Hq.
Qed.

Lemma filter_length_lt {A} (P Q : A → Prop) `{∀ x, Decision (P x)}
    `{∀ x, Decision (Q x)} (l : list A) (x : A) :
  (∀ y, Q y → P y) → x ∈ l → P x → ¬ Q x →
  (length (filter Q l) < length (filter P l))%nat.
Proof.
  intros HQP Hx HP HQ. induction l as [| y l IH]; [inversion Hx |].
  rewrite !filter_cons.
  pose proof (filter_length_le P Q l HQP) as Hle.
  apply elem_of_cons in Hx as [<- | Hx].
  - rewrite decide_False by exact HQ. rewrite decide_True by exact HP. simpl. lia.
  - specialize (IH Hx).
    destruct (decide (Q y)) as [Hq | Hq]; destruct (decide (P y)) as [Hp | Hp];
      simpl; try lia.
    exfalso. apply Hp, HQP, Hq.
Qed.

Section CSP_facts.
Variable now : datetime.
Variable h : heap.
Variable tasks : list ref.
Variable emotion : string.
Variable current_conditions : option conditions.

Local Abbreviation csp := (CSP_init now h tasks emotion current_conditions).
Local Abbreviation cond := (cond_or_empty current_conditions).
Local Abbreviation verdict := (csp_verdict now h csp emotion cond).
Local Abbreviation assignment_ok := (assignment_ok now h csp emotion cond).

Lemma csp_variable_task (v : string) :
  v ∈ variables csp → ∃ r, task_map csp !! v = Some r ∧ r ∈ tasks ∧ name (h r) = v.
Proof. intros Hv. apply name_map_defined, Hv. Qed.

Lemma csp_task_of_map (v : string) (r : ref) :
  task_map csp !! v = Some r → r ∈ tasks ∧ name (h r) = v ∧ v ∈ variables csp.
Proof.
  intros Hv.
  destruct (decide (v ∈ variables csp)) as [Hin | Hout].
  - destruct (csp_variable_task v Hin) as (r' & Hr' & Hin' & Hn).
    rewrite Hv in Hr'. injection Hr' as <-. auto.
  - unfold csp in Hv. cbn [task_map CSP_init] in Hv.
    rewrite name_map_other in Hv by exact Hout.
    rewrite lookup_empty in Hv. discriminate.
Qed.

Lemma csp_constraints_eq :
  csp_constraints csp
  = [emotion_constraint h (task_map csp) emotion;
     resource_constraint now h (task_map csp) cond;
     time_constraint now h (task_map csp) cond].
Proof. reflexivity. Qed.

Lemma is_consistent_true (a : assignment) (v : string) (r : ref) :
  task_map csp !! v = Some r →
  is_consistent csp a (Some v) true = Ok (csp_passes now emotion cond (h r)).
Proof.
  intros Hv. unfold is_consistent. change (csp_constraints csp) with
    [emotion_constraint h (task_map csp) emotion;
     resource_constraint now h (task_map csp) cond;
     time_constraint now h (task_map csp) cond].
  cbn [all_constraints].
  unfold emotion_constraint, resource_constraint, time_constraint, getitem.
  rewrite Hv. cbn [mbind result_bind].
  unfold csp_passes.
  destruct (str_in emotion (emotion_fit (h r))); cbn [negb andb]; [| reflexivity].
  destruct (check_constraints now (h r) cond); cbn [negb andb]; [| reflexivity].
  destruct (is_time_suitable (h r) (default now (current_time cond))); reflexivity.
Qed.

Lemma is_consistent_false (a : assignment) (v : var) :
  is_consistent csp a v false = Ok true.
Proof. reflexivity. Qed.

Lemma is_consistent_none (a : assignment) :
  is_consistent csp a None true = Raise KeyError.
Proof. reflexivity. Qed.

Lemma is_consistent_var (a : assignment) (v : string) :
  v ∈ variables csp → is_consistent csp a (Some v) true = Ok (verdict v).
Proof.
  intros Hv. destruct (csp_variable_task v Hv) as (r & Hr & _ & _).
  unfold csp_verdict. rewrite Hr. apply is_consistent_true, Hr.
Qed.

Lemma csp_domain (v : string) :
  v ∈ variables csp → domains csp !! v = Some [true; false].
Proof. intros Hv. apply domain_map_lookup, Hv. Qed.

Lemma mrv_scores_ok (a : assignment) (vs : list string) :
  (∀ v, v ∈ vs → v ∈ variables csp) →
  ∃ scores, mrv_scores csp a vs = Ok scores ∧ scores.*2 = vs.
Proof.
  induction vs as [| v vs IH]; intros Hvs.
  - exists []. split; reflexivity.
  - destruct IH as (scores & Hs & Hsnd).
    { intros w Hw. apply Hvs, list_elem_of_further, Hw. }
    assert (Hv : v ∈ variables csp) by apply Hvs, list_elem_of_here.
    cbn [mrv_scores]. unfold getitem.
    rewrite (csp_domain v Hv). cbn [mbind result_bind].
    cbn [count_legal]. rewrite (is_consistent_var a v Hv).
    cbn [mbind result_bind]. rewrite is_consistent_false. cbn [mbind result_bind].
    rewrite Hs. cbn [mbind result_bind].
    eexists. split; [reflexivity |]. rewrite fmap_cons, Hsnd. reflexivity.
Qed.

(** With a variable left, MRV returns one of the unassigned variables. *)
Lemma mrv_picks_unassigned (a : assignment) :
  unassigned_of csp a ≠ [] →
  ∃ w, mrv_heuristic csp a = Ok (Some w) ∧ w ∈ unassigned_of csp a.
Proof.
  intros Hne. unfold mrv_heuristic.
  destruct (unassigned_of csp a) as [| u us] eqn:Eu; [contradiction |].
  destruct (mrv_scores_ok a (u :: us)) as (scores & Hs & Hsnd).
  { intros v Hv. rewrite <- Eu in Hv. unfold unassigned_of in Hv.
    apply list_elem_of_filter in Hv. tauto. }
  rewrite Hs. cbn [mbind result_bind].
  destruct scores as [| s scores']; [discriminate |].
  eexists. split; [reflexivity |].
  rewrite <- Hsnd. apply list_elem_of_fmap_2, zmin_from_elem.
Qed.

(** With no variable left, neither heuristic finds one. *)
Lemma heuristics_find_none (a : assignment) :
  unassigned_of csp a = [] →
  mrv_heuristic csp a = Ok None ∧ degree_heuristic now h csp a = Ok None.
Proof.
  intros He. unfold mrv_heuristic, degree_heuristic. rewrite He. split; reflexivity.
Qed.

Lemma unassigned_spec (a : assignment) (v : string) :
  v ∈ unassigned_of csp a ↔ v ∈ variables csp ∧ Some v ∉ a.*1.
Proof.
  unfold unassigned_of, dict_mem. rewrite list_elem_of_filter, bool_decide_eq_false.
  tauto.
Qed.

Lemma assignment_ok_nil : assignment_ok [].
Proof. split; [constructor | intros k b Hin; inversion Hin]. Qed.

Lemma assignment_ok_set (a : assignment) (w : string) :
  assignment_ok a → w ∈ unassigned_of csp a →
  dict_set (Some w) (verdict w) a = (a ++ [(Some w, verdict w)])%list
  ∧ assignment_ok (a ++ [(Some w, verdict w)]).
Proof.
  intros [Hnd Hel] Hw. apply unassigned_spec in Hw as [Hwv Hwa].
  split; [apply dict_set_fresh, Hwa |]. split.
  - rewrite fmap_app. apply NoDup_app. split; [exact Hnd |]. split.
    + intros k Hk Hk'. simpl in Hk'. apply list_elem_of_singleton in Hk'.
      subst k. contradiction.
    + apply NoDup_singleton.
  - intros k b Hin. apply elem_of_app in Hin as [Hin | Hin]; [apply Hel, Hin |].
    apply list_elem_of_singleton in Hin. injection Hin as -> ->. eauto.
Qed.

Lemma assignment_keys_sub (a : assignment) :
  assignment_ok a → a.*1 ⊆+ Some <$> variables csp.
Proof.
  intros [Hnd Hel]. apply NoDup_submseteq; [exact Hnd |].
  intros k Hk. apply list_elem_of_fmap in Hk as ([k' b] & -> & Hin).
  destruct (Hel _ _ Hin) as (v & -> & Hv & _). cbn [fst].
  apply list_elem_of_fmap_2, Hv.
Qed.

Lemma unassigned_shrinks (a : assignment) (w : string) (b : bool) :
  w ∈ unassigned_of csp a →
  (length (unassigned_of csp (a ++ [(Some w, b)])) < length (unassigned_of csp a))%nat.
Proof.
  intros Hw. pose proof (proj1 (unassigned_spec a w) Hw) as [Hwv Hwa].
  unfold unassigned_of. apply filter_length_lt with (x := w).
  - intros y. unfold dict_mem. rewrite !bool_decide_eq_false, fmap_app.
    intros Hy Hin. apply Hy, elem_of_app. auto.
  - exact Hwv.
  - unfold dict_mem. rewrite bool_decide_eq_false. exact Hwa.
  - unfold dict_mem. rewrite bool_decide_eq_false, fmap_app. intros Hn. apply Hn.
    apply elem_of_app. right. apply list_elem_of_here.
Qed.

(** One round of [backtrack] on a variable [w] that is unassigned: the
    value tried first that is consistent is the verdict on [w], and the
    outcome is that of the recursive call with [w] set to it. *)
Lemma try_values_verdict (rec : assignment → result (bool * assignment))
    (a : assignment) (w : string) (out : result (bool * assignment)) :
  assignment_ok a → w ∈ unassigned_of csp a →
  rec (a ++ [(Some w, verdict w)])%list = out →
  (∀ s, out ≠ Ok (false, s)) →
  try_values csp rec (Some w) [true; false] a = out.
Proof.
  intros Ha Hw Hrec Hout.
  destruct (assignment_ok_set a w Ha Hw) as [Hset _].
  pose proof (proj1 (unassigned_spec a w) Hw) as [Hwv _].
  cbn [try_values]. rewrite (is_consistent_var a w Hwv). cbn [mbind result_bind].
  destruct (verdict w) eqn:Ev.
  - rewrite Hset, Hrec.
    destruct out as [[[|] s] | e]; cbn [mbind result_bind fst]; try reflexivity.
    exfalso. apply (Hout s). reflexivity.
  - rewrite is_consistent_false. cbn [mbind result_bind].
    rewrite Hset, Hrec.
    destruct out as [[[|] s] | e]; cbn [mbind result_bind fst]; try reflexivity.
    exfalso. apply (Hout s). reflexivity.
Qed.

Lemma csp_lookup_task (r : ref) :
  NoDup (variables csp) → r ∈ tasks → task_map csp !! name (h r) = Some r.
Proof. intros Hnd Hr. apply (name_map_lookup h tasks ∅ r Hnd Hr). Qed.

Lemma unassigned_bound (a : assignment) :
  (length (unassigned_of csp a) ≤ length tasks)%nat.
Proof.
  unfold unassigned_of.
  etransitivity; [apply length_filter |].
  change (variables csp) with ((λ task, name (h task)) <$> tasks).
  rewrite length_fmap. reflexivity.
Qed.

Lemma assignment_length_le (a : assignment) :
  assignment_ok a → (length a ≤ length (variables csp))%nat.
Proof.
  intros Ha. pose proof (submseteq_length _ _ (assignment_keys_sub a Ha)) as Hl.
  rewrite !length_fmap in Hl. exact Hl.
Qed.

(** With distinct names, the assignment is complete exactly when no
    variable is left. *)
Lemma complete_when_none_left (a : assignment) :
  NoDup (variables csp) → assignment_ok a → unassigned_of csp a = [] →
  length a = length (variables csp).
Proof.
  intros Hnd Ha Hu. apply Nat.le_antisymm; [apply assignment_length_le, Ha |].
  assert (Hsub : Some <$> variables csp ⊆+ a.*1).
  { apply NoDup_submseteq; [apply (NoDup_fmap_2 Some), Hnd |].
    intros k Hk. apply list_elem_of_fmap in Hk as (v & -> & Hv).
    destruct (decide (Some v ∈ a.*1)) as [Hin | Hout]; [exact Hin |].
    assert (Hvu : v ∈ unassigned_of csp a) by (apply unassigned_spec; auto).
    rewrite Hu in Hvu. inversion Hvu. }
  apply submseteq_length in Hsub. rewrite !length_fmap in Hsub. exact Hsub.
Qed.

(** With a repeated name, no assignment is ever as long as the list of
    variables. *)
Lemma never_complete_with_repeat (a : assignment) :
  ¬ NoDup (variables csp) → assignment_ok a → length a ≠ length (variables csp).
Proof.
  intros Hdup Ha Hlen. apply Hdup.
  pose proof (assignment_keys_sub a Ha) as Hsub.
  apply submseteq_length_Permutation in Hsub.
  - apply (NoDup_fmap_1 Some). rewrite <- Hsub. apply Ha.
  - rewrite !length_fmap. lia.
Qed.

(** With distinct names, [backtrack] returns a complete assignment in
    which every variable holds its verdict. *)
Lemma backtrack_distinct (fuel : nat) (a : assignment) :
  NoDup (variables csp) → assignment_ok a →
  (length (unassigned_of csp a) < fuel)%nat →
  ∃ sol, backtrack now h csp fuel a = Ok (true, sol)
         ∧ assignment_ok sol ∧ length sol = length (variables csp).
Proof.
  intros Hnd. revert a. induction fuel as [| fuel IH]; intros a Ha Hfuel; [lia |].
  cbn [backtrack]. case_bool_decide as Hlen.
  - exists a. auto.
  - assert (Hne : unassigned_of csp a ≠ []).
    { intros Hu. apply Hlen, complete_when_none_left; assumption. }
    destruct (mrv_picks_unassigned a Hne) as (w & Hmrv & Hw).
    rewrite Hmrv. cbn [mbind result_bind].
    destruct (assignment_ok_set a w Ha Hw) as [_ Ha'].
    destruct (IH (a ++ [(Some w, verdict w)]) Ha') as (sol & Hsol & Hok & Hlensol).
    { pose proof (unassigned_shrinks a w (verdict w) Hw). lia. }
    exists sol. split; [| auto].
    apply try_values_verdict; [exact Ha | exact Hw | exact Hsol | discriminate].
Qed.

(** With a repeated name, [backtrack] runs until no variable is left,
    asks the heuristics for one, gets [None], and raises [KeyError] at
    [self.task_map[None]]. *)
Lemma backtrack_repeat (fuel : nat) (a : assignment) :
  ¬ NoDup (variables csp) → assignment_ok a →
  (length (unassigned_of csp a) < fuel)%nat →
  backtrack now h csp fuel a = Raise KeyError.
Proof.
  intros Hdup. revert a. induction fuel as [| fuel IH]; intros a Ha Hfuel; [lia |].
  cbn [backtrack]. rewrite bool_decide_false
    by (apply never_complete_with_repeat; assumption).
  destruct (unassigned_of csp a) as [| u us] eqn:Eu.
  - destruct (heuristics_find_none a Eu) as [-> ->]. reflexivity.
  - assert (Hne : unassigned_of csp a ≠ []) by (rewrite Eu; discriminate).
    destruct (mrv_picks_unassigned a Hne) as (w & Hmrv & Hw).
    rewrite Hmrv. cbn [mbind result_bind].
    destruct (assignment_ok_set a w Ha Hw) as [_ Ha'].
    apply try_values_verdict; [exact Ha | exact Hw | | discriminate].
    apply IH; [exact Ha' |].
    pose proof (unassigned_shrinks a w (verdict w) Hw). rewrite Eu in *. lia.
Qed.

Lemma collect_members (items : assignment) :
  (∀ k b, (k, b) ∈ items → ∃ v, k = Some v ∧ v ∈ variables csp) →
  ∃ recs ws, collect now h csp items = Ok (recs, ws)
    ∧ ∀ r, r ∈ recs ↔ ∃ v, (Some v, true) ∈ items ∧ task_map csp !! v = Some r.
Proof.
  induction items as [| [k b] items IH]; intros Hk.
  - exists [], []. split; [reflexivity |]. intros r. split.
    + intros Hr. inversion Hr.
    + intros (v & Hv & _). inversion Hv.
  - destruct IH as (recs & ws & Hc & Hrecs).
    { intros k' b' Hin. apply (Hk k' b'), list_elem_of_further, Hin. }
    destruct (Hk k b (list_elem_of_here _ _)) as (v & -> & Hv).
    destruct (csp_variable_task v Hv) as (r0 & Hr0 & _ & _).
    cbn [collect]. destruct b.
    + unfold getitem. rewrite Hr0. cbn [mbind result_bind]. rewrite Hc.
      cbn [mbind result_bind fst snd]. eexists _, _. split; [reflexivity |].
      intros r. rewrite elem_of_cons, Hrecs. split.
      * intros [-> | (v' & Hin & Hm)].
        -- exists v. split; [apply list_elem_of_here | exact Hr0].
        -- exists v'. split; [apply list_elem_of_further, Hin | exact Hm].
      * intros (v' & Hin & Hm). apply elem_of_cons in Hin as [Heq | Hin].
        -- injection Heq as ->. left. congruence.
        -- right. eauto.
    + exists recs, ws. split; [exact Hc |].
      intros r. rewrite Hrecs. split.
      * intros (v' & Hin & Hm). exists v'. split; [apply list_elem_of_further, Hin | exact Hm].
      * intros (v' & Hin & Hm). apply elem_of_cons in Hin as [Heq | Hin];
          [discriminate | eauto].
Qed.

(** What [solve] does on a pool of distinct names. *)
Lemma solve_distinct (fuel : nat) :
  NoDup (variables csp) → (length tasks < fuel)%nat →
  ∃ sol recs ws,
    backtrack now h csp fuel [] = Ok (true, sol)
    ∧ sol.*1 ≡ₚ Some <$> variables csp
    ∧ (∀ r, r ∈ tasks →
            (Some (name (h r)), csp_passes now emotion cond (h r)) ∈ sol)
    ∧ solve now h csp fuel = Ok (recs, ws)
    ∧ (∀ r, r ∈ recs ↔ r ∈ tasks ∧ csp_passes now emotion cond (h r) = true).
Proof.
  intros Hnd Hfuel.
  destruct (backtrack_distinct fuel [] Hnd assignment_ok_nil) as (sol & Hsol & Hok & Hlen).
  { pose proof (unassigned_bound []). lia. }
  assert (Hperm : sol.*1 ≡ₚ Some <$> variables csp).
  { apply submseteq_length_Permutation; [apply assignment_keys_sub, Hok |].
    rewrite !length_fmap. lia. }
  assert (Hall : ∀ r, r ∈ tasks →
            (Some (name (h r)), csp_passes now emotion cond (h r)) ∈ sol).
  { intros r Hr.
    assert (Hkey : Some (name (h r)) ∈ sol.*1).
    { rewrite Hperm. apply list_elem_of_fmap_2.
      apply (list_elem_of_fmap_2 (λ task, name (h task))), Hr. }
    apply list_elem_of_fmap in Hkey as ([k b] & Hk & Hin). cbn [fst] in Hk. subst k.
    destruct Hok as [_ Hel]. destruct (Hel _ _ Hin) as (v & Hv & _ & ->).
    injection Hv as <-. unfold csp_verdict in Hin.
    rewrite (csp_lookup_task r Hnd Hr) in Hin. exact Hin. }
  destruct (collect_members sol) as (recs & ws & Hc & Hrecs).
  { intros k b Hin. destruct Hok as [_ Hel].
    destruct (Hel _ _ Hin) as (v & -> & Hv & _). eauto. }
  exists sol, recs, ws. split; [exact Hsol |]. split; [exact Hperm |].
  split; [exact Hall |]. split.
  - unfold solve. rewrite Hsol. cbn [mbind result_bind fst snd negb]. exact Hc.
  - intros r. rewrite Hrecs. split.
    + intros (v & Hin & Hm). destruct (csp_task_of_map v r Hm) as (Hr & Hn & Hv).
      split; [exact Hr |]. destruct Hok as [_ Hel].
      destruct (Hel _ _ Hin) as (v' & Hv' & _ & Hb). injection Hv' as <-.
      unfold csp_verdict in Hb. rewrite Hm in Hb. symmetry. exact Hb.
    + intros [Hr Hp]. exists (name (h r)). split.
      * rewrite <- Hp. apply Hall, Hr.
      * apply (csp_lookup_task r Hnd Hr).
Qed.

(** What [solve] does on a pool with a repeated name. *)
Lemma solve_repeat (fuel : nat) :
  ¬ NoDup (variables csp) → (length tasks < fuel)%nat →
  backtrack now h csp fuel [] = Raise KeyError
  ∧ solve now h csp fuel = Raise KeyError.
Proof.
  intros Hdup Hfuel.
  assert (Hb : backtrack now h csp fuel [] = Raise KeyError).
  { apply backtrack_repeat; [exact Hdup | apply assignment_ok_nil |].
    pose proof (unassigned_bound []). lia. }
  split; [exact Hb |]. unfold solve. rewrite Hb. reflexivity.
Qed.

End CSP_facts.

(** ** The sequence planner *)

Lemma pop_min_perm (addr : nat → Z) (e : entry) (l : list entry) :
  (pop_min addr e l).1 :: (pop_min addr e l).2 ≡ₚ e :: l.
Proof.
  revert e. induction l as [| e' l IH]; intros e; cbn [pop_min]; [reflexivity |].
  specialize (IH e'). destruct (pop_min addr e' l) as [m rest]. cbn [fst snd] in *.
  destruct (entry_lt addr m e); cbn [fst snd]; [| reflexivity].
  rewrite Permutation_swap. rewrite IH. reflexivity.
Qed.

Lemma same_names_refl (h : heap) : same_names h h.
Proof. intros r. reflexivity. Qed.

Lemma same_names_trans (h1 h2 h3 : heap) :
  same_names h1 h2 → same_names h2 h3 → same_names h1 h3.
Proof. intros H12 H23 r. rewrite H23. apply H12. Qed.

Lemma same_names_set_score (h : heap) (r : ref) (s : Q) :
  same_names h (heap_set h r (set_score s (h r))).
Proof.
  intros r'. unfold heap_set. destruct (decide (r' = r)) as [-> |]; reflexivity.
Qed.

Lemma same_names_foldl {B} (f : heap → B → heap) (l : list B) (h : heap) :
  (∀ h x, same_names h (f h x)) → same_names h (foldl f h l).
Proof.
  intros Hf. revert h. induction l as [| x l IH]; intros h; simpl.
  - apply same_names_refl.
  - eapply same_names_trans; [apply Hf | apply IH].
Qed.

Lemma same_names_fmap (h h' : heap) (l : list ref) :
  same_names h h' → (λ r, name (h' r)) <$> l = (λ r, name (h r)) <$> l.
Proof.
  intros Hn. induction l as [| x l IH]; [reflexivity |].
  rewrite !fmap_cons, IH, Hn. reflexivity.
Qed.

(** Deduplication keeps the first object of each name. *)
Lemma unique_by_name_spec (h : heap) (seen : list string) (pool : list ref) :
  NoDup ((λ r, name (h r)) <$> unique_by_name h seen pool)
  ∧ (∀ r, r ∈ unique_by_name h seen pool → r ∈ pool ∧ name (h r) ∉ seen).
Proof.
  revert seen. induction pool as [| x pool IH]; intros seen; cbn [unique_by_name].
  - split; [constructor | intros r Hr; inversion Hr].
  - unfold str_in. case_bool_decide as Hseen.
    + destruct (IH seen) as [Hnd Hel]. split; [exact Hnd |].
      intros r Hr. destruct (Hel r Hr). split; [apply list_elem_of_further |]; assumption.
    + destruct (IH (name (h x) :: seen)) as [Hnd Hel]. split.
      * rewrite fmap_cons. apply NoDup_cons. split; [| exact Hnd].
        intros Hin. apply list_elem_of_fmap in Hin as (r & Hn & Hr).
        destruct (Hel r Hr) as [_ Hout]. apply Hout. rewrite <- Hn.
        apply list_elem_of_here.
      * intros r Hr. apply elem_of_cons in Hr as [-> | Hr].
        -- split; [apply list_elem_of_here | exact Hseen].
        -- destruct (Hel r Hr) as [Hp Hout]. split; [apply list_elem_of_further, Hp |].
           intros Hin. apply Hout. apply list_elem_of_further, Hin.
Qed.

Lemma NoDup_fmap_sub {A B} (f : A → B) (l s : list A) :
  NoDup (f <$> l) → NoDup s → (∀ x, x ∈ s → x ∈ l) → NoDup (f <$> s).
Proof.
  intros Hl Hs Hsub. apply NoDup_fmap_2_strong; [| exact Hs].
  intros x y Hx Hy Hf. apply Hsub in Hx, Hy.
  clear s Hs Hsub. induction l as [| z l IH]; [inversion Hx |].
  rewrite fmap_cons in Hl. apply NoDup_cons in Hl as [Hz Hl].
  apply elem_of_cons in Hx as [-> | Hx]; apply elem_of_cons in Hy as [-> | Hy].
  - reflexivity.
  - exfalso. apply Hz. rewrite Hf. apply list_elem_of_fmap_2, Hy.
  - exfalso. apply Hz. rewrite <- Hf. apply list_elem_of_fmap_2, Hx.
  - apply IH; assumption.
Qed.

Lemma slice_to_length {A} (k : Z) (l : list A) :
  0 <= k → Z.of_nat (length (slice_to k l)) <= k.
Proof.
  intros Hk. unfold slice_to. destruct (Z.ltb_spec k 0) as [Hneg | _]; [lia |].
  rewrite length_take. lia.
Qed.

Lemma slice_to_sublist {A} (k : Z) (l : list A) : slice_to k l `sublist_of` l.
Proof. unfold slice_to. destruct (k <? 0); apply sublist_take. Qed.

Section Planner_facts.
Variable now : datetime.
Variable addr : nat → Z.
Variable fatigue_score : Z.
Variable all_tasks : list ref.

(** One round of the expansion loop leaves the open set alone or pushes
    one child of the node, for a task not yet in the node's sequence. *)
Lemma expand_step_cases (node : Node) (st : search_state) (t : ref) :
  best_sequence (expand_step now fatigue_score node st t) = best_sequence st
  ∧ best_score (expand_step now fatigue_score node st t) = best_score st
  ∧ same_names (st_heap st) (st_heap (expand_step now fatigue_score node st t))
  ∧ (st_open (expand_step now fatigue_score node st t) = st_open st
     ∨ ∃ c, st_open (expand_step now fatigue_score node st t) = st_open st ++ [c]
            ∧ node_depth c.2 = node_depth node + 1
            ∧ sequence c.2 = sequence node ++ [t]
            ∧ t ∉ sequence node).
Proof.
  unfold expand_step. case_bool_decide as Hin.
  { repeat split; try reflexivity; try apply same_names_refl. left. reflexivity. }
  destruct (negb (next_emotion_ok (emotion_after node) (st_heap st t))).
  { repeat split; try reflexivity; try apply same_names_refl. left. reflexivity. }
  cbn [best_sequence best_score st_heap st_open].
  split; [reflexivity |]. split; [reflexivity |].
  split; [apply same_names_set_score |].
  right. eexists. split; [reflexivity |].
  cbn [snd]. split; [reflexivity |]. split; [reflexivity | exact Hin].
Qed.

Lemma expand_fold (node : Node) (l : list ref) (st : search_state) :
  best_sequence (foldl (expand_step now fatigue_score node) st l) = best_sequence st
  ∧ best_score (foldl (expand_step now fatigue_score node) st l) = best_score st
  ∧ same_names (st_heap st) (st_heap (foldl (expand_step now fatigue_score node) st l))
  ∧ ∃ children,
      st_open (foldl (expand_step now fatigue_score node) st l) = st_open st ++ children
      ∧ (length children ≤ length l)%nat
      ∧ ∀ c, c ∈ children →
             node_depth c.2 = node_depth node + 1
             ∧ ∃ t, t ∈ l ∧ (t ∉ sequence node) ∧ sequence c.2 = sequence node ++ [t].
Proof.
  revert st. induction l as [| x l IH]; intros st; cbn [foldl].
  - split; [reflexivity |]. split; [reflexivity |]. split; [apply same_names_refl |].
    exists []. rewrite app_nil_r. split; [reflexivity |]. split; [reflexivity |].
    intros c Hc. inversion Hc.
  - destruct (expand_step_cases node st x) as (Hb & Hs & Hn & Hopen).
    destruct (IH (expand_step now fatigue_score node st x))
      as (Hb' & Hs' & Hn' & children & Hopen' & Hlen & Hch).
    split; [congruence |]. split; [congruence |].
    split; [eapply same_names_trans; eassumption |].
    destruct Hopen as [Hsame | (c & Hpush & Hd & Hseq & Hnew)].
    + exists children. rewrite Hopen', Hsame. split; [reflexivity |].
      split; [simpl; lia |].
      intros c Hc. destruct (Hch c Hc) as (Hd & t & Ht & Hnt & Hseq).
      split; [exact Hd |]. exists t. split; [apply list_elem_of_further, Ht | auto].
    + exists (c :: children). rewrite Hopen', Hpush, <- app_assoc.
      split; [reflexivity |]. split; [simpl; lia |].
      intros c' Hc'. apply elem_of_cons in Hc' as [-> | Hc'].
      * split; [exact Hd |]. exists x. split; [apply list_elem_of_here | auto].
      * destruct (Hch c' Hc') as (Hd' & t & Ht & Hnt & Hseq').
        split; [exact Hd' |]. exists t. split; [apply list_elem_of_further, Ht | auto].
Qed.

Lemma entry_weight_pos (n : nat) (D : Z) (e : entry) : (1 ≤ entry_weight n D e)%nat.
Proof.
  unfold entry_weight. pose proof (Nat.pow_nonzero (S n) (Z.to_nat (D - node_depth e.2))).
  lia.
Qed.

Lemma children_weight (n : nat) (D d : Z) (children : list entry) :
  (∀ c, c ∈ children → node_depth c.2 = d) →
  open_weight n D children = (length children * S n ^ Z.to_nat (D - d))%nat.
Proof.
  intros Hd. unfold open_weight. induction children as [| c cs IH]; [reflexivity |].
  cbn [sum_list_with length]. rewrite IH.
  - unfold entry_weight. rewrite (Hd c (list_elem_of_here _ _)). lia.
  - intros c' Hc'. apply Hd, list_elem_of_further, Hc'.
Qed.

(** The open set is not empty: the round takes place. *)
Lemma search_step_some (max_sequence_length : Z) (st : search_state) :
  st_open st ≠ [] →
  ∃ st', search_step now addr fatigue_score all_tasks max_sequence_length st = Some st'.
Proof.
  intros Hne. unfold search_step. destruct (st_open st) as [| e l]; [contradiction |].
  destruct (pop_min addr e l) as [m rest].
  destruct (max_sequence_length <=? node_depth m.2); eexists; reflexivity.
Qed.

(** Every round of the search loop lowers the weight of the open set. *)
Lemma search_step_decreases (max_sequence_length D : Z) (st st' : search_state) :
  max_sequence_length <= D →
  search_step now addr fatigue_score all_tasks max_sequence_length st = Some st' →
  (open_weight (length all_tasks) D (st_open st')
   < open_weight (length all_tasks) D (st_open st))%nat.
Proof.
  intros HD. unfold search_step. destruct (st_open st) as [| e l]; [discriminate |].
  pose proof (pop_min_perm addr e l) as Hperm.
  destruct (pop_min addr e l) as [m rest]. cbn [fst snd] in Hperm.
  assert (Hw : open_weight (length all_tasks) D (e :: l)
               = (entry_weight (length all_tasks) D m
                  + open_weight (length all_tasks) D rest)%nat).
  { unfold open_weight. rewrite <- Hperm. reflexivity. }
  rewrite Hw. pose proof (entry_weight_pos (length all_tasks) D m) as Hpos.
  destruct (Z.leb_spec max_sequence_length (node_depth m.2)) as [Hdeep | Hshallow];
    intros Hst; injection Hst as <-.
  - cbn [st_open]. lia.
  - match goal with |- context [foldl _ ?s _] => set (s0 := s) end.
    destruct (expand_fold m.2 all_tasks s0) as (_ & _ & _ & children & Hopen & Hlen & Hch).
    rewrite Hopen. cbn [st_open s0]. unfold open_weight at 1.
    rewrite sum_list_with_app. fold (open_weight (length all_tasks) D rest).
    fold (open_weight (length all_tasks) D children).
    rewrite (children_weight (length all_tasks) D (node_depth m.2 + 1) children)
      by (intros c Hc; apply Hch, Hc).
    unfold entry_weight.
    replace (Z.to_nat (D - node_depth m.2))
      with (S (Z.to_nat (D - (node_depth m.2 + 1)))) by lia.
    rewrite Nat.pow_succ_r'.
    pose proof (Nat.pow_nonzero (S (length all_tasks))
                  (Z.to_nat (D - (node_depth m.2 + 1)))) as Hnz.
    nia.
Qed.

(** Every round keeps the sequences free of repeated objects and inside
    the pool, and writes no name. *)
Lemma search_step_ok (max_sequence_length : Z) (st st' : search_state) :
  planner_ok all_tasks st →
  search_step now addr fatigue_score all_tasks max_sequence_length st = Some st' →
  planner_ok all_tasks st' ∧ same_names (st_heap st) (st_heap st').
Proof.
  intros [Hopen Hbest]. unfold search_step. destruct (st_open st) as [| e l]; [discriminate |].
  pose proof (pop_min_perm addr e l) as Hperm.
  destruct (pop_min addr e l) as [m rest]. cbn [fst snd] in Hperm.
  assert (Hm : sequence_ok all_tasks (sequence m.2)).
  { apply Hopen. rewrite <- Hperm. apply list_elem_of_here. }
  assert (Hrest : ∀ x, x ∈ rest → sequence_ok all_tasks (sequence x.2)).
  { intros x Hx. apply Hopen. rewrite <- Hperm. apply list_elem_of_further, Hx. }
  destruct (max_sequence_length <=? node_depth m.2); intros Hst; injection Hst as <-.
  - split; [| apply same_names_refl]. split; cbn [st_open best_sequence]; [exact Hrest |].
    intros s Hs. destruct (match best_score st with
                           | Some b => Qltb (node_f m.2) b
                           | None => true
                           end); [| apply Hbest, Hs].
    injection Hs as <-. exact Hm.
  - match goal with |- context [foldl _ ?s _] => set (s0 := s) end.
    destruct (expand_fold m.2 all_tasks s0) as (Hb & _ & Hn & children & Ho & _ & Hch).
    split; [| exact Hn]. split.
    + intros x Hx. rewrite Ho in Hx. cbn [st_open s0] in Hx.
      apply elem_of_app in Hx as [Hx | Hx]; [apply Hrest, Hx |].
      destruct (Hch x Hx) as (_ & t & Ht & Hnt & ->). destruct Hm as [Hnd Hsub]. split.
      * apply NoDup_app. split; [exact Hnd |]. split; [| apply NoDup_singleton].
        intros y Hy Hy'. apply list_elem_of_singleton in Hy'. subst y. contradiction.
      * intros y Hy. apply elem_of_app in Hy as [Hy | Hy]; [apply Hsub, Hy |].
        apply list_elem_of_singleton in Hy. subst y. exact Ht.
    + intros s Hs. rewrite Hb in Hs. apply Hbest, Hs.
Qed.

(** The search loop ends: with more rounds allowed than the weight of the
    open set, it runs until the open set is empty. *)
Lemma search_terminates (max_sequence_length D : Z) (fuel : nat) (st : search_state) :
  max_sequence_length <= D →
  (open_weight (length all_tasks) D (st_open st) < fuel)%nat →
  planner_ok all_tasks st →
  ∃ st', search now addr fatigue_score all_tasks max_sequence_length fuel st = Some st'
         ∧ st_open st' = []
         ∧ planner_ok all_tasks st'
         ∧ same_names (st_heap st) (st_heap st').
Proof.
  intros HD. revert st. induction fuel as [| fuel IH]; intros st Hfuel Hok; [lia |].
  cbn [search]. destruct (st_open st) as [| e l] eqn:Eo.
  - exists st. split; [reflexivity |]. split; [exact Eo |].
    split; [exact Hok | apply same_names_refl].
  - destruct (search_step_some max_sequence_length st) as [st1 Hst1];
      [rewrite Eo; discriminate |].
    rewrite Hst1.
    pose proof (search_step_decreases max_sequence_length D st st1 HD Hst1) as Hdec.
    destruct (search_step_ok max_sequence_length st st1 Hok Hst1) as [Hok1 Hn1].
    destruct (IH st1) as (st' & Hs & He & Hok' & Hn'); [rewrite Eo in Hdec; lia | exact Hok1 |].
    exists st'. split; [exact Hs |]. split; [exact He |]. split; [exact Hok' |].
    eapply same_names_trans; eassumption.
Qed.

(** The state in which the search loop is entered. *)
Lemma push_root_fold (current_emotion : string) (l : list ref) (st : search_state) :
  best_sequence (foldl (push_root now fatigue_score current_emotion) st l)
  = best_sequence st
  ∧ same_names (st_heap st)
               (st_heap (foldl (push_root now fatigue_score current_emotion) st l))
  ∧ ∃ roots,
      st_open (foldl (push_root now fatigue_score current_emotion) st l)
      = st_open st ++ roots
      ∧ ∀ c, c ∈ roots → ∃ t, t ∈ l ∧ sequence c.2 = [t].
Proof.
  revert st. induction l as [| x l IH]; intros st; cbn [foldl].
  - split; [reflexivity |]. split; [apply same_names_refl |].
    exists []. rewrite app_nil_r. split; [reflexivity |]. intros c Hc. inversion Hc.
  - destruct (IH (push_root now fatigue_score current_emotion st x))
      as (Hb & Hn & roots & Ho & Hr).
    split; [rewrite Hb; reflexivity |]. split.
    { eapply same_names_trans; [| exact Hn]. apply same_names_set_score. }
    eexists (_ :: roots). rewrite Ho. cbn [push_root st_open]. rewrite <- app_assoc.
    split; [reflexivity |].
    intros c Hc. apply elem_of_cons in Hc as [-> | Hc].
    + exists x. split; [apply list_elem_of_here | reflexivity].
    + destruct (Hr c Hc) as (t & Ht & Hs). exists t.
      split; [apply list_elem_of_further, Ht | exact Hs].
Qed.

End Planner_facts.

Lemma fallback_list_length (o : option ref) : (length (fallback_list o) ≤ 1)%nat.
Proof. destruct o; simpl; lia. Qed.

Lemma NoDup_short {A} (l : list A) : (length l ≤ 1)%nat → NoDup l.
Proof.
  destruct l as [| x [| y l]]; simpl; intros Hl.
  - constructor.
  - apply NoDup_singleton.
  - lia.
Qed.

Lemma open_roots_ok (now : datetime) (fatigue_score : Z) (current_emotion : string)
    (h : heap) (all_tasks : list ref) :
  planner_ok all_tasks (open_roots now fatigue_score current_emotion h all_tasks)
  ∧ same_names h (st_heap (open_roots now fatigue_score current_emotion h all_tasks)).
Proof.
  unfold open_roots.
  destruct (push_root_fold now fatigue_score current_emotion all_tasks
              (mkState h 0 [] None None)) as (Hb & Hn & roots & Ho & Hr).
  split; [| exact Hn]. split.
  - intros e He. rewrite Ho in He. cbn [st_open app] in He.
    destruct (Hr e He) as (t & Ht & ->). split; [apply NoDup_singleton |].
    intros x Hx. apply list_elem_of_singleton in Hx. subst x. exact Ht.
  - intros s Hs. rewrite Hb in Hs. discriminate.
Qed.

(** C7 (amended). For a [max_sequence_length] of at least 1, [mini_a_star]
    returns (the search loop ends), the sequence it returns has at most
    [max_sequence_length] tasks and no task name twice, and it is the best
    sequence found when that has two tasks or more, and otherwise the
    single task of the greedy selector on the deduplicated pool, or the
    empty list when greedy returns [None] or the strict filter leaves
    nothing. *)
Theorem mini_a_star_sequence (now : datetime) (addr : nat → Z) (h : heap)
    (tasks : list ref) (current_emotion : string)
    (current_conditions : option conditions) (max_sequence_length : Z)
    (user_preferences : list ref) :
  1 <= max_sequence_length →
  let valid_pool :=
    apply_strict_constraints now h (tasks ++ user_preferences)
      (cond_or_empty current_conditions) current_emotion in
  let all_tasks := unique_by_name h [] valid_pool in
  let fatigue_score := fatigue_of current_conditions in
  ∃ fuel0, ∀ fuel, (fuel0 ≤ fuel)%nat →
    ∃ seq h',
      mini_a_star now addr fuel h tasks current_emotion current_conditions
                  max_sequence_length user_preferences = Some (seq, h')
      ∧ Z.of_nat (length seq) <= max_sequence_length
      ∧ NoDup ((λ r, name (h' r)) <$> seq)
      ∧ ((valid_pool = [] ∧ seq = [])
         ∨ ∃ st,
             search now addr fatigue_score all_tasks max_sequence_length fuel
                    (open_roots now fatigue_score current_emotion h all_tasks) = Some st
             ∧ st_open st = []
             ∧ (∀ s, best_sequence st = Some s → (2 ≤ length s)%nat →
                     seq = slice_to max_sequence_length s)
             ∧ ((∀ s, best_sequence st = Some s → (length s < 2)%nat) →
                seq = fallback_list
                        (greedy now (st_heap st) all_tasks (Some current_emotion) None).1)).
Proof.
  intros Hmsl valid_pool all_tasks fatigue_score.
  set (st0 := open_roots now fatigue_score current_emotion h all_tasks).
  exists (S (open_weight (length all_tasks) max_sequence_length (st_open st0))).
  intros fuel Hfuel. unfold mini_a_star.
  destruct (tasks ++ user_preferences) as [| p pool] eqn:Epool.
  { exists [], h. split; [reflexivity |]. split; [simpl; lia |].
    split; [constructor |]. left. split; reflexivity. }
  fold valid_pool. destruct valid_pool as [| v vs] eqn:Ev.
  { exists [], h. split; [reflexivity |]. split; [simpl; lia |].
    split; [constructor |]. left. split; reflexivity. }
  fold all_tasks fatigue_score st0.
  destruct (open_roots_ok now fatigue_score current_emotion h all_tasks) as [Hok0 Hn0].
  fold st0 in Hok0, Hn0.
  destruct (search_terminates now addr fatigue_score all_tasks max_sequence_length
              max_sequence_length fuel st0) as (st & Hs & Hempty & [_ Hbest] & Hn);
    [lia | lia | exact Hok0 |].
  rewrite Hs. cbn [mbind option_bind].
  destruct (unique_by_name_spec h [] (v :: vs)) as [Hnames _]. fold all_tasks in Hnames.
  unfold planner_result.
  destruct (best_sequence st) as [[| x [| y s]] |] eqn:Eb.
  - destruct (greedy now (st_heap st) all_tasks (Some current_emotion) None)
      as [o hg] eqn:Eg.
    pose proof (fallback_list_length o) as Hl.
    exists (fallback_list o), hg. split; [reflexivity |]. split; [lia |].
    split; [apply NoDup_short; rewrite length_fmap; exact Hl |].
    right. exists st. split; [reflexivity |]. split; [exact Hempty |]. split.
    + intros s' Hs' Hlen. rewrite Eb in Hs'. injection Hs' as <-. simpl in Hlen. lia.
    + intros _. rewrite Eg. reflexivity.
  - destruct (greedy now (st_heap st) all_tasks (Some current_emotion) None)
      as [o hg] eqn:Eg.
    pose proof (fallback_list_length o) as Hl.
    exists (fallback_list o), hg. split; [reflexivity |]. split; [lia |].
    split; [apply NoDup_short; rewrite length_fmap; exact Hl |].
    right. exists st. split; [reflexivity |]. split; [exact Hempty |]. split.
    + intros s' Hs' Hlen. rewrite Eb in Hs'. injection Hs' as <-. simpl in Hlen. lia.
    + intros _. rewrite Eg. reflexivity.
  - exists (slice_to max_sequence_length (x :: y :: s)), (st_heap st).
    split; [reflexivity |]. split; [apply slice_to_length; lia |]. split.
    + destruct (Hbest (x :: y :: s) eq_refl) as [Hnd Hsub].
      pose proof (slice_to_sublist max_sequence_length (x :: y :: s)) as Hsl.
      assert (Hn' : same_names h (st_heap st)) by (eapply same_names_trans; eassumption).
      rewrite (same_names_fmap h (st_heap st) _ Hn').
      apply (NoDup_fmap_sub _ all_tasks); [exact Hnames | |].
      * eapply sublist_NoDup; eassumption.
      * intros z Hz. apply Hsub. eapply elem_of_sublist; eassumption.
    + right. exists st. split; [reflexivity |]. split; [exact Hempty |]. split.
      * intros s' Hs' _. rewrite Eb in Hs'. injection Hs' as <-. reflexivity.
      * intros Hshort. specialize (Hshort _ Eb). simpl in Hshort. lia.
  - destruct (greedy now (st_heap st) all_tasks (Some current_emotion) None)
      as [o hg] eqn:Eg.
    pose proof (fallback_list_length o) as Hl.
    exists (fallback_list o), hg. split; [reflexivity |]. split; [lia |].
    split; [apply NoDup_short; rewrite length_fmap; exact Hl |].
    right. exists st. split; [reflexivity |]. split; [exact Hempty |]. split.
    + intros s' Hs'. rewrite Eb in Hs'. discriminate.
    + intros _. rewrite Eg. reflexivity.
Qed.

(** ** The deadline selector *)

Lemma insert_by_perm {A} (key : A → Z) (x : A) (l : list A) :
  insert_by key x l ≡ₚ x :: l.
Proof.
  induction l as [| y l IH]; simpl; [reflexivity |].
  destruct (key x <=? key y); [reflexivity |].
  rewrite IH. apply Permutation_swap.
Qed.

Lemma sort_by_perm {A} (key : A → Z) (l : list A) : sort_by key l ≡ₚ l.
Proof.
  induction l as [| x l IH]; simpl; [reflexivity |].
  rewrite insert_by_perm, IH. reflexivity.
Qed.

Lemma insert_by_least {A} (key : A → Z) (x : A) (l : list A) (m : A) (rest : list A) :
  (∀ y ys, l = y :: ys → ∀ z, z ∈ l → key y <= key z) →
  insert_by key x l = m :: rest →
  ∀ z, z ∈ x :: l → key m <= key z.
Proof.
  intros Hl Hins z Hz. destruct l as [| y ys]; simpl in Hins.
  - injection Hins as <- <-. apply list_elem_of_singleton in Hz. subst z. lia.
  - specialize (Hl y ys eq_refl).
    destruct (Z.leb_spec (key x) (key y)) as [Hle | Hlt]; injection Hins as <- <-.
    + apply elem_of_cons in Hz as [-> | Hz]; [lia |].
      specialize (Hl z Hz). lia.
    + apply elem_of_cons in Hz as [-> | Hz]; [lia |]. apply Hl, Hz.
Qed.

(** The element a stable sort by [key] puts first has the least key. *)
Lemma sort_by_least {A} (key : A → Z) (l : list A) (m : A) (rest : list A) :
  sort_by key l = m :: rest → m ∈ l ∧ ∀ z, z ∈ l → key m <= key z.
Proof.
  intros Hs. split.
  - rewrite <- (sort_by_perm key l), Hs. apply list_elem_of_here.
  - revert m rest Hs. induction l as [| x l IH]; intros m rest Hs; [discriminate |].
    simpl in Hs.
    assert (H1 : ∀ y ys, sort_by key l = y :: ys →
                 ∀ z, z ∈ sort_by key l → key y <= key z).
    { intros y ys Hy z Hz. rewrite sort_by_perm in Hz. apply (IH y ys Hy z Hz). }
    intros z Hz. apply (insert_by_least key x (sort_by key l) m rest H1 Hs).
    rewrite sort_by_perm. exact Hz.
Qed.

Lemma sort_bucket_key (c : category_t) (b : list (ref * Z)) :
  sort_bucket c b = sort_by (bucket_key c) b.
Proof. destruct c; reflexivity. Qed.

(** The selector takes the first non-empty bucket in the order overdue,
    due today, due tomorrow, due this week, due later, and in it the
    first task of least sort key: the soonest due date in the buckets
    after the first, and in the overdue bucket the least overdue
    magnitude, where "most overdue first" would take the greatest. *)
Lemma select_category_spec (cats : list category_t) (parsed : list (ref * Z))
    (r : ref) (msg : deadline_msg) (c : category_t) :
  select_category cats parsed = (Some r, msg, Some c) →
  ∃ d, (r, d) ∈ bucket c parsed
       ∧ msg = message_of c d
       ∧ (∀ x, x ∈ bucket c parsed → bucket_key c (r, d) <= bucket_key c x)
       ∧ ∃ before after, cats = before ++ c :: after
                         ∧ ∀ c', c' ∈ before → bucket c' parsed = [].
Proof.
  induction cats as [| c0 cats IH]; cbn [select_category]; [discriminate |].
  destruct (sort_bucket c0 (bucket c0 parsed)) as [| [r0 d0] rest] eqn:Es.
  - intros H. destruct (IH H) as (d & Hin & Hmsg & Hmin & before & after & -> & Hb).
    exists d. split; [exact Hin |]. split; [exact Hmsg |]. split; [exact Hmin |].
    exists (c0 :: before), after. split; [reflexivity |].
    intros c' Hc'. apply elem_of_cons in Hc' as [-> | Hc']; [| apply Hb, Hc'].
    rewrite sort_bucket_key in Es.
    pose proof (sort_by_perm (bucket_key c0) (bucket c0 parsed)) as Hp.
    rewrite Es in Hp. symmetry in Hp. apply Permutation_nil_r in Hp. exact Hp.
  - intros H. injection H as <- <- <-. rewrite sort_bucket_key in Es.
    destruct (sort_by_least _ _ _ _ Es) as [Hin Hmin].
    exists d0. split; [exact Hin |]. split; [reflexivity |]. split; [exact Hmin |].
    exists [], cats. split; [reflexivity |]. intros c' Hc'. inversion Hc'.
Qed.

Lemma csp_task_selects (now : datetime) (h : heap) (tasks : list ref)
    (current_time : option datetime) (r : ref) (msg : deadline_msg) (c : category_t) :
  csp_task now h tasks current_time = (Some r, msg, Some c) →
  let parsed := parse_deadlines h (default now current_time)
                  (filter (λ task, has_deadline (h task) = true) tasks) in
  ∃ d, (r, d) ∈ bucket c parsed
       ∧ msg = message_of c d
       ∧ (∀ x, x ∈ bucket c parsed → bucket_key c (r, d) <= bucket_key c x)
       ∧ (∀ c', (category_rank c' < category_rank c)%nat → bucket c' parsed = []).
Proof.
  unfold csp_task. destruct tasks as [| t0 tasks]; [discriminate |].
  destruct (filter _ (t0 :: tasks)) as [| w ws] eqn:Ef; [discriminate |].
  intros H. cbv zeta. apply select_category_spec in H
    as (d & Hin & Hmsg & Hmin & before & after & Hcats & Hb).
  exists d. split; [exact Hin |]. split; [exact Hmsg |]. split; [exact Hmin |].
  intros c' Hrank. apply Hb.
  destruct before as [| b1 [| b2 [| b3 [| b4 [| b5 before]]]]];
    simplify_eq/=; destruct c'; simpl in Hrank; try lia; set_solver.
Qed.

(** ** The solver's partition *)

(** C1 (amended). On a pool whose task names are pairwise distinct,
    [solve] returns: [backtrack] yields an assignment that gives every
    task one value, [True] exactly when the current emotion is in the
    task's [emotion_fit] (no must-do exception), [check_constraints] holds
    and the task is time-suitable at the time of the conditions; the
    recommended tasks are the tasks of the pool with that property; and a
    task is recommended within the pool iff it is recommended when solved
    alone.  The heuristics do not enter the statement. *)
Theorem csp_solve_partition (now : datetime) (h : heap) (tasks : list ref)
    (emotion : string) (current_conditions : option conditions) (fuel : nat) :
  NoDup ((λ task, name (h task)) <$> tasks) →
  (length tasks < fuel)%nat →
  ∃ sol recs ws,
    backtrack now h (CSP_init now h tasks emotion current_conditions) fuel []
    = Ok (true, sol)
    ∧ NoDup sol.*1
    ∧ (∀ r, r ∈ tasks →
            (Some (name (h r)),
             csp_passes now emotion (cond_or_empty current_conditions) (h r)) ∈ sol)
    ∧ solve now h (CSP_init now h tasks emotion current_conditions) fuel
      = Ok (recs, ws)
    ∧ (∀ r, r ∈ recs
            ↔ r ∈ tasks
              ∧ csp_passes now emotion (cond_or_empty current_conditions) (h r) = true)
    ∧ (∀ r, r ∈ tasks →
            ∃ recs1 ws1,
              solve now h (CSP_init now h [r] emotion current_conditions) fuel
              = Ok (recs1, ws1)
              ∧ (r ∈ recs1 ↔ r ∈ recs)).
Proof.
  intros Hnd Hfuel.
  destruct (solve_distinct now h tasks emotion current_conditions fuel Hnd Hfuel)
    as (sol & recs & ws & Hb & Hperm & Hall & Hs & Hrecs).
  exists sol, recs, ws. split; [exact Hb |]. split.
  { rewrite Hperm. apply (NoDup_fmap_2 Some), Hnd. }
  split; [exact Hall |]. split; [exact Hs |]. split; [exact Hrecs |].
  intros r Hr.
  destruct (solve_distinct now h [r] emotion current_conditions fuel)
    as (_ & recs1 & ws1 & _ & _ & _ & Hs1 & Hrecs1).
  { apply NoDup_singleton. }
  { destruct tasks; [inversion Hr | simpl in *; lia]. }
  exists recs1, ws1. split; [exact Hs1 |].
  rewrite Hrecs, Hrecs1. rewrite list_elem_of_singleton. tauto.
Qed.

(** ** Concrete cases *)

(** C1, counterexample. A must-do task of priority 9 whose [emotion_fit]
    lacks the current emotion satisfies the Emotion predicate of the
    specification, is time-suitable and passes [check_constraints]; solved
    alone, it is assigned [False] and not recommended.  And on a pool
    that holds two objects of one name, [solve] assigns nothing: it
    raises [KeyError]. *)
Lemma csp_solve_counterexample :
  emotion_predicate_spec "sad" (ex_heap 0%nat) = true
  ∧ is_time_suitable (ex_heap 0%nat) ex_now = true
  ∧ check_constraints ex_now (ex_heap 0%nat) empty_conditions = true
  ∧ backtrack ex_now ex_heap (CSP_init ex_now ex_heap [0%nat] "sad" None) 2 []
    = Ok (true, [(Some "Write report", false)])
  ∧ solve ex_now ex_heap (CSP_init ex_now ex_heap [0%nat] "sad" None) 2 = Ok ([], [])
  ∧ solve ex_now ex_heap (CSP_init ex_now ex_heap [1%nat; 4%nat] "sad" None) 3
    = Raise KeyError.
Proof. repeat split; vm_compute; reflexivity. Qed.

Lemma csp_solve_partition_witness :
  ∃ sol recs ws,
    backtrack ex_now ex_heap (CSP_init ex_now ex_heap [0%nat; 1%nat] "sad" None) 3 []
    = Ok (true, sol)
    ∧ NoDup sol.*1
    ∧ (∀ r, r ∈ [0%nat; 1%nat] →
            (Some (name (ex_heap r)),
             csp_passes ex_now "sad" (cond_or_empty None) (ex_heap r)) ∈ sol)
    ∧ solve ex_now ex_heap (CSP_init ex_now ex_heap [0%nat; 1%nat] "sad" None) 3
      = Ok (recs, ws)
    ∧ (∀ r, r ∈ recs
            ↔ r ∈ [0%nat; 1%nat]
              ∧ csp_passes ex_now "sad" (cond_or_empty None) (ex_heap r) = true)
    ∧ (∀ r, r ∈ [0%nat; 1%nat] →
            ∃ recs1 ws1,
              solve ex_now ex_heap (CSP_init ex_now ex_heap [r] "sad" None) 3
              = Ok (recs1, ws1)
              ∧ (r ∈ recs1 ↔ r ∈ recs)).
Proof.
  apply (csp_solve_partition ex_now ex_heap [0%nat; 1%nat] "sad" None 3).
  - apply (bool_decide_unpack _). vm_compute. exact I.
  - simpl. lia.
Defined.

(** C10, the failing pool. Two objects named "Take a walk": [backtrack]
    assigns the one variable, finds the assignment shorter than the list
    of variables, gets [None] from both heuristics and raises [KeyError]
    at [self.task_map[None]]; [solve] raises with it. *)
Theorem csp_repeated_name_raises :
  variables (CSP_init ex_now ex_heap [1%nat; 4%nat] "sad" None)
  = ["Take a walk"; "Take a walk"]
  ∧ backtrack ex_now ex_heap (CSP_init ex_now ex_heap [1%nat; 4%nat] "sad" None) 3 []
    = Raise KeyError
  ∧ solve ex_now ex_heap (CSP_init ex_now ex_heap [1%nat; 4%nat] "sad" None) 3
    = Raise KeyError.
Proof. repeat split; vm_compute; reflexivity. Qed.


(** C3, the failing pool. "Write report" is 7 days overdue and "Take a
    walk" 2; the selector returns "Take a walk", the least overdue, where
    the largest overdue magnitude first would give "Write report". *)
Theorem csp_task_picks_least_overdue :
  parse_deadlines ex_heap ex_now [0%nat; 1%nat] = [(0%nat, -7); (1%nat, -2)]
  ∧ csp_task ex_now ex_heap [0%nat; 1%nat] None
    = (Some 1%nat, MsgOverdue 2, Some overdue)
  ∧ head (sort_overdue_spec (bucket overdue (parse_deadlines ex_heap ex_now [0%nat; 1%nat])))
    = Some (0%nat, -7).
Proof. repeat split; vm_compute; reflexivity. Qed.

(** C4, counterexample. "Write report" is a must-do task of priority 9
    and "sad" is not in its [emotion_fit]: the strict filter lets it
    through, the Emotion constraint of the CSP solver does not. *)
Lemma csp_emotion_no_bypass_counterexample :
  task_type (ex_heap 0%nat) = "must_do"
  ∧ 7 <= base_priority (ex_heap 0%nat)
  ∧ strict_emotion_ok "sad" (ex_heap 0%nat) = true
  ∧ emotion_constraint ex_heap
      (task_map (CSP_init ex_now ex_heap [0%nat] "sad" None)) "sad"
      [] (Some "Write report") true
    = Ok false.
Proof. repeat split; vm_compute; solve [reflexivity | discriminate]. Qed.

Lemma emotion_checks_witness :
  (strict_emotion_ok "sad" (ex_heap 1%nat) = true
   ↔ "sad" ∈ emotion_fit (ex_heap 1%nat)
     ∨ (task_type (ex_heap 1%nat) = "must_do" ∧ 7 <= base_priority (ex_heap 1%nat)))
  ∧ head (csp_constraints (CSP_init ex_now ex_heap [0%nat; 1%nat] "sad" None))
    = Some (emotion_constraint ex_heap
              (task_map (CSP_init ex_now ex_heap [0%nat; 1%nat] "sad" None)) "sad")
  ∧ emotion_constraint ex_heap
      (task_map (CSP_init ex_now ex_heap [0%nat; 1%nat] "sad" None)) "sad"
      [] (Some "Take a walk") true
    = Ok (bool_decide ("sad" ∈ emotion_fit (ex_heap 1%nat)))
  ∧ emotion_constraint ex_heap
      (task_map (CSP_init ex_now ex_heap [0%nat; 1%nat] "sad" None)) "sad"
      [] (Some "Take a walk") false
    = Ok true.
Proof.
  apply (emotion_checks ex_now ex_heap [0%nat; 1%nat] "sad" None [] "Take a walk" 1%nat).
  vm_compute. reflexivity.
Defined.

(** C7, counterexample. With [max_sequence_length] 0 every root is a
    complete sequence of one task, the best sequence is shorter than 2,
    and the greedy fallback returns one task: a sequence longer than the
    limit. *)
Lemma mini_a_star_zero_length_counterexample :
  fst <$> mini_a_star ex_now Z.of_nat 10 ex_heap [0; 1; 2; 3]%nat "neutral" None 0 []
  = Some [0%nat]
  ∧ ¬ Z.of_nat (length [0%nat]) <= 0.
Proof. split; [vm_compute; reflexivity | simpl; lia]. Qed.

Lemma mini_a_star_sequence_witness :
  1 <= 3
  ∧ ∃ fuel0, ∀ fuel, (fuel0 ≤ fuel)%nat →
      ∃ seq h',
        mini_a_star ex_now Z.of_nat fuel ex_heap [0; 1; 2; 3]%nat "neutral" None 3 []
        = Some (seq, h')
        ∧ Z.of_nat (length seq) <= 3
        ∧ NoDup ((λ r, name (h' r)) <$> seq).
Proof.
  split; [lia |].
  destruct (mini_a_star_sequence ex_now Z.of_nat ex_heap [0; 1; 2; 3]%nat "neutral"
              None 3 []) as [fuel0 Hf]; [lia |].
  exists fuel0. intros fuel Hfuel.
  destruct (Hf fuel Hfuel) as (seq & h' & Hm & Hlen & Hnd & _).
  exists seq, h'. auto.
Defined.

Lemma success_rate_stays_clamped_witness :
  (1 # 10 <= success_rate (ex_heap 0%nat))%Q
  ∧ (success_rate (ex_heap 0%nat) <= 1)%Q
  ∧ (1 # 10 <= success_rate (attempts_run (ex_heap 0%nat)
                               [(ex_now, false); (ex_now, false); (ex_now, true)]))%Q
  ∧ (success_rate (attempts_run (ex_heap 0%nat)
                     [(ex_now, false); (ex_now, false); (ex_now, true)]) <= 1)%Q.
Proof.
  assert (Hlo : (1 # 10 <= success_rate (ex_heap 0%nat))%Q)
    by (unfold Qle; simpl; lia).
  assert (Hhi : (success_rate (ex_heap 0%nat) <= 1)%Q)
    by (unfold Qle; simpl; lia).
  split; [exact Hlo |]. split; [exact Hhi |].
  exact (proj1 (success_rate_stays_clamped (ex_heap 0%nat)
                  [(ex_now, false); (ex_now, false); (ex_now, true)] Hlo Hhi)).
Defined.

(** * Further properties of the code *)

(** ** Time windows and constraints ([task.py]) *)

(** X1. The time bonus of [get_time_suitability] is one of -5, -3, 0, 1
    and 3; whenever it is negative the task is not time-suitable at that
    time, so a task the strict filter lets through never carries a
    negative time bonus for the time of the conditions. *)
Theorem time_bonus_agrees_with_gate (t : Task) (current_time : datetime) :
  get_time_suitability t current_time ∈ [-5; -3; 0; 1; 3]
  ∧ (get_time_suitability t current_time < 0 → is_time_suitable t current_time = false)
  ∧ (is_time_suitable t current_time = true → 0 <= get_time_suitability t current_time).
Proof.
  assert (Hneg : get_time_suitability t current_time < 0 →
                 is_time_suitable t current_time = false).
  { unfold get_time_suitability, is_time_suitable.
    destruct (c_time_constraints (constraints t)) as [tc |].
    - destruct (str_in "morning_only" tc && (12 <=? dt_hour current_time)); [reflexivity |].
      destruct (str_in "evening_only" tc && (dt_hour current_time <? 17)); [reflexivity |].
      destruct (str_in "office_hours" tc
                && ((dt_hour current_time <? 9) || (17 <=? dt_hour current_time)));
        [reflexivity |].
      repeat case_match; lia.
    - repeat case_match; lia. }
  split; [| split; [exact Hneg |]].
  - unfold get_time_suitability.
    repeat case_match; simplify_eq; set_solver.
  - intros Hs. destruct (Z.lt_ge_cases (get_time_suitability t current_time) 0) as [Hlt | Hge];
      [| lia].
    rewrite (Hneg Hlt) in Hs. discriminate.
Qed.

(** X2. Every task [apply_strict_constraints] returns is a task of the
    pool that is time-suitable both at the time of the conditions and at
    the clock's time, has all its required resources among the available
    ones, fits its [max_time], is not gated by a date in the future, and
    matches the emotion or is a must-do task of priority 7 or more; and
    every task of the pool with these properties is returned. *)
Theorem strict_filter_admits_exactly (now : datetime) (h : heap) (tasks : list ref)
    (cond : conditions) (current_emotion : string) (r : ref) :
  r ∈ apply_strict_constraints now h tasks cond current_emotion
  ↔ r ∈ tasks
    ∧ (current_emotion ∈ emotion_fit (h r)
       ∨ (task_type (h r) = "must_do" ∧ 7 <= base_priority (h r)))
    ∧ is_time_suitable (h r) (default now (current_time cond)) = true
    ∧ is_time_suitable (h r) now = true
    ∧ requires_met (constraints (h r)) cond = true
    ∧ within_max_time (h r) = true
    ∧ too_early now (constraints (h r)) = false.
Proof.
  rewrite strict_filter_spec. unfold strict_ok, check_constraints.
  rewrite <- strict_emotion_ok_spec.
  destruct (strict_emotion_ok current_emotion (h r));
    destruct (is_time_suitable (h r) (default now (current_time cond)));
    destruct (too_early now (constraints (h r)));
    destruct (requires_met (constraints (h r)) cond);
    destruct (within_max_time (h r));
    destruct (is_time_suitable (h r) now); simpl; intuition congruence.
Qed.

(** X3. A task that names a resource which is not among the available
    ones, alone or in a list, never passes [check_constraints], and so is
    never returned by the strict filter. *)
Theorem missing_resource_is_excluded (now : datetime) (h : heap) (tasks : list ref)
    (cond : conditions) (current_emotion : string) (r : ref) (res : string) :
  (c_requires (constraints (h r)) = Some (ReqOne res)
   ∨ ∃ rs, c_requires (constraints (h r)) = Some (ReqList rs) ∧ res ∈ rs) →
  res ∉ resources_of cond →
  check_constraints now (h r) cond = false
  ∧ r ∉ apply_strict_constraints now h tasks cond current_emotion.
Proof.
  intros Hreq Hres.
  assert (Hmet : requires_met (constraints (h r)) cond = false).
  { unfold requires_met. destruct Hreq as [-> | (rs & -> & Hin)].
    - unfold str_in. apply bool_decide_eq_false. exact Hres.
    - apply not_true_iff_false. intros Hall.
      rewrite forallb_forall in Hall. apply list_elem_of_In in Hin.
      specialize (Hall res Hin). unfold str_in in Hall.
      apply bool_decide_eq_true in Hall. contradiction. }
  assert (Hc : check_constraints now (h r) cond = false).
  { unfold check_constraints. rewrite Hmet.
    destruct (too_early now (constraints (h r))); reflexivity. }
  split; [exact Hc |].
  rewrite strict_filter_spec. unfold strict_ok. rewrite Hc.
  intros [_ Hok]. repeat case_match; discriminate.
Qed.

Lemma missing_resource_is_excluded_witness :
  check_constraints ex_now
    (Task_init "Walk" 5 "break" 20 ["sad"] DateNone "general"
       (mkConstraints None (Some (ReqOne "outdoors")) None None None None None None))
    empty_conditions = false
  ∧ 0%nat ∉ apply_strict_constraints ex_now
      (λ _, Task_init "Walk" 5 "break" 20 ["sad"] DateNone "general"
              (mkConstraints None (Some (ReqOne "outdoors")) None None None None None None))
      [0%nat] empty_conditions "sad".
Proof.
  apply (missing_resource_is_excluded ex_now
           (λ _, Task_init "Walk" 5 "break" 20 ["sad"] DateNone "general"
                   (mkConstraints None (Some (ReqOne "outdoors")) None None None None
                                  None None))
           [0%nat] empty_conditions "sad" 0%nat "outdoors").
  - left. reflexivity.
  - simpl. apply not_elem_of_nil.
Defined.

(** ** Attempt history ([Task.mark_attempted]) *)

(** X4. After any run of [mark_attempted] calls the attempt count has
    grown by the number of calls, the task is completed exactly when it
    was before or one of the attempts succeeded (a later failure does not
    undo completion), and [last_attempted] is the clock reading of the
    last call. *)
Theorem attempts_are_counted (t : Task) (attempts : list (datetime * bool)) :
  attempt_count (attempts_run t attempts) = attempt_count t + Z.of_nat (length attempts)
  ∧ completed (attempts_run t attempts) = completed t || existsb snd attempts
  ∧ last_attempted (attempts_run t attempts)
    = match last attempts with
      | Some a => Some a.1
      | None => last_attempted t
      end.
Proof.
  revert t. induction attempts as [| [now s] attempts IH]; intros t.
  - simpl. repeat split; [lia | rewrite orb_false_r; reflexivity].
  - destruct (IH (mark_attempted now s t)) as (Hc & Hd & Hl).
    change (attempts_run t ((now, s) :: attempts))
      with (attempts_run (mark_attempted now s t) attempts).
    rewrite Hc, Hd, Hl. cbn [mark_attempted attempt_count completed last_attempted].
    split; [rewrite length_cons; lia |]. split.
    + cbn [existsb snd]. destruct s, (completed t); reflexivity.
    + destruct attempts as [| a attempts']; [reflexivity |].
      change (last ((now, s) :: a :: attempts')) with (last (a :: attempts')).
      destruct (last (a :: attempts')) eqn:El; [reflexivity |].
      apply last_None in El. discriminate.
Qed.

(** ** Score bounds *)





(** ** The greedy selector *)

Lemma compute_score_set_heuristic (now : datetime) (s : Q) (t : Task) (e : string)
    (ct : option datetime) (en : Z) (p u : Q) :
  compute_score now (set_heuristic_score s t) e ct en p u
  = compute_score now t e ct en p u.
Proof.
  unfold compute_score, raw_score, get_urgency_bonus, emotion_bonus, type_bonus,
    energy_bonus, energy_required, get_time_suitability, preferred_time,
    set_heuristic_score.
  cbn [name base_priority category duration emotion_fit deadline task_type
       constraints success_rate].
  reflexivity.
Qed.

Lemma set_scores_twice (s s' : Q) (t : Task) :
  set_heuristic_score s (set_score s (set_heuristic_score s' (set_score s' t)))
  = set_heuristic_score s (set_score s t).
Proof. destruct t; reflexivity. Qed.

(** The scoring loop of [greedy] writes, into every task it visits, the
    score computed from the task as it was before the call. *)
Lemma greedy_scoring_loop (now : datetime) (e : string) (ct : datetime) (en : Z)
    (p u : Q) (h : heap) (l : list ref) :
  let cs := λ r, compute_score now (h r) e (Some ct) en p u in
  let h' := foldl (score_task_greedy now e ct en p u) h l in
  (∀ r, h' r = h r ∨ h' r = set_heuristic_score (cs r) (set_score (cs r) (h r)))
  ∧ (∀ v, v ∈ l → h' v = set_heuristic_score (cs v) (set_score (cs v) (h v))).
Proof.
  intros cs. induction l as [| x l IH] using rev_ind; simpl.
  - split; [auto | intros v Hv; inversion Hv].
  - rewrite foldl_snoc. destruct IH as [IH1 IH2].
    set (hl := foldl (score_task_greedy now e ct en p u) h l) in *.
    assert (Hx : score_task_greedy now e ct en p u hl x x
                 = set_heuristic_score (cs x) (set_score (cs x) (h x))).
    { unfold score_task_greedy, heap_set. rewrite decide_True by reflexivity.
      destruct (IH1 x) as [-> | ->]; [reflexivity |].
      rewrite compute_score_set_heuristic, compute_score_set_score.
      apply set_scores_twice. }
    split.
    + intros r. destruct (decide (r = x)) as [-> | Hne]; [right; exact Hx |].
      unfold score_task_greedy, heap_set. rewrite decide_False by exact Hne. apply IH1.
    + intros v Hv. destruct (decide (v = x)) as [-> | Hne]; [exact Hx |].
      apply elem_of_app in Hv as [Hv | Hv].
      * unfold score_task_greedy, heap_set. rewrite decide_False by exact Hne.
        apply IH2, Hv.
      * apply list_elem_of_singleton in Hv. contradiction.
Qed.

Lemma greedy_prefers_refl (h : heap) (r : ref) : greedy_prefers h r r.
Proof. right. split; [reflexivity |]. right. split; [reflexivity | lia]. Qed.

(** One round of the selection loop keeps the best task seen so far. *)
Lemma greedy_step_ok (h : heap) (seen : list ref) (best : option (ref * Q)) (x : ref) :
  greedy_loop_ok h seen best →
  greedy_loop_ok h (seen ++ [x]) (greedy_step h best x).
Proof.
  unfold greedy_loop_ok, greedy_step.
  destruct best as [[b bs] |].
  - intros (Hb & Hbs & Hall).
    assert (Hnew : ∀ s, (s == default 0%Q (heuristic_score (h x)))%Q →
              (∀ v, v ∈ seen → greedy_prefers h x v) →
              x ∈ seen ++ [x]
              ∧ (s == default 0%Q (heuristic_score (h x)))%Q
              ∧ ∀ v, v ∈ seen ++ [x] → greedy_prefers h x v).
    { intros s Hs Hv. split; [apply elem_of_app; right; apply list_elem_of_here |].
      split; [exact Hs |]. intros v Hin. apply elem_of_app in Hin as [Hin | Hin].
      - apply Hv, Hin.
      - apply list_elem_of_singleton in Hin. subst v. apply greedy_prefers_refl. }
    assert (Hkeep : greedy_prefers h b x →
              b ∈ seen ++ [x]
              ∧ (bs == default 0%Q (heuristic_score (h b)))%Q
              ∧ ∀ v, v ∈ seen ++ [x] → greedy_prefers h b v).
    { intros Hx. split; [apply elem_of_app; left; exact Hb |].
      split; [exact Hbs |]. intros v Hin. apply elem_of_app in Hin as [Hin | Hin].
      - apply Hall, Hin.
      - apply list_elem_of_singleton in Hin. subst v. exact Hx. }
    unfold greedy_prefers in Hall. cbv zeta in Hall.
    set (sx := default 0%Q (heuristic_score (h x))) in *.
    set (sb := default 0%Q (heuristic_score (h b))) in *.
    destruct (Qltb bs sx) eqn:Elt.
    + apply Qltb_lt in Elt. apply Hnew; [reflexivity |].
      intros v Hv. unfold greedy_prefers. cbv zeta. fold sx. left.
      destruct (Hall v Hv) as [Hlt | [Heq _]]; lra.
    + apply Qltb_ge in Elt. destruct (Qeq_bool sx bs) eqn:Eeq.
      * apply Qeq_bool_iff in Eeq.
        destruct (Z.ltb_spec (base_priority (h b)) (base_priority (h x))) as [Hp | Hp].
        -- apply Hnew; [symmetry; exact Eeq |].
           intros v Hv. unfold greedy_prefers. cbv zeta. fold sx.
           destruct (Hall v Hv) as [Hlt | [Heq Hpd]].
           ++ left. lra.
           ++ right. split; [lra |]. left. lia.
        -- destruct (Z.eqb_spec (base_priority (h x)) (base_priority (h b))) as [Hpe | Hpe].
           ++ destruct (Z.ltb_spec (duration (h x)) (duration (h b))) as [Hd | Hd].
              ** apply Hnew; [symmetry; exact Eeq |].
                 intros v Hv. unfold greedy_prefers. cbv zeta. fold sx.
                 destruct (Hall v Hv) as [Hlt | [Heq Hpd]].
                 --- left. lra.
                 --- right. split; [lra |]. lia.
              ** apply Hkeep. unfold greedy_prefers. cbv zeta. fold sx sb.
                 right. split; [lra |]. right. lia.
           ++ apply Hkeep. unfold greedy_prefers. cbv zeta. fold sx sb.
              right. split; [lra |]. left. lia.
      * apply Hkeep. unfold greedy_prefers. cbv zeta. fold sx sb. left.
        assert (Hne : ¬ (sx == bs)%Q).
        { intros Hq. apply Qeq_bool_iff in Hq. congruence. }
        destruct (Qlt_le_dec sx bs) as [Hl | Hl]; [lra |].
        exfalso. apply Hne. apply Qle_antisym; assumption.
  - intros ->. cbn [app]. split; [apply list_elem_of_here |]. split; [reflexivity |].
    intros v Hv. apply list_elem_of_singleton in Hv. subst v. apply greedy_prefers_refl.
Qed.

Lemma greedy_loop (h : heap) (l seen : list ref) (best : option (ref * Q)) :
  greedy_loop_ok h seen best →
  greedy_loop_ok h (seen ++ l) (foldl (greedy_step h) best l).
Proof.
  revert seen best. induction l as [| x l IH]; intros seen best Hok; simpl.
  - rewrite app_nil_r. exact Hok.
  - replace (seen ++ x :: l) with ((seen ++ [x]) ++ l) by (rewrite <- app_assoc; reflexivity).
    apply IH, greedy_step_ok, Hok.
Qed.

(** X6. [greedy] returns [None] exactly when the strict filter leaves
    nothing.  Otherwise it returns a strictly filtered task that no other
    strictly filtered task beats: none scores strictly more, none scores
    the same with a higher priority, and none scores the same with the
    same priority and a shorter duration.  The scores compared are those
    the call has just computed and stored in the tasks. *)
Theorem greedy_returns_best_admissible (now : datetime) (h : heap) (tasks : list ref)
    (emotion : option string) (current_conditions : option conditions) :
  let cond := cond_or_empty current_conditions in
  let e := emotion_or_neutral emotion in
  let valid := apply_strict_constraints now h tasks cond e in
  match greedy now h tasks emotion current_conditions with
  | (Some r, h') =>
      r ∈ valid
      ∧ Forall (λ v, heuristic_score (h' v)
                     = Some (compute_score now (h v) e
                               (Some (default now (current_time cond)))
                               (default 5 (current_energy cond))
                               (default 0%Q (preference_bonus cond))
                               (default 0%Q (urgency_bonus cond)))) valid
      ∧ Forall (greedy_prefers h' r) valid
  | (None, _) => valid = []
  end.
Proof.
  intros cond e valid. unfold greedy.
  destruct tasks as [| t0 tasks']; [reflexivity |].
  fold cond e valid. destruct valid as [| v vs] eqn:Ev; [reflexivity |].
  set (h' := foldl _ h (v :: vs)).
  pose proof (greedy_loop h' (v :: vs) [] None eq_refl) as Hloop.
  cbn [app] in Hloop.
  destruct (foldl (greedy_step h') None (v :: vs)) as [[b bs] |] eqn:Ef.
  - cbn [fmap option_fmap option_map fst]. destruct Hloop as (Hb & _ & Hall).
    split; [exact Hb |]. split.
    + apply Forall_forall. intros x Hx.
      destruct (greedy_scoring_loop now e (default now (current_time cond))
                  (default 5 (current_energy cond))
                  (default 0%Q (preference_bonus cond))
                  (default 0%Q (urgency_bonus cond)) h (v :: vs)) as [_ Hset].
      fold h' in Hset. rewrite (Hset x Hx). reflexivity.
    + apply Forall_forall. exact Hall.
  - discriminate Hloop.
Qed.

(** ** The random selector *)

(** X7. [stochastic] returns [None] exactly when the strict filter
    leaves nothing; otherwise it returns one of the strictly filtered
    tasks, whatever the random generator yields, and the only one when
    there is one. *)
Theorem stochastic_returns_admissible (now : datetime) (randbelow : nat → nat)
    (h : heap) (tasks : list ref) (emotion : option string)
    (current_conditions : option conditions) :
  let valid := apply_strict_constraints now h tasks (cond_or_empty current_conditions)
                 (emotion_or_neutral emotion) in
  match stochastic now randbelow h tasks emotion current_conditions with
  | Some r => r ∈ valid ∧ (length valid = 1%nat → valid = [r])
  | None => valid = []
  end.
Proof.
  intros valid. unfold stochastic.
  destruct tasks as [| t0 tasks']; [reflexivity |].
  fold valid. destruct valid as [| v [| w vs]]; [reflexivity | |].
  - split; [apply list_elem_of_here | reflexivity].
  - split; [| simpl; lia]. unfold random_choice.
    destruct (nth_in_or_default (randbelow (length (v :: w :: vs))) (v :: w :: vs) v)
      as [Hin | ->].
    + apply list_elem_of_In, Hin.
    + apply list_elem_of_here.
Qed.

(** ** The deadline selector, in general *)

Lemma parse_deadlines_spec (h : heap) (t : datetime) (l : list ref) (r : ref) (d : Z) :
  (r, d) ∈ parse_deadlines h t l
  ↔ r ∈ l ∧ ∃ day, deadline (h r) = DateDay day ∧ d = days_until day t.
Proof.
  unfold parse_deadlines. rewrite list_elem_of_omap. split.
  - intros (x & Hx & Hd). destruct (deadline (h x)) as [| | day] eqn:Ed; try discriminate.
    injection Hd as -> <-. eauto.
  - intros (Hr & day & Hd & ->). exists r. rewrite Hd. auto.
Qed.

Lemma select_category_none (cats : list category_t) (parsed : list (ref * Z))
    (msg : deadline_msg) (lvl : option category_t) :
  select_category cats parsed = (None, msg, lvl) →
  lvl = None ∧ ∀ c, c ∈ cats → bucket c parsed = [].
Proof.
  induction cats as [| c0 cats IH]; cbn [select_category].
  - intros H. injection H as <- <-. split; [reflexivity |]. intros c Hc. inversion Hc.
  - destruct (sort_bucket c0 (bucket c0 parsed)) as [| [r0 d0] rest] eqn:Es;
      [| discriminate].
    intros H. destruct (IH H) as [Hl Hb]. split; [exact Hl |].
    intros c Hc. apply elem_of_cons in Hc as [-> | Hc]; [| apply Hb, Hc].
    rewrite sort_bucket_key in Es.
    pose proof (sort_by_perm (bucket_key c0) (bucket c0 parsed)) as Hp.
    rewrite Es in Hp. symmetry in Hp. apply Permutation_nil_r in Hp. exact Hp.
Qed.

Lemma select_category_some (cats : list category_t) (parsed : list (ref * Z))
    (r : ref) (msg : deadline_msg) (lvl : option category_t) :
  select_category cats parsed = (Some r, msg, lvl) → ∃ c, lvl = Some c.
Proof.
  induction cats as [| c0 cats IH]; cbn [select_category]; [discriminate |].
  destruct (sort_bucket c0 (bucket c0 parsed)) as [| [r1 d1] rest]; [exact IH |].
  intros H. injection H as _ _ <-. eauto.
Qed.

Lemma has_deadline_filter (h : heap) (l : list ref) (r : ref) (day : Z) :
  r ∈ l → deadline (h r) = DateDay day →
  r ∈ filter (λ task, has_deadline (h task) = true) l.
Proof.
  intros Hr Hd. apply list_elem_of_filter. split; [| exact Hr].
  unfold has_deadline. rewrite Hd. reflexivity.
Qed.

(** X8. [csp_task] returns a task exactly when some task of the pool has
    a deadline that parses.  The task returned is a task of the pool, its
    urgency level and warning are those of its own day count, and no task
    of the pool with a parsable deadline lies in a more urgent category
    (overdue before due today, before due tomorrow, before due this week,
    before due later). *)
Theorem csp_task_most_urgent_category (now : datetime) (h : heap) (tasks : list ref)
    (current_time : option datetime) :
  let t := default now current_time in
  match csp_task now h tasks current_time with
  | (Some r, msg, lvl) =>
      r ∈ tasks
      ∧ ∃ day, deadline (h r) = DateDay day
               ∧ lvl = Some (categorize (days_until day t))
               ∧ msg = message_of (categorize (days_until day t)) (days_until day t)
               ∧ Forall (λ r', match deadline (h r') with
                               | DateDay day' =>
                                   (category_rank (categorize (days_until day t))
                                    ≤ category_rank (categorize (days_until day' t)))%nat
                               | _ => True
                               end) tasks
  | (None, _, lvl) =>
      lvl = None
      ∧ Forall (λ r', match deadline (h r') with
                      | DateDay _ => False
                      | _ => True
                      end) tasks
  end.
Proof.
  intros t.
  assert (Hfilter : ∀ r, r ∈ filter (λ task, has_deadline (h task) = true) tasks
                         ↔ r ∈ tasks ∧ has_deadline (h r) = true).
  { intros r. rewrite list_elem_of_filter. tauto. }
  destruct (csp_task now h tasks current_time) as [[o msg] lvl] eqn:Ec.
  destruct o as [r |].
  - assert (Hlvl : ∃ c, lvl = Some c).
    { pose proof Ec as Ec'. unfold csp_task in Ec'.
      destruct tasks as [| t0 ts]; [discriminate |].
      destruct (filter _ (t0 :: ts)); [discriminate |].
      eapply select_category_some, Ec'. }
    destruct Hlvl as [c ->].
    destruct (csp_task_selects now h tasks current_time r msg c Ec)
      as (d & Hin & Hmsg & _ & Hrank).
    fold t in Hin, Hrank.
    unfold bucket in Hin. apply list_elem_of_filter in Hin as [Hcat Hin]. cbn [snd] in Hcat.
    apply parse_deadlines_spec in Hin as (Hr & day & Hday & ->).
    apply Hfilter in Hr as [Hr _].
    split; [exact Hr |]. exists day. split; [exact Hday |].
    rewrite Hcat. split; [reflexivity |]. split; [exact Hmsg |].
    apply Forall_forall. intros r' Hr'.
    destruct (deadline (h r')) as [| | day'] eqn:Ed'; try exact I.
    destruct (le_lt_dec (category_rank c) (category_rank (categorize (days_until day' t))))
      as [Hle | Hlt]; [exact Hle |].
    exfalso. specialize (Hrank _ Hlt).
    assert (Hmem : (r', days_until day' t)
                   ∈ bucket (categorize (days_until day' t))
                       (parse_deadlines h t
                          (filter (λ task, has_deadline (h task) = true) tasks))).
    { unfold bucket. apply list_elem_of_filter. split; [reflexivity |].
      apply parse_deadlines_spec. split; [| eauto].
      apply (has_deadline_filter h tasks r' day' Hr' Ed'). }
    rewrite Hrank in Hmem. inversion Hmem.
  - unfold csp_task in Ec. destruct tasks as [| t0 ts].
    { injection Ec as <- <-. split; [reflexivity | constructor]. }
    destruct (filter (λ task, has_deadline (h task) = true) (t0 :: ts)) as [| w ws] eqn:Ef.
    + injection Ec as <- <-. split; [reflexivity |].
      apply Forall_forall. intros r' Hr'.
      destruct (deadline (h r')) as [| | day'] eqn:Ed'; try exact I.
      pose proof (has_deadline_filter h (t0 :: ts) r' day' Hr' Ed') as Hin.
      rewrite Ef in Hin. inversion Hin.
    + apply select_category_none in Ec as [-> Hb]. split; [reflexivity |].
      apply Forall_forall. intros r' Hr'.
      destruct (deadline (h r')) as [| | day'] eqn:Ed'; try exact I.
      assert (Hmem : (r', days_until day' t)
                     ∈ bucket (categorize (days_until day' t))
                         (parse_deadlines h t (w :: ws))).
      { unfold bucket. apply list_elem_of_filter. split; [reflexivity |].
        apply parse_deadlines_spec. split; [| eauto].
        rewrite <- Ef. apply (has_deadline_filter h (t0 :: ts) r' day' Hr' Ed'). }
      rewrite Hb in Hmem; [inversion Hmem |].
      destruct (categorize (days_until day' t));
        repeat first [apply list_elem_of_here | apply list_elem_of_further].
Qed.

(** ** Task similarity ([calculate_task_similarity]) *)

Lemma Qdiv_Z_le_1 (a b : Z) : 0 < b → a <= b → (Qdiv_Z a b <= 1)%Q.
Proof.
  intros Hb Hab. unfold Qdiv_Z. apply Qle_shift_div_r.
  - change 0%Q with (inject_Z 0). rewrite <- Zlt_Qlt. exact Hb.
  - rewrite Qmult_1_l. rewrite <- Zle_Qle. exact Hab.
Qed.

Lemma Qdiv_Z_self (a : Z) : 0 < a → (Qdiv_Z a a == 1)%Q.
Proof.
  intros Ha. unfold Qdiv_Z. apply Qmult_inv_r.
  intros H. unfold Qeq in H. simpl in H. lia.
Qed.

Lemma similarity_le_1_aux (t1 t2 : Task) : (calculate_task_similarity t1 t2 <= 1)%Q.
Proof.
  unfold calculate_task_similarity. cbv zeta.
  generalize (list_to_set (emotion_fit t1) : gset string)
             (list_to_set (emotion_fit t2) : gset string).
  intros s1 s2.
  assert (Hsz : (size (s1 ∩ s2) ≤ size (s1 ∪ s2))%nat).
  { apply subseteq_size. intros x Hx. apply elem_of_intersection in Hx as [Hx _].
    apply elem_of_union. left. exact Hx. }
  set (ov := Z.of_nat (size (s1 ∩ s2))) in *.
  set (tot := Z.of_nat (size (s1 ∪ s2))) in *.
  assert (H1 : (Qdiv_Z (10 - Z.abs (base_priority t1 - base_priority t2)) 10 <= 1)%Q)
    by (apply Qdiv_Z_le_1; lia).
  set (sim3 := Qdiv_Z (10 - Z.abs (base_priority t1 - base_priority t2)) 10) in *.
  clearbody sim3.
  assert (H4 : ((if String.eqb (task_type t1) (task_type t2) then 1 else 0) <= 1)%Q)
    by (destruct (String.eqb (task_type t1) (task_type t2)); lra).
  assert (H5 : ((if String.eqb (category t1) (category t2) then 1 else 0) <= 1)%Q)
    by (destruct (String.eqb (category t1) (category t2)); lra).
  set (sim4 := if String.eqb (task_type t1) (task_type t2) then 1%Q else 0%Q) in *.
  set (sim5 := if String.eqb (category t1) (category t2) then 1%Q else 0%Q) in *.
  clearbody sim4 sim5.
  destruct (Z.ltb_spec 0 tot) as [Ht | Ht];
    destruct ((0 <? duration t1) && (0 <? duration t2)) eqn:Ed.
  all: try (apply andb_true_iff in Ed as [Hd1%Z.ltb_lt Hd2%Z.ltb_lt]).
  all: try (assert (H2 : (Qdiv_Z (Z.min (duration t1) (duration t2))
                            (Z.max (duration t1) (duration t2)) <= 1)%Q)
             by (apply Qdiv_Z_le_1; lia);
            set (sim2 := Qdiv_Z (Z.min (duration t1) (duration t2))
                            (Z.max (duration t1) (duration t2))) in *;
            clearbody sim2).
  all: try (assert (H0 : (Qdiv_Z ov tot <= 1)%Q) by (apply Qdiv_Z_le_1; lia);
            set (sim1 := Qdiv_Z ov tot) in *; clearbody sim1).
  all: cbn [Z.add Z.ltb Z.compare Pos.add Pos.succ Pos.compare Pos.compare_cont].
  all: apply Qle_shift_div_r; [reflexivity |].
  all: match goal with
       | |- context [inject_Z ?z] =>
           let v := eval vm_compute in (inject_Z z) in change (inject_Z z) with v
       end; lra.
Qed.

Lemma similarity_self_aux (t : Task) : (calculate_task_similarity t t == 1)%Q.
Proof.
  unfold calculate_task_similarity. cbv zeta.
  generalize (list_to_set (emotion_fit t) : gset string). intros s.
  assert (E1 : s ∩ s = s) by apply intersection_idemp_L.
  assert (E2 : s ∪ s = s) by apply union_idemp_L.
  rewrite E1, E2, Z.min_id, Z.max_id, Z.sub_diag, !String.eqb_refl, andb_diag.
  change (Z.abs 0) with 0. change (10 - 0) with 10.
  assert (H3 : (Qdiv_Z 10 10 == 1)%Q) by reflexivity.
  destruct (Z.ltb_spec 0 (Z.of_nat (size s))) as [Ht | Ht];
    destruct (Z.ltb_spec 0 (duration t)) as [Hd | Hd].
  all: cbn [Z.add Z.ltb Z.compare Pos.add Pos.succ Pos.compare Pos.compare_cont].
  all: match goal with
       | |- context [0 <? ?z] =>
           let v := eval vm_compute in (0 <? z) in change (0 <? z) with v
       end; cbv iota.
  all: rewrite ?(Qdiv_Z_self _ Ht), ?(Qdiv_Z_self _ Hd), H3.
  all: reflexivity.
Qed.

Lemma similarity_sym_aux (t1 t2 : Task) :
  calculate_task_similarity t1 t2 = calculate_task_similarity t2 t1.
Proof.
  unfold calculate_task_similarity.
  cbv zeta.
  generalize (list_to_set (emotion_fit t1) : gset string)
             (list_to_set (emotion_fit t2) : gset string).
  intros s1 s2.
  assert (E1 : s2 ∩ s1 = s1 ∩ s2) by apply intersection_comm_L.
  assert (E2 : s2 ∪ s1 = s1 ∪ s2) by apply union_comm_L.
  rewrite E1, E2.
  rewrite (Z.min_comm (duration t2)), (Z.max_comm (duration t2)).
  rewrite (andb_comm (0 <? duration t2)).
  replace (Z.abs (base_priority t2 - base_priority t1))
    with (Z.abs (base_priority t1 - base_priority t2)) by lia.
  rewrite (String.eqb_sym (task_type t2)), (String.eqb_sym (category t2)).
  reflexivity.
Qed.

(** X9. [calculate_task_similarity] is a symmetric measure that never
    exceeds 1 and gives exactly 1 for a task compared with itself (or with
    any task carrying the same attributes), whatever the attributes are:
    empty emotion lists and durations that are zero or negative only drop
    their factor.  Hill climbing therefore sees the same neighbourhood
    relation from either end, and a task's twin always clears the 0.6
    threshold. *)
Theorem similarity_symmetric_bounded_reflexive (t1 t2 : Task) :
  calculate_task_similarity t1 t2 = calculate_task_similarity t2 t1 ∧
  (calculate_task_similarity t1 t2 <= 1)%Q ∧
  (calculate_task_similarity t1 t1 == 1)%Q.
Proof.
  split; [apply similarity_sym_aux |].
  split; [apply similarity_le_1_aux | apply similarity_self_aux].
Qed.

(** ** The CSP filter, whatever the names ([csp_filter], [analyze_csp_failure]) *)


Lemma filter_all {A} (P : A → Prop) `{∀ x, Decision (P x)} (l : list A) :
  (∀ x, x ∈ l → P x) → filter P l = l.
Proof.
  induction l as [| x l IH]; intros Hall; [reflexivity |].
  rewrite filter_cons, decide_True by apply Hall, list_elem_of_here.
  rewrite IH; [reflexivity |]. intros y Hy. apply Hall, list_elem_of_further, Hy.
Qed.

Lemma filter_none {A} (P : A → Prop) `{∀ x, Decision (P x)} (l : list A) :
  (∀ x, x ∈ l → ¬ P x) → filter P l = [].
Proof.
  induction l as [| x l IH]; intros Hall; [reflexivity |].
  rewrite filter_cons, decide_False by apply Hall, list_elem_of_here.
  apply IH. intros y Hy. apply Hall, list_elem_of_further, Hy.
Qed.

Lemma mrv_order_perm (verdict : string → bool) (vs : list string) :
  mrv_order verdict vs ≡ₚ vs.
Proof.
  unfold mrv_order. induction vs as [| v vs IH]; [reflexivity |].
  rewrite !filter_cons. destruct (verdict v).
  - rewrite decide_False by discriminate. rewrite decide_True by reflexivity.
    rewrite <- Permutation_middle. constructor. exact IH.
  - rewrite decide_True by reflexivity. rewrite decide_False by discriminate.
    cbn [app]. constructor. exact IH.
Qed.

(** Taking the first variable of the order out of the list leaves the
    rest of the order. *)
Lemma mrv_order_tail (verdict : string → bool) (vs : list string) (w : string)
    (rest : list string) :
  NoDup vs → mrv_order verdict vs = w :: rest →
  mrv_order verdict (filter (λ v, v ≠ w) vs) = rest.
Proof.
  intros Hnd Ho.
  assert (Hcomm : ∀ b, filter (λ v, verdict v = b) (filter (λ v, v ≠ w) vs)
                       = filter (λ v, v ≠ w) (filter (λ v, verdict v = b) vs)).
  { intros b. rewrite !list_filter_filter. apply list_filter_iff. tauto. }
  unfold mrv_order. rewrite !Hcomm, <- filter_app.
  fold (mrv_order verdict vs). rewrite Ho.
  rewrite filter_cons, decide_False by (intros Hne; apply Hne; reflexivity).
  apply filter_all. intros x Hx ->.
  assert (Hnd' : NoDup (w :: rest)) by (rewrite <- Ho, mrv_order_perm; exact Hnd).
  apply NoDup_cons in Hnd' as [Hw _]. contradiction.
Qed.

(** The minimum over scores that are 1 or 2: the first variable whose
    verdict is [False], and the first variable when there is none. *)
Lemma zmin_from_verdict (verdict : string → bool) (best : string) (us : list string) :
  let mk := λ v : string, ((if verdict v then 1 else 0) + (1 + 0), v) in
  zmin_from fst (mk best) (mk <$> us)
  = mk (if verdict best
        then match filter (λ v, verdict v = false) us with
             | f :: _ => f
             | [] => best
             end
        else best).
Proof.
  intros mk. revert best. induction us as [| x us IH]; intros best.
  - cbn [fmap list_fmap zmin_from]. rewrite filter_nil. destruct (verdict best); reflexivity.
  - rewrite fmap_cons. cbn [zmin_from]. rewrite filter_cons.
    destruct (verdict best) eqn:Eb; destruct (verdict x) eqn:Ex.
    + rewrite decide_False by discriminate.
      replace (fst (mk x) <? fst (mk best)) with false
        by (unfold mk; rewrite Eb, Ex; reflexivity).
      rewrite IH, Eb. reflexivity.
    + rewrite decide_True by reflexivity.
      replace (fst (mk x) <? fst (mk best)) with true
        by (unfold mk; rewrite Eb, Ex; reflexivity).
      rewrite IH, Ex. reflexivity.
    + replace (fst (mk x) <? fst (mk best)) with false
        by (unfold mk; rewrite Eb, Ex; reflexivity).
      rewrite IH, Eb. reflexivity.
    + replace (fst (mk x) <? fst (mk best)) with false
        by (unfold mk; rewrite Eb, Ex; reflexivity).
      rewrite IH, Eb. reflexivity.
Qed.

Lemma mrv_order_head (verdict : string → bool) (u : string) (us : list string) :
  ∃ rest,
    mrv_order verdict (u :: us)
    = (if verdict u
       then match filter (λ v, verdict v = false) us with
            | f :: _ => f
            | [] => u
            end
       else u) :: rest.
Proof.
  unfold mrv_order. rewrite !filter_cons. destruct (verdict u) eqn:Eu.
  - rewrite decide_False by discriminate. rewrite decide_True by reflexivity.
    destruct (filter (λ v, verdict v = false) us); cbn [app]; eexists; reflexivity.
  - rewrite decide_True by reflexivity. cbn [app]. eexists. reflexivity.
Qed.

Section CSP_order.
Variable now : datetime.
Variable h : heap.
Variable tasks : list ref.
Variable emotion : string.
Variable current_conditions : option conditions.
Hypothesis names_distinct : NoDup ((λ task, name (h task)) <$> tasks).

Local Abbreviation csp := (CSP_init now h tasks emotion current_conditions).
Local Abbreviation cond := (cond_or_empty current_conditions).
Local Abbreviation verdict := (csp_verdict now h csp emotion cond).

Lemma mrv_scores_exact (a : assignment) (vs : list string) :
  (∀ v, v ∈ vs → v ∈ variables csp) →
  mrv_scores csp a vs
  = Ok ((λ v : string, ((if verdict v then 1 else 0) + (1 + 0), v)) <$> vs).
Proof.
  induction vs as [| v vs IH]; intros Hvs; [reflexivity |].
  assert (Hv : v ∈ variables csp) by apply Hvs, list_elem_of_here.
  cbn [mrv_scores]. unfold getitem.
  rewrite (csp_domain now h tasks emotion current_conditions v Hv).
  cbn [mbind result_bind]. cbn [count_legal].
  rewrite (is_consistent_var now h tasks emotion current_conditions a v Hv).
  cbn [mbind result_bind]. rewrite is_consistent_false. cbn [mbind result_bind].
  rewrite IH by (intros w Hw; apply Hvs, list_elem_of_further, Hw).
  cbn [mbind result_bind]. rewrite fmap_cons. reflexivity.
Qed.

(** MRV returns the head of the order of the unassigned variables. *)
Lemma mrv_heuristic_head (a : assignment) :
  unassigned_of csp a ≠ [] →
  ∃ w rest, mrv_heuristic csp a = Ok (Some w)
            ∧ mrv_order verdict (unassigned_of csp a) = w :: rest.
Proof.
  intros Hne. unfold mrv_heuristic.
  assert (Hsub : ∀ v, v ∈ unassigned_of csp a → v ∈ variables csp).
  { intros v Hv. unfold unassigned_of in Hv. apply list_elem_of_filter in Hv. tauto. }
  destruct (unassigned_of csp a) as [| u us]; [contradiction |].
  rewrite (mrv_scores_exact a (u :: us) Hsub). cbn [mbind result_bind].
  rewrite fmap_cons. rewrite (zmin_from_verdict verdict u us). cbn [snd].
  destruct (mrv_order_head verdict u us) as [rest Hrest].
  eexists _, rest. split; [reflexivity | exact Hrest].
Qed.

Lemma unassigned_after (a : assignment) (w : string) (b : bool) :
  unassigned_of csp (a ++ [(Some w, b)])
  = filter (λ v, v ≠ w) (unassigned_of csp a).
Proof.
  unfold unassigned_of. rewrite list_filter_filter. apply list_filter_iff.
  intros v. unfold dict_mem. rewrite !bool_decide_eq_false, fmap_app, not_elem_of_app.
  cbn [fmap list_fmap fst]. rewrite list_elem_of_singleton. split.
  - intros [Ha Hw]. split; [congruence | exact Ha].
  - intros [Hw Ha]. split; [exact Ha | congruence].
Qed.

Lemma unassigned_NoDup (a : assignment) : NoDup (unassigned_of csp a).
Proof. unfold unassigned_of. apply NoDup_filter. exact names_distinct. Qed.

Lemma complete_none_left (a : assignment) :
  assignment_ok now h csp emotion cond a →
  length a = length (variables csp) → unassigned_of csp a = [].
Proof.
  intros Ha Hlen.
  pose proof (assignment_keys_sub now h tasks emotion current_conditions a Ha) as Hsub.
  apply submseteq_length_Permutation in Hsub; [| rewrite !length_fmap; lia].
  unfold unassigned_of. apply filter_none. intros v Hv. unfold dict_mem.
  rewrite bool_decide_eq_false. intros Hout. apply Hout. rewrite Hsub.
  apply list_elem_of_fmap_2, Hv.
Qed.

(** The assignment [backtrack] returns, with its order. *)
Lemma backtrack_order (fuel : nat) (a : assignment) :
  assignment_ok now h csp emotion cond a →
  (length (unassigned_of csp a) < fuel)%nat →
  backtrack now h csp fuel a
  = Ok (true, a ++ ((λ v, (Some v, verdict v))
                    <$> mrv_order verdict (unassigned_of csp a))).
Proof.
  revert a. induction fuel as [| fuel IH]; intros a Ha Hfuel; [lia |].
  cbn [backtrack]. case_bool_decide as Hlen.
  - rewrite (complete_none_left a Ha Hlen). cbn [mrv_order filter fmap list_fmap app].
    unfold mrv_order. rewrite !filter_nil. cbn [app fmap list_fmap].
    rewrite app_nil_r. reflexivity.
  - assert (Hne : unassigned_of csp a ≠ []).
    { intros Hu. apply Hlen.
      apply (complete_when_none_left now h tasks emotion current_conditions a);
        assumption. }
    destruct (mrv_heuristic_head a Hne) as (w & rest & Hmrv & Ho).
    rewrite Hmrv. cbn [mbind result_bind].
    assert (Hw : w ∈ unassigned_of csp a).
    { rewrite <- (mrv_order_perm verdict), Ho. apply list_elem_of_here. }
    destruct (assignment_ok_set now h tasks emotion current_conditions a w Ha Hw)
      as [_ Ha'].
    apply (try_values_verdict now h tasks emotion current_conditions);
      [exact Ha | exact Hw | | discriminate].
    rewrite IH; [| exact Ha' |].
    + rewrite unassigned_after, (mrv_order_tail verdict _ w rest (unassigned_NoDup a) Ho).
      rewrite Ho, fmap_cons, <- app_assoc. reflexivity.
    + pose proof (unassigned_shrinks now h tasks emotion current_conditions a w
                    (verdict w) Hw). lia.
Qed.

Lemma verdict_of_task (r : ref) :
  r ∈ tasks → verdict (name (h r)) = csp_passes now emotion cond (h r).
Proof.
  intros Hr. unfold csp_verdict.
  rewrite (csp_lookup_task now h tasks emotion current_conditions r names_distinct Hr).
  reflexivity.
Qed.

Lemma filter_verdict_names (b : bool) (ts : list ref) :
  (∀ r, r ∈ ts → r ∈ tasks) →
  filter (λ v, verdict v = b) ((λ task, name (h task)) <$> ts)
  = (λ task, name (h task)) <$> filter (λ r, csp_passes now emotion cond (h r) = b) ts.
Proof.
  induction ts as [| r ts IH]; intros Hsub; [reflexivity |].
  rewrite fmap_cons, !filter_cons.
  rewrite (verdict_of_task r) by apply Hsub, list_elem_of_here.
  rewrite IH by (intros x Hx; apply Hsub, list_elem_of_further, Hx).
  destruct (decide (csp_passes now emotion cond (h r) = b)); reflexivity.
Qed.

(** The loop of [solve] over the assignment of the tasks [ts], in their
    order: the tasks that pass, and no warning. *)
Lemma collect_order (ts : list ref) :
  (∀ r, r ∈ ts → r ∈ tasks) →
  collect now h csp
    ((λ v, (Some v, verdict v)) <$> ((λ task, name (h task)) <$> ts))
  = Ok (filter (λ r, csp_passes now emotion cond (h r) = true) ts, []).
Proof.
  induction ts as [| r ts IH]; intros Hsub; [reflexivity |].
  assert (Hr : r ∈ tasks) by apply Hsub, list_elem_of_here.
  rewrite !fmap_cons. cbn [collect]. rewrite (verdict_of_task r Hr), filter_cons.
  rewrite IH by (intros x Hx; apply Hsub, list_elem_of_further, Hx).
  destruct (csp_passes now emotion cond (h r)) eqn:Ep.
  - rewrite decide_True by reflexivity. unfold getitem.
    rewrite (csp_lookup_task now h tasks emotion current_conditions r names_distinct Hr).
    cbn [mbind result_bind]. change (csp_conditions csp) with cond.
    unfold csp_passes in Ep.
    apply andb_true_iff in Ep as [Ep Htime]. apply andb_true_iff in Ep as [_ Hcheck].
    rewrite Htime, Hcheck. reflexivity.
  - rewrite decide_False by discriminate. reflexivity.
Qed.

(** On a pool of distinct names [solve] returns the tasks that pass, in
    the order of the pool, and no warning. *)
Lemma solve_order (fuel : nat) :
  (length tasks < fuel)%nat →
  solve now h csp fuel
  = Ok (filter (λ r, csp_passes now emotion cond (h r) = true) tasks, []).
Proof.
  intros Hfuel. unfold solve.
  rewrite (backtrack_order fuel []);
    [| apply (assignment_ok_nil now h tasks emotion current_conditions)
     | pose proof (unassigned_bound now h tasks emotion current_conditions []); lia].
  cbn [mbind result_bind fst snd negb app].
  assert (Hu : unassigned_of csp [] = (λ task, name (h task)) <$> tasks).
  { unfold unassigned_of. apply filter_all. intros v _. reflexivity. }
  rewrite Hu. unfold mrv_order.
  rewrite !filter_verdict_names by auto. rewrite <- fmap_app.
  rewrite collect_order.
  - rewrite filter_app, list_filter_filter, list_filter_filter.
    rewrite (filter_none (λ r, csp_passes now emotion cond (h r) = true
                               ∧ csp_passes now emotion cond (h r) = false))
      by (intros x _ [H1 H2]; congruence).
    cbn [app]. f_equal. f_equal. apply list_filter_iff. tauto.
  - intros r Hr. apply elem_of_app in Hr as [Hr | Hr];
      apply list_elem_of_filter in Hr; tauto.
Qed.

End CSP_order.

Lemma analyze_csp_failure_spec (now : datetime) (h : heap) (tasks : list ref)
    (emotion : string) (cond : conditions) (r : ref) :
  r ∈ analyze_csp_failure now h tasks emotion cond
  ↔ r ∈ tasks ∧ csp_passes now emotion cond (h r) = true.
Proof.
  unfold analyze_csp_failure, csp_passes. cbv zeta.
  rewrite !list_elem_of_filter, !andb_true_iff. tauto.
Qed.

(** X10. What [csp_filter] does is decided by the task names alone.  If
    the names of the pool are pairwise distinct, it returns exactly the
    list [analyze_csp_failure] computes for the same pool (the tasks
    that pass the three constraints, in the order of the pool) and an
    empty list of warnings: the heuristics change neither the choice nor
    the order, and the branches of [solve] that append warnings (no
    solution, time, missing requirement) are never taken.  If a name is
    repeated, the call raises [KeyError].  The empty pool gives two empty
    lists. *)
Theorem csp_filter_outcome (now : datetime) (h : heap) (tasks : list ref)
    (emotion : string) (current_conditions : option conditions) (fuel : nat) :
  (length tasks < fuel)%nat →
  if bool_decide (NoDup ((λ task, name (h task)) <$> tasks)) then
    csp_filter now h fuel tasks emotion current_conditions
    = Ok (analyze_csp_failure now h tasks emotion (cond_or_empty current_conditions),
          [])
  else csp_filter now h fuel tasks emotion current_conditions = Raise KeyError.
Proof.
  intros Hfuel.
  assert (Hf : tasks ≠ [] →
            csp_filter now h fuel tasks emotion current_conditions
            = solve now h (CSP_init now h tasks emotion current_conditions) fuel).
  { destruct tasks; [contradiction | reflexivity]. }
  case_bool_decide as Hnd.
  - destruct (decide (tasks = [])) as [-> | Hne]; [reflexivity |].
    rewrite (Hf Hne), (solve_order now h tasks emotion current_conditions Hnd fuel Hfuel).
    f_equal. f_equal. unfold analyze_csp_failure. cbv zeta.
    rewrite !list_filter_filter. apply list_filter_iff. intros r.
    unfold csp_passes. rewrite !andb_true_iff. tauto.
  - assert (Hne : tasks ≠ []).
    { intros ->. apply Hnd. constructor. }
    rewrite (Hf Hne).
    apply (solve_repeat now h tasks emotion current_conditions fuel Hnd Hfuel).
Qed.

Lemma csp_filter_outcome_witness :
  csp_filter ex_now ex_heap 5 [0%nat; 1%nat; 2%nat; 3%nat] "sad" None
  = Ok (analyze_csp_failure ex_now ex_heap [0%nat; 1%nat; 2%nat; 3%nat] "sad"
          (cond_or_empty None), [])
  ∧ csp_filter ex_now ex_heap 5 [1%nat; 2%nat; 4%nat] "sad" None = Raise KeyError.
Proof.
  split.
  - apply (csp_filter_outcome ex_now ex_heap [0%nat; 1%nat; 2%nat; 3%nat] "sad" None 5).
    simpl. lia.
  - apply (csp_filter_outcome ex_now ex_heap [1%nat; 2%nat; 4%nat] "sad" None 5).
    simpl. lia.
Defined.

(** X11. [analyze_csp_failure] returns the tasks that
    [apply_strict_constraints] lets through whose [emotion_fit] has the
    emotion, in the same order; a task the strict filter admits and
    [analyze_csp_failure] drops is a must-do task of priority 7 or more
    whose [emotion_fit] lacks the emotion. *)
Theorem analyze_csp_failure_refines_strict_filter (now : datetime) (h : heap)
    (tasks : list ref) (emotion : string) (cond : conditions) :
  analyze_csp_failure now h tasks emotion cond
  = filter (λ r, str_in emotion (emotion_fit (h r)) = true)
           (apply_strict_constraints now h tasks cond emotion)
  ∧ ∀ r, r ∈ apply_strict_constraints now h tasks cond emotion →
         r ∉ analyze_csp_failure now h tasks emotion cond →
         task_type (h r) = "must_do" ∧ 7 <= base_priority (h r)
         ∧ str_in emotion (emotion_fit (h r)) = false.
Proof.
  split.
  - unfold analyze_csp_failure, apply_strict_constraints. cbv zeta.
    destruct tasks as [| t0 tasks']; [reflexivity |].
    rewrite !list_filter_filter. apply list_filter_iff. intros r.
    unfold strict_ok, strict_emotion_ok. cbv zeta.
    destruct (str_in emotion (emotion_fit (h r)));
      destruct (is_time_suitable (h r) (default now (current_time cond)));
      destruct (check_constraints now (h r) cond);
      cbn [negb andb]; intuition discriminate.
  - intros r Hin Hout.
    assert (Hr : r ∈ tasks ∧ strict_ok now cond emotion (h r) = true).
    { unfold apply_strict_constraints in Hin. destruct tasks; [inversion Hin |].
      apply list_elem_of_filter in Hin. tauto. }
    destruct Hr as [Hr Hs].
    rewrite analyze_csp_failure_spec in Hout.
    unfold strict_ok, strict_emotion_ok, csp_passes in *. cbv zeta in Hs.
    destruct (str_in emotion (emotion_fit (h r))); cbn [negb andb] in *.
    + exfalso. apply Hout. split; [exact Hr |].
      destruct (is_time_suitable (h r) (default now (current_time cond)));
        destruct (check_constraints now (h r) cond); cbn [negb] in *;
        try discriminate; reflexivity.
    + destruct (String.eqb_spec (task_type (h r)) "must_do") as [Ht | Ht];
        cbn [negb andb] in Hs; [| discriminate].
      destruct (Z.leb_spec 7 (base_priority (h r))); cbn [negb] in Hs;
        [| discriminate].
      auto.
Qed.

(** ** Descending sorts *)

Lemma insert_desc_perm {A} (gt : A → A → bool) (x : A) (l : list A) :
  insert_desc gt x l ≡ₚ x :: l.
Proof.
  induction l as [| y l IH]; [reflexivity |].
  cbn [insert_desc]. destruct (gt y x); [| reflexivity].
  rewrite IH. apply Permutation_swap.
Qed.

Lemma sort_desc_perm {A} (gt : A → A → bool) (l : list A) : sort_desc gt l ≡ₚ l.
Proof.
  induction l as [| x l IH]; [reflexivity |].
  unfold sort_desc in *. cbn [foldr]. rewrite insert_desc_perm, IH. reflexivity.
Qed.

(** [R x y]: [x] may stand before [y] in the sorted list. *)
Lemma insert_desc_sorted {A} (gt : A → A → bool) (R : relation A) (x : A) (l : list A) :
  Transitive R →
  (∀ a b, gt b a = false → R a b) → (∀ a b, gt b a = true → R b a) →
  StronglySorted R l → StronglySorted R (insert_desc gt x l).
Proof.
  intros Htr Hf Ht. induction l as [| y l IH]; intros Hs.
  - cbn [insert_desc]. repeat constructor.
  - cbn [insert_desc]. apply StronglySorted_inv in Hs as [Hs Hy].
    destruct (gt y x) eqn:E.
    + constructor; [apply IH, Hs |].
      apply Forall_forall. intros z Hz. rewrite insert_desc_perm in Hz.
      apply elem_of_cons in Hz as [-> | Hz]; [apply Ht, E |].
      rewrite Forall_forall in Hy. apply Hy, Hz.
    + constructor; [constructor; assumption |].
      constructor; [apply Hf, E |].
      apply Forall_forall. intros z Hz. rewrite Forall_forall in Hy.
      apply (Htr _ y); [apply Hf, E | apply Hy, Hz].
Qed.

Lemma sort_desc_sorted {A} (gt : A → A → bool) (R : relation A) (l : list A) :
  Transitive R →
  (∀ a b, gt b a = false → R a b) → (∀ a b, gt b a = true → R b a) →
  StronglySorted R (sort_desc gt l).
Proof.
  intros Htr Hf Ht. induction l as [| x l IH]; [constructor |].
  unfold sort_desc in *. cbn [foldr]. apply insert_desc_sorted; assumption.
Qed.

(** ** The multi-objective ranking *)

Lemma combined_all_ok (h : heap) (weights : gmap string Q) (ws wd wu : Q)
    (first : ref) (rest todo : list ref) :
  weights !! "score" = Some ws → weights !! "duration" = Some wd →
  weights !! "success" = Some wu →
  combined_all h weights first rest todo
  = Ok ((λ t, (combined_value h ws wd wu first rest t, t)) <$> todo).
Proof.
  intros Hs Hd Hu. induction todo as [| t todo IH]; [reflexivity |].
  cbn [combined_all]. unfold combined_of, getitem. rewrite Hs, Hd, Hu.
  cbn [mbind result_bind]. rewrite IH. reflexivity.
Qed.

Lemma combined_all_missing (h : heap) (weights : gmap string Q)
    (first : ref) (rest : list ref) (t : ref) (todo : list ref) :
  weights !! "score" = None ∨ weights !! "duration" = None
  ∨ weights !! "success" = None →
  combined_all h weights first rest (t :: todo) = Raise KeyError.
Proof.
  intros Hm. cbn [combined_all]. unfold combined_of, getitem.
  destruct (weights !! "score"); [| reflexivity].
  destruct (weights !! "duration"); [| reflexivity].
  destruct (weights !! "success"); [| reflexivity].
  destruct Hm as [Hm | [Hm | Hm]]; discriminate.
Qed.

(** X12. [multi_objective_optimization] on a non-empty pool, with weights
    that hold the three keys (the default weights do): the result is the
    first three entries, or all of them if there are fewer, of a
    rearrangement of the pool in which no task stands before one of a
    strictly greater combined value.  If one of the keys "score",
    "duration", "success" is missing from the weights passed, the call
    raises [KeyError].  The empty pool gives the empty list whatever the
    weights. *)
Theorem multi_objective_ranking (h : heap) (tasks : list ref)
    (weights : option (gmap string Q)) :
  match tasks with
  | [] => multi_objective_optimization h tasks weights = Ok []
  | first :: rest =>
      let w := default default_weights weights in
      match w !! "score", w !! "duration", w !! "success" with
      | Some ws, Some wd, Some wu =>
          ∃ ranked,
            multi_objective_optimization h tasks weights = Ok (take 3 ranked)
            ∧ ranked ≡ₚ tasks
            ∧ StronglySorted
                (λ x y, (combined_value h ws wd wu first rest y
                         <= combined_value h ws wd wu first rest x)%Q) ranked
      | _, _, _ => multi_objective_optimization h tasks weights = Raise KeyError
      end
  end.
Proof.
  destruct tasks as [| first rest]; [reflexivity |].
  cbv zeta. set (w := default default_weights weights).
  destruct (w !! "score") as [ws |] eqn:Hs;
    [destruct (w !! "duration") as [wd |] eqn:Hd;
     [destruct (w !! "success") as [wu |] eqn:Hu |] |].
  - set (cv := combined_value h ws wd wu first rest).
    set (tasks := first :: rest).
    set (opt := (λ t, (cv t, t)) <$> tasks).
    set (sorted := sort_desc (λ y x : Q * ref, Qltb x.1 y.1) opt).
    exists (snd <$> sorted).
    assert (Hperm : sorted ≡ₚ opt) by apply sort_desc_perm.
    split; [| split].
    + unfold multi_objective_optimization. cbv zeta. fold w.
      cbv delta [tasks] iota beta. change (first :: rest) with tasks.
      rewrite (combined_all_ok h w ws wd wu first rest tasks Hs Hd Hu).
      cbn [mbind result_bind]. fold cv. fold opt. fold sorted.
      rewrite fmap_take. reflexivity.
    + rewrite Hperm. unfold opt. rewrite <- list_fmap_compose.
      cbn [compose snd]. rewrite list_fmap_id. reflexivity.
    + assert (Hs1 : StronglySorted (λ x y : Q * ref, (y.1 <= x.1)%Q) sorted).
      { apply sort_desc_sorted.
        - intros a b c Hab Hbc. cbn beta in *. lra.
        - intros a b Hab. apply Qltb_ge in Hab. exact Hab.
        - intros a b Hab. apply Qltb_lt in Hab. cbn beta. lra. }
      assert (Hform : Forall (λ p : Q * ref, p.1 = cv p.2) sorted).
      { apply Forall_forall. intros p Hp. rewrite Hperm in Hp.
        apply list_elem_of_fmap in Hp as (t & -> & _). reflexivity. }
      clear Hperm. induction Hs1 as [| p l Hl IH Hp]; [constructor |].
      apply Forall_cons in Hform as [Hp1 Hform]. cbn [fmap list_fmap].
      constructor; [apply IH, Hform |].
      apply Forall_fmap, Forall_forall. intros q Hq. cbn [compose].
      rewrite Forall_forall in Hp, Hform.
      rewrite <- Hp1, <- (Hform q Hq). apply Hp, Hq.
  - unfold multi_objective_optimization. cbv zeta. fold w.
    rewrite combined_all_missing by auto. reflexivity.
  - unfold multi_objective_optimization. cbv zeta. fold w.
    rewrite combined_all_missing by auto. reflexivity.
  - unfold multi_objective_optimization. cbv zeta. fold w.
    rewrite combined_all_missing by auto. reflexivity.
Qed.

(** ** The fallback sequence *)

Lemma slice_to_take {A} (k : Z) (l : list A) :
  0 <= k → slice_to k l = take (Z.to_nat k) l.
Proof.
  intros Hk. unfold slice_to. destruct (Z.ltb_spec k 0); [lia | reflexivity].
Qed.

Lemma slice_to_elem {A} (k : Z) (l : list A) (x : A) : x ∈ slice_to k l → x ∈ l.
Proof. intros Hx. apply (elem_of_sublist _ _ _ Hx), slice_to_sublist. Qed.

Lemma slice_to_NoDup {A} (k : Z) (l : list A) : NoDup l → NoDup (slice_to k l).
Proof. intros Hl. apply (sublist_NoDup _ _ Hl), slice_to_sublist. Qed.

Lemma mood_not_work (c : string) :
  str_in c mood_categories = true → str_in c work_categories = true → False.
Proof.
  unfold str_in. intros Hm%bool_decide_eq_true Hw%bool_decide_eq_true.
  unfold mood_categories in Hm. unfold work_categories in Hw.
  repeat (apply elem_of_cons in Hm as [-> | Hm]);
    try (inversion Hm; fail);
    repeat (apply elem_of_cons in Hw as [Hw | Hw]); try discriminate;
    inversion Hw.
Qed.

Lemma preference_not_work (c : string) :
  str_in c preference_categories = true → str_in c work_categories = true → False.
Proof.
  unfold str_in. intros Hm%bool_decide_eq_true Hw%bool_decide_eq_true.
  unfold preference_categories in Hm. unfold work_categories in Hw.
  repeat (apply elem_of_cons in Hm as [-> | Hm]);
    try (inversion Hm; fail);
    repeat (apply elem_of_cons in Hw as [Hw | Hw]); try discriminate;
    inversion Hw.
Qed.

(** Two slices of sorted sub-pools of disjoint categories. *)
Lemma two_slices_ok (m : list ref) (P1 P2 : ref → Prop)
    `{!∀ x, Decision (P1 x), !∀ x, Decision (P2 x)}
    (s1 s2 l1 l2 : list ref) :
  NoDup m → (∀ x, P1 x → P2 x → False) →
  l1 ≡ₚ filter P1 m → l2 ≡ₚ filter P2 m →
  s1 `sublist_of` l1 → s2 `sublist_of` l2 →
  NoDup (s1 ++ s2) ∧ ∀ x, x ∈ s1 ++ s2 → x ∈ m.
Proof.
  intros Hnd Hdis H1 H2 Hs1 Hs2.
  assert (Hin1 : ∀ x, x ∈ s1 → x ∈ m ∧ P1 x).
  { intros x Hx. apply (λ H, elem_of_sublist _ _ _ H Hs1) in Hx. rewrite H1 in Hx.
    apply list_elem_of_filter in Hx. tauto. }
  assert (Hin2 : ∀ x, x ∈ s2 → x ∈ m ∧ P2 x).
  { intros x Hx. apply (λ H, elem_of_sublist _ _ _ H Hs2) in Hx. rewrite H2 in Hx.
    apply list_elem_of_filter in Hx. tauto. }
  split.
  - apply NoDup_app. split; [| split].
    + apply (λ H, sublist_NoDup _ _ H Hs1). rewrite H1. apply NoDup_filter, Hnd.
    + intros x Hx1 Hx2. apply (Hdis x); [apply Hin1, Hx1 | apply Hin2, Hx2].
    + apply (λ H, sublist_NoDup _ _ H Hs2). rewrite H2. apply NoDup_filter, Hnd.
  - intros x Hx. apply elem_of_app in Hx as [Hx | Hx];
      [apply Hin1, Hx | apply Hin2, Hx].
Qed.

Lemma fallback_front_ok (h : heap) (m : list ref) (emotion : string) (length_ : Z) :
  NoDup m →
  NoDup (fallback_front h m emotion length_)
  ∧ ∀ x, x ∈ fallback_front h m emotion length_ → x ∈ m.
Proof.
  intros Hnd. unfold fallback_front.
  destruct (str_in emotion ["sad"; "angry"; "tired"; "stressed"]); cbv zeta.
  - set (mood := filter (λ t, str_in (category (h t)) mood_categories = true) m).
    set (work := filter (λ t, str_in (category (h t)) work_categories = true) m).
    set (s1 := match mood with
               | [] => []
               | _ => slice_to 1 (by_priority_then_short h mood)
               end).
    assert (Hs1 : s1 `sublist_of` by_priority_then_short h mood).
    { unfold s1. destruct mood; [apply sublist_nil_l | apply slice_to_sublist]. }
    assert (Hone : NoDup (s1 ++ []) ∧ ∀ x, x ∈ s1 ++ [] → x ∈ m).
    { apply (two_slices_ok m _ _ s1 [] (by_priority_then_short h mood) (by_priority h work) Hnd
               (λ x, mood_not_work (category (h x))));
        [apply sort_desc_perm | apply sort_desc_perm | exact Hs1 | apply sublist_nil_l]. }
    rewrite app_nil_r in Hone.
    destruct work eqn:Ew; [exact Hone |]. rewrite <- Ew.
    destruct (Z.of_nat (length s1) <? length_); [| exact Hone].
    apply (two_slices_ok m _ _ s1 _ (by_priority_then_short h mood) (by_priority h work) Hnd
             (λ x, mood_not_work (category (h x))));
      [apply sort_desc_perm | apply sort_desc_perm | exact Hs1 | apply slice_to_sublist].
  - set (prod := filter (λ t, str_in (category (h t)) work_categories = true) m).
    set (pref := filter (λ t, str_in (category (h t)) preference_categories = true) m).
    set (s1 := match prod with
               | [] => []
               | _ => slice_to (Z.min 2 length_) (by_priority h prod)
               end).
    assert (Hs1 : s1 `sublist_of` by_priority h prod).
    { unfold s1. destruct prod; [apply sublist_nil_l | apply slice_to_sublist]. }
    assert (Hdis : ∀ x, str_in (category (h x)) work_categories = true →
                        str_in (category (h x)) preference_categories = true → False).
    { intros x Hw Hp. exact (preference_not_work _ Hp Hw). }
    assert (Hone : NoDup (s1 ++ []) ∧ ∀ x, x ∈ s1 ++ [] → x ∈ m).
    { apply (two_slices_ok m _ _ s1 [] (by_priority h prod) (by_priority h pref) Hnd Hdis);
        [apply sort_desc_perm | apply sort_desc_perm | exact Hs1 | apply sublist_nil_l]. }
    rewrite app_nil_r in Hone.
    destruct pref eqn:Ew; [exact Hone |]. rewrite <- Ew.
    destruct (Z.of_nat (length s1) <? length_); [| exact Hone].
    apply (two_slices_ok m _ _ s1 _ (by_priority h prod) (by_priority h pref) Hnd Hdis);
      [apply sort_desc_perm | apply sort_desc_perm | exact Hs1 | apply slice_to_sublist].
Qed.

Lemma remaining_length (m s : list ref) :
  NoDup m → NoDup s → (∀ x, x ∈ s → x ∈ m) →
  (length (filter (λ t, t ∉ s) m) + length s = length m)%nat.
Proof.
  intros Hm Hs Hsub.
  assert (Hp : filter (λ t, t ∉ s) m ++ s ≡ₚ m).
  { apply NoDup_Permutation; [| exact Hm |].
    - apply NoDup_app. split; [apply NoDup_filter, Hm |]. split; [| exact Hs].
      intros x Hx. apply list_elem_of_filter in Hx. tauto.
    - intros x. rewrite elem_of_app, list_elem_of_filter. split.
      + intros [[_ Hx] | Hx]; auto.
      + intros Hx. destruct (decide (x ∈ s)); auto. }
  apply Permutation_length in Hp. rewrite length_app in Hp. exact Hp.
Qed.

(** X13. [fallback_sequence_with_preferences] on a pool of distinct task
    objects and a length that is not negative: the sequence has no task
    twice, takes its tasks from the pool (and only tasks whose
    [emotion_fit] has the emotion, if there is one), and fills every slot
    the pool can fill: its length is the smaller of the length asked for
    and the number of tasks that match the emotion (of all tasks, if none
    matches).  [user_preferences] does not enter. *)
Theorem fallback_sequence_fills_slots (h : heap) (all_tasks : list ref)
    (emotion : string) (user_preferences : list ref) (length_ : Z) :
  NoDup all_tasks → 0 <= length_ →
  let matching := filter (λ t, str_in emotion (emotion_fit (h t)) = true) all_tasks in
  let result :=
    fallback_sequence_with_preferences h all_tasks emotion user_preferences length_ in
  NoDup result
  ∧ (∀ x, x ∈ result →
          x ∈ all_tasks ∧ (matching ≠ [] → str_in emotion (emotion_fit (h x)) = true))
  ∧ Z.of_nat (length result)
    = Z.min length_ (Z.of_nat (length (if bool_decide (matching = [])
                                       then all_tasks else matching))).
Proof.
  intros Hnd Hlen. cbv zeta.
  unfold fallback_sequence_with_preferences. cbv zeta.
  set (matching := filter (λ t, str_in emotion (emotion_fit (h t)) = true) all_tasks).
  set (m := match matching with [] => all_tasks | r :: l => r :: l end).
  assert (Em : m = if bool_decide (matching = []) then all_tasks else matching).
  { unfold m. destruct matching; reflexivity. }
  assert (Hm : NoDup m).
  { rewrite Em. case_bool_decide; [exact Hnd | apply NoDup_filter, Hnd]. }
  assert (Hmin : ∀ x, x ∈ m →
            x ∈ all_tasks ∧ (matching ≠ [] → str_in emotion (emotion_fit (h x)) = true)).
  { intros x Hx. rewrite Em in Hx. case_bool_decide as Hmt.
    - split; [exact Hx | intros Hne; contradiction].
    - apply list_elem_of_filter in Hx. tauto. }
  rewrite <- Em. clear Em.
  destruct (fallback_front_ok h m emotion length_ Hm) as [Hnd1 Hsub1].
  set (s1 := fallback_front h m emotion length_) in *.
  set (rem := filter (λ t, t ∉ s1) m).
  set (s2 := if Z.of_nat (length s1) <? length_
             then s1 ++ slice_to (length_ - Z.of_nat (length s1)) (by_priority h rem)
             else s1).
  assert (Hrem : (length rem + length s1 = length m)%nat)
    by (apply remaining_length; assumption).
  assert (H2 : NoDup s2 ∧ (∀ x, x ∈ s2 → x ∈ m)
               ∧ Z.min length_ (Z.of_nat (length s2))
                 = Z.min length_ (Z.of_nat (length m))).
  { unfold s2. destruct (Z.ltb_spec (Z.of_nat (length s1)) length_) as [Hlt | Hge].
    - assert (Hin : ∀ x, x ∈ slice_to (length_ - Z.of_nat (length s1)) (by_priority h rem)
                         → x ∈ m ∧ x ∉ s1).
      { intros x Hx. apply slice_to_elem in Hx. unfold by_priority in Hx.
        rewrite sort_desc_perm in Hx. apply list_elem_of_filter in Hx. tauto. }
      split; [| split].
      + apply NoDup_app. split; [exact Hnd1 |]. split.
        * intros x Hx1 Hx2. apply Hin in Hx2. tauto.
        * apply slice_to_NoDup. unfold by_priority. rewrite sort_desc_perm.
          apply NoDup_filter, Hm.
      + intros x Hx. apply elem_of_app in Hx as [Hx | Hx];
          [apply Hsub1, Hx | apply Hin, Hx].
      + rewrite length_app, slice_to_take, length_take by lia.
        unfold by_priority. rewrite (Permutation_length (sort_desc_perm _ rem)). lia.
    - split; [exact Hnd1 |]. split; [exact Hsub1 |]. lia. }
  destruct H2 as (Hnd2 & Hsub2 & Hl2).
  split; [apply slice_to_NoDup, Hnd2 |]. split.
  - intros x Hx. apply slice_to_elem in Hx. apply Hmin, Hsub2, Hx.
  - rewrite slice_to_take, length_take by lia. lia.
Qed.

Lemma fallback_sequence_fills_slots_witness :
  NoDup (fallback_sequence_with_preferences ex_heap [0%nat; 1%nat; 2%nat; 3%nat]
           "sad" [] 3)
  ∧ (∀ x, x ∈ fallback_sequence_with_preferences ex_heap [0%nat; 1%nat; 2%nat; 3%nat]
                "sad" [] 3 →
          x ∈ [0%nat; 1%nat; 2%nat; 3%nat]
          ∧ (filter (λ t, str_in "sad" (emotion_fit (ex_heap t)) = true)
                    [0%nat; 1%nat; 2%nat; 3%nat] ≠ [] →
             str_in "sad" (emotion_fit (ex_heap x)) = true))
  ∧ Z.of_nat (length (fallback_sequence_with_preferences ex_heap
                        [0%nat; 1%nat; 2%nat; 3%nat] "sad" [] 3))
    = Z.min 3 (Z.of_nat (length
        (if bool_decide (filter (λ t, str_in "sad" (emotion_fit (ex_heap t)) = true)
                                [0%nat; 1%nat; 2%nat; 3%nat] = [])
         then [0%nat; 1%nat; 2%nat; 3%nat]
         else filter (λ t, str_in "sad" (emotion_fit (ex_heap t)) = true)
                     [0%nat; 1%nat; 2%nat; 3%nat]))).
Proof.
  apply (fallback_sequence_fills_slots ex_heap [0%nat; 1%nat; 2%nat; 3%nat] "sad" [] 3).
  - apply (bool_decide_unpack _). vm_compute. exact I.
  - lia.
Defined.




(** ** The planner: full sequences or the fallback *)

Lemma greedy_member (now : datetime) (h : heap) (tasks : list ref)
    (emotion : option string) (current_conditions : option conditions) (r : ref) :
  (greedy now h tasks emotion current_conditions).1 = Some r → r ∈ tasks.
Proof.
  unfold greedy. destruct tasks as [| t0 tasks']; [discriminate |].
  cbv zeta.
  set (valid := apply_strict_constraints now h (t0 :: tasks')
                  (cond_or_empty current_conditions) (emotion_or_neutral emotion)).
  destruct valid as [| v vs] eqn:Ev; [discriminate |].
  set (h' := foldl _ h (v :: vs)).
  pose proof (greedy_loop h' (v :: vs) [] None eq_refl) as Hloop.
  cbn [app] in Hloop. cbn [fst].
  destruct (foldl (greedy_step h') None (v :: vs)) as [[b bs] |]; [| discriminate].
  cbn [fmap option_fmap option_map fst]. intros Hr. injection Hr as <-.
  destruct Hloop as (Hb & _). rewrite <- Ev in Hb. subst valid.
  apply strict_filter_spec in Hb. tauto.
Qed.

Section Planner_lengths.
Variable now : datetime.
Variable addr : nat → Z.
Variable fatigue_score : Z.
Variable all_tasks : list ref.

Lemma search_step_full (max_sequence_length : Z) (st st' : search_state) :
  planner_full max_sequence_length st →
  search_step now addr fatigue_score all_tasks max_sequence_length st = Some st' →
  planner_full max_sequence_length st'.
Proof.
  intros [Hopen Hbest]. unfold search_step.
  destruct (st_open st) as [| e l]; [discriminate |].
  pose proof (pop_min_perm addr e l) as Hperm.
  destruct (pop_min addr e l) as [m rest]. cbn [fst snd] in Hperm.
  assert (Hm : node_full max_sequence_length m.2).
  { apply Hopen. rewrite <- Hperm. apply list_elem_of_here. }
  assert (Hrest : ∀ x, x ∈ rest → node_full max_sequence_length x.2).
  { intros x Hx. apply Hopen. rewrite <- Hperm. apply list_elem_of_further, Hx. }
  destruct (Z.leb_spec max_sequence_length (node_depth m.2)) as [Hdeep | Hshallow];
    intros Hst; injection Hst as <-.
  - split; cbn [st_open best_sequence]; [exact Hrest |].
    intros s Hs. destruct (match best_score st with
                           | Some b => Qltb (node_f m.2) b
                           | None => true
                           end); [| apply Hbest, Hs].
    injection Hs as <-. destruct Hm as [Hd Hle]. lia.
  - match goal with |- context [foldl _ ?s _] => set (s0 := s) end.
    destruct (expand_fold now fatigue_score m.2 all_tasks s0)
      as (Hb & _ & _ & children & Ho & _ & Hch).
    split.
    + intros x Hx. rewrite Ho in Hx. cbn [st_open s0] in Hx.
      apply elem_of_app in Hx as [Hx | Hx]; [apply Hrest, Hx |].
      destruct (Hch x Hx) as (Hd & t & _ & _ & Hseq). destruct Hm as [Hdm _].
      split; [| lia]. rewrite Hd, Hseq, length_app, Hdm. simpl. lia.
    + intros s Hs. rewrite Hb in Hs. apply Hbest, Hs.
Qed.

Lemma search_full (max_sequence_length : Z) (fuel : nat) (st st' : search_state) :
  planner_full max_sequence_length st →
  search now addr fatigue_score all_tasks max_sequence_length fuel st = Some st' →
  planner_full max_sequence_length st'.
Proof.
  revert st. induction fuel as [| fuel IH]; intros st Hok; cbn [search].
  - destruct (st_open st); [| discriminate]. intros Hs. injection Hs as <-. exact Hok.
  - destruct (st_open st) eqn:Eo.
    { intros Hs. injection Hs as <-. exact Hok. }
    destruct (search_step now addr fatigue_score all_tasks max_sequence_length st)
      as [st1 |] eqn:Hst1.
    + apply IH. eapply search_step_full; eassumption.
    + intros Hs. injection Hs as <-. exact Hok.
Qed.

Lemma push_root_full (max_sequence_length : Z) (current_emotion : string)
    (l : list ref) (st : search_state) :
  1 <= max_sequence_length →
  planner_full max_sequence_length st →
  planner_full max_sequence_length
    (foldl (push_root now fatigue_score current_emotion) st l).
Proof.
  intros Hmsl. revert st. induction l as [| x l IH]; intros st Hok; cbn [foldl];
    [exact Hok |].
  apply IH. destruct Hok as [Hopen Hbest]. split.
  - intros e He. cbn [push_root st_open] in He.
    apply elem_of_app in He as [He | He]; [apply Hopen, He |].
    apply list_elem_of_singleton in He. subst e. cbn [snd].
    split; [reflexivity | exact Hmsl].
  - exact Hbest.
Qed.

End Planner_lengths.

(** X15. For a [max_sequence_length] of at least 1, [mini_a_star] returns
    (the search loop ends) a sequence without a repeated task, all of
    whose tasks passed the strict filter, and whose length is either
    exactly [max_sequence_length] or at most 1: the search only records
    sequences of the full length, and everything else is the single task
    of the greedy fallback (or nothing).  In particular, when fewer
    distinct task names pass the strict filter than [max_sequence_length]
    asks for, the result has at most one task. *)
Theorem mini_a_star_full_or_fallback (now : datetime) (addr : nat → Z) (h : heap)
    (tasks : list ref) (current_emotion : string)
    (current_conditions : option conditions) (max_sequence_length : Z)
    (user_preferences : list ref) :
  1 <= max_sequence_length →
  let valid_pool :=
    apply_strict_constraints now h (tasks ++ user_preferences)
      (cond_or_empty current_conditions) current_emotion in
  let all_tasks := unique_by_name h [] valid_pool in
  ∃ fuel0, ∀ fuel, (fuel0 ≤ fuel)%nat →
    ∃ seq h',
      mini_a_star now addr fuel h tasks current_emotion current_conditions
                  max_sequence_length user_preferences = Some (seq, h')
      ∧ NoDup seq
      ∧ (∀ x, x ∈ seq → x ∈ valid_pool)
      ∧ ((length seq ≤ 1)%nat ∨ Z.of_nat (length seq) = max_sequence_length)
      ∧ (Z.of_nat (length all_tasks) < max_sequence_length → (length seq ≤ 1)%nat).
Proof.
  intros Hmsl valid_pool all_tasks.
  set (fatigue_score := fatigue_of current_conditions).
  set (st0 := open_roots now fatigue_score current_emotion h all_tasks).
  exists (S (open_weight (length all_tasks) max_sequence_length (st_open st0))).
  intros fuel Hfuel. unfold mini_a_star.
  destruct (tasks ++ user_preferences) as [| p pool] eqn:Epool.
  { exists [], h. split; [reflexivity |]. split; [constructor |].
    split; [intros x Hx; inversion Hx |]. split; [left |]; simpl; lia. }
  fold valid_pool. destruct valid_pool as [| v vs] eqn:Ev.
  { exists [], h. split; [reflexivity |]. split; [constructor |].
    split; [intros x Hx; inversion Hx |]. split; [left |]; simpl; lia. }
  fold all_tasks fatigue_score st0.
  destruct (open_roots_ok now fatigue_score current_emotion h all_tasks) as [Hok0 _].
  fold st0 in Hok0.
  destruct (search_terminates now addr fatigue_score all_tasks max_sequence_length
              max_sequence_length fuel st0) as (st & Hs & _ & [_ Hbest] & _);
    [lia | lia | exact Hok0 |].
  assert (Hfull : planner_full max_sequence_length st).
  { apply (search_full now addr fatigue_score all_tasks max_sequence_length fuel st0);
      [| exact Hs].
    apply push_root_full; [exact Hmsl |].
    split; [intros e He; inversion He | discriminate]. }
  destruct Hfull as [_ Hlen].
  rewrite Hs. cbn [mbind option_bind].
  assert (Hall : ∀ x, x ∈ all_tasks → x ∈ v :: vs).
  { intros x Hx. apply (unique_by_name_spec h [] (v :: vs)) in Hx. tauto. }
  assert (Hfb : ∀ o hg,
            greedy now (st_heap st) all_tasks (Some current_emotion) None = (o, hg) →
            NoDup (fallback_list o)
            ∧ (∀ x, x ∈ fallback_list o → x ∈ v :: vs)
            ∧ (length (fallback_list o) ≤ 1)%nat).
  { intros o hg Eg. pose proof (fallback_list_length o) as Hl.
    split; [apply NoDup_short, Hl |]. split; [| exact Hl].
    intros x Hx. destruct o as [r |]; [| inversion Hx].
    apply list_elem_of_singleton in Hx. subst x. apply Hall.
    apply (greedy_member now (st_heap st) all_tasks (Some current_emotion) None).
    rewrite Eg. reflexivity. }
  unfold planner_result.
  destruct (best_sequence st) as [[| x [| y s]] |] eqn:Eb.
  - destruct (greedy now (st_heap st) all_tasks (Some current_emotion) None)
      as [o hg] eqn:Eg.
    destruct (Hfb o hg eq_refl) as (H1 & H2 & H3).
    exists (fallback_list o), hg. split; [reflexivity |]. split; [exact H1 |].
    split; [exact H2 |]. split; [left; exact H3 | intros _; exact H3].
  - destruct (greedy now (st_heap st) all_tasks (Some current_emotion) None)
      as [o hg] eqn:Eg.
    destruct (Hfb o hg eq_refl) as (H1 & H2 & H3).
    exists (fallback_list o), hg. split; [reflexivity |]. split; [exact H1 |].
    split; [exact H2 |]. split; [left; exact H3 | intros _; exact H3].
  - destruct (Hbest (x :: y :: s) eq_refl) as [Hnd Hsub].
    specialize (Hlen (x :: y :: s) eq_refl).
    assert (Hsl : slice_to max_sequence_length (x :: y :: s) = x :: y :: s).
    { rewrite slice_to_take by lia. apply take_ge. lia. }
    exists (slice_to max_sequence_length (x :: y :: s)), (st_heap st).
    rewrite Hsl. split; [reflexivity |]. split; [exact Hnd |].
    split; [intros z Hz; apply Hall, Hsub, Hz |]. split; [right; exact Hlen |].
    intros Hfew. exfalso.
    assert (Hle : (length (x :: y :: s) ≤ length all_tasks)%nat).
    { apply submseteq_length, NoDup_submseteq; [exact Hnd | exact Hsub]. }
    lia.
  - destruct (greedy now (st_heap st) all_tasks (Some current_emotion) None)
      as [o hg] eqn:Eg.
    destruct (Hfb o hg eq_refl) as (H1 & H2 & H3).
    exists (fallback_list o), hg. split; [reflexivity |]. split; [exact H1 |].
    split; [exact H2 |]. split; [left; exact H3 | intros _; exact H3].
Qed.

Lemma mini_a_star_full_or_fallback_witness :
  1 <= 3
  ∧ ∃ fuel0, ∀ fuel, (fuel0 ≤ fuel)%nat →
      ∃ seq h',
        mini_a_star ex_now Z.of_nat fuel ex_heap [0; 1; 2; 3]%nat "neutral" None 3 []
        = Some (seq, h')
        ∧ NoDup seq
        ∧ ((length seq ≤ 1)%nat ∨ Z.of_nat (length seq) = 3).
Proof.
  split; [lia |].
  destruct (mini_a_star_full_or_fallback ex_now Z.of_nat ex_heap [0; 1; 2; 3]%nat
              "neutral" None 3 []) as [fuel0 Hf]; [lia |].
  exists fuel0. intros fuel Hfuel.
  destruct (Hf fuel Hfuel) as (seq & h' & Hm & Hnd & _ & Hlen & _).
  exists seq, h'. auto.
Defined.

(** ** Hill climbing: the local optimum *)

Lemma better_than_bound (h : heap) (tasks : list ref) (r : ref) :
  r ∈ tasks → (length (better_than h tasks r) < length tasks)%nat.
Proof.
  intros Hr. unfold better_than. induction tasks as [| y l IH]; [inversion Hr |].
  rewrite filter_cons. pose proof (length_filter (λ t, Qltb (score (h r)) (score (h t)) = true) l) as Hle.
  apply elem_of_cons in Hr as [<- | Hr].
  - rewrite decide_False; [simpl; lia |].
    intros Hlt. apply Qltb_lt in Hlt. lra.
  - specialize (IH Hr). destruct (decide _); simpl; lia.
Qed.

(** With more rounds allowed than there are better tasks, the climb ends
    on a task none of whose neighbours scores more. *)
Lemma climb_local_optimum (h : heap) (tasks : list ref) (iterations : nat)
    (start : ref) :
  (length (better_than h tasks start) < iterations)%nat →
  ∀ x, x ∈ neighbors_of h tasks (climb h tasks iterations start) →
       (score (h x) <= score (h (climb h tasks iterations start)))%Q.
Proof.
  revert start. induction iterations as [| n IH]; intros start Hn; [lia |].
  cbn [climb]. destruct (neighbors_of h tasks start) as [| y ys] eqn:En.
  - rewrite En. intros x Hx. inversion Hx.
  - cbv zeta. destruct (Qltb _ _) eqn:E.
    + apply IH.
      assert (Hm : max_from (λ t, score (h t)) y ys ∈ neighbors_of h tasks start)
        by (rewrite En; apply max_from_elem).
      unfold neighbors_of in Hm. apply list_elem_of_filter in Hm as [_ Hm].
      assert (Hlt : (length (better_than h tasks (max_from (λ t, score (h t)) y ys))
                     < length (better_than h tasks start))%nat).
      { unfold better_than.
        apply (filter_length_lt _ _ tasks (max_from (λ t, score (h t)) y ys)).
        - intros t Ht. apply Qltb_lt in Ht. apply Qltb_lt in E.
          apply Qltb_lt. lra.
        - exact Hm.
        - exact E.
        - intros Hq. apply Qltb_lt in Hq. lra. }
      lia.
    + rewrite En. intros x Hx. apply Qltb_ge in E.
      apply Qle_trans with (score (h (max_from (λ t, score (h t)) y ys)));
        [| exact E].
      apply (max_from_greatest (λ t, score (h t))), Hx.
Qed.

(** X16. When [max_iterations] is at least the number of tasks in the
    pool, the task [hill_climbing] returns is a local optimum: no other
    task of the pool that is similar to it (similarity 0.6 or more)
    scores strictly more.  Every move goes to a strictly better score, so
    no task is visited twice and the climb stops by itself before the
    rounds run out.  (With fewer rounds, the default 5 included, the
    climb may be cut short.) *)
Theorem hill_climbing_reaches_local_optimum (now : datetime) (h : heap)
    (tasks : list ref) (current_conditions : option conditions)
    (max_iterations : Z) :
  Z.of_nat (length tasks) <= max_iterations →
  match hill_climbing now h tasks current_conditions max_iterations with
  | (Some r, h') =>
      ∀ x, x ∈ tasks → x ≠ r →
           (6 # 10 <= calculate_task_similarity (h' r) (h' x))%Q →
           (score (h' x) <= score (h' r))%Q
  | (None, _) => True
  end.
Proof.
  intros Hit. unfold hill_climbing.
  destruct tasks as [| t0 tasks'] eqn:Et; [exact I |]. rewrite <- Et in *.
  cbv zeta.
  set (cond := cond_or_empty current_conditions).
  set (emotion := default "neutral" (current_emotion cond)).
  set (energy := default 5 (current_energy cond)).
  destruct (apply_strict_constraints now h tasks cond emotion) as [| v vs] eqn:Ev;
    [exact I |].
  set (h' := foldl (score_task_hill now emotion energy) h (v :: vs)).
  set (start := max_from (λ t, score (h' t)) v vs).
  assert (Hstart : start ∈ tasks).
  { assert (Hin : start ∈ v :: vs) by apply max_from_elem.
    rewrite <- Ev in Hin. apply strict_filter_spec in Hin. tauto. }
  intros x Hx Hne Hsim.
  apply climb_local_optimum.
  - pose proof (better_than_bound h' tasks start Hstart). lia.
  - unfold neighbors_of. apply list_elem_of_filter. split; [| exact Hx].
    split; [exact Hne |]. apply Qle_bool_iff. exact Hsim.
Qed.

Lemma hill_climbing_reaches_local_optimum_witness :
  match hill_climbing ex_now ex_heap [0; 1; 2; 3]%nat None 4 with
  | (Some r, h') =>
      ∀ x, x ∈ [0; 1; 2; 3]%nat → x ≠ r →
           (6 # 10 <= calculate_task_similarity (h' r) (h' x))%Q →
           (score (h' x) <= score (h' r))%Q
  | (None, _) => True
  end.
Proof.
  apply (hill_climbing_reaches_local_optimum ex_now ex_heap [0; 1; 2; 3]%nat None 4).
  simpl. lia.
Defined.

(** ** Preference ranking *)

Lemma pref_reasons_nonempty (current_hour : Z) (available_resources : list string)
    (current_emotion : string) (t : Task) :
  pref_valid current_hour available_resources current_emotion t = false →
  pref_reasons current_hour available_resources current_emotion t ≠ [].
Proof.
  unfold pref_valid, pref_reasons.
  destruct (pref_resource_valid available_resources t);
    destruct (pref_time_valid current_hour t);
    destruct (str_in current_emotion (emotion_fit t));
    cbn [negb andb app]; intros H; discriminate.
Qed.

(** Step 1 keeps the tasks that pass, in their order, and writes one line
    for each task that fails. *)
Lemma pref_filter_spec (h : heap) (current_hour : Z)
    (available_resources : list string) (current_emotion : string)
    (tasks : list ref) (acc : list ref * list string) :
  let r := foldl (pref_filter_step h current_hour available_resources current_emotion)
                 acc tasks in
  r.1 = acc.1 ++ filter (λ t, pref_valid current_hour available_resources
                                 current_emotion (h t) = true) tasks
  ∧ (length r.2 + length r.1 = length acc.2 + length acc.1 + length tasks)%nat.
Proof.
  revert acc. induction tasks as [| x l IH]; intros acc; cbn [foldl].
  - rewrite filter_nil, app_nil_r. split; [reflexivity | simpl; lia].
  - cbv zeta in IH.
    specialize (IH (pref_filter_step h current_hour available_resources
                      current_emotion acc x)).
    destruct IH as [IH1 IH2]. cbv zeta.
    assert (Hstep :
      (pref_filter_step h current_hour available_resources current_emotion acc x).1
      = acc.1 ++ (if pref_valid current_hour available_resources current_emotion (h x)
                  then [x] else [])
      ∧ (length (pref_filter_step h current_hour available_resources
                   current_emotion acc x).2
         + length (pref_filter_step h current_hour available_resources
                     current_emotion acc x).1
         = length acc.2 + length acc.1 + 1)%nat).
    { unfold pref_filter_step.
      destruct (pref_valid current_hour available_resources current_emotion (h x)) eqn:E.
      - cbn [fst snd]. split; [reflexivity |]. rewrite length_app. simpl. lia.
      - cbv zeta. pose proof (pref_reasons_nonempty _ _ _ _ E) as Hne.
        destruct (pref_reasons current_hour available_resources current_emotion (h x));
          [contradiction |].
        cbn [fst snd]. rewrite app_nil_r. split; [reflexivity |].
        rewrite length_app. simpl. lia. }
    destruct Hstep as [Hs1 Hs2]. split.
    + rewrite IH1, Hs1, <- app_assoc, filter_cons. f_equal.
      destruct (pref_valid current_hour available_resources current_emotion (h x)).
      * rewrite decide_True by reflexivity. reflexivity.
      * rewrite decide_False by discriminate. reflexivity.
    + rewrite IH2, Hs2. simpl. lia.
Qed.

Lemma heuristic_frame_refl (h : heap) : heuristic_frame h h.
Proof. intros r. left. reflexivity. Qed.

(** A loop of attribute writes, one per task of [l]: what the store
    holds afterwards. *)
Lemma attr_fold (g : ref → pref_attrs → pref_attrs) (s : attr_store) (l : list ref)
    (r : ref) :
  (∀ t a, g t (g t a) = g t a) →
  foldl (λ s task, attr_update s task (g task)) s l r
  = if bool_decide (r ∈ l) then g r (s r) else s r.
Proof.
  intros Hg. induction l as [| x l IH] using rev_ind; [reflexivity |].
  rewrite foldl_snoc. set (sl := foldl _ s l) in *. unfold attr_update.
  destruct (decide (r = x)) as [-> | Hne].
  - rewrite IH, (bool_decide_true (x ∈ l ++ [x]))
      by (apply elem_of_app; right; apply list_elem_of_here).
    case_bool_decide; [apply Hg | reflexivity].
  - rewrite IH. rewrite (bool_decide_ext (r ∈ l ++ [x]) (r ∈ l)); [reflexivity |].
    rewrite elem_of_app, list_elem_of_singleton. tauto.
Qed.

(** The loop that writes [heuristic_score]: what the task store holds
    afterwards. *)
Lemma heuristic_fold (f : ref → Q) (h : heap) (l : list ref) (r : ref) :
  foldl (λ hh task, heap_set hh task (set_heuristic_score (f task) (hh task))) h l r
  = if bool_decide (r ∈ l) then set_heuristic_score (f r) (h r) else h r.
Proof.
  induction l as [| x l IH] using rev_ind; [reflexivity |].
  rewrite foldl_snoc. set (hl := foldl _ h l) in *. unfold heap_set.
  destruct (decide (r = x)) as [-> | Hne].
  - rewrite IH, (bool_decide_true (x ∈ l ++ [x]))
      by (apply elem_of_app; right; apply list_elem_of_here).
    case_bool_decide; [destruct (h x); reflexivity | reflexivity].
  - rewrite IH. rewrite (bool_decide_ext (r ∈ l ++ [x]) (r ∈ l)); [reflexivity |].
    rewrite elem_of_app, list_elem_of_singleton. tauto.
Qed.

(** Steps 2 to 4 rearrange [valid_tasks], write [mrv_score] and
    [degree_score] as the flags say, and [heuristic_score] when both
    are set; all writes are to tasks of [valid_tasks]. *)
Lemma pref_order_spec (use_mrv use_dh : bool) (h : heap) (s : attr_store)
    (valid_tasks : list ref) :
  let r := pref_order use_mrv use_dh h s valid_tasks in
  r.1.1 ≡ₚ valid_tasks
  ∧ (∀ t, r.1.2 t
          = if use_mrv && use_dh && bool_decide (t ∈ valid_tasks)
            then set_heuristic_score (pref_heuristic_value h valid_tasks t) (h t)
            else h t)
  ∧ (∀ t, t ∉ valid_tasks → r.2 t = s t)
  ∧ (∀ t, t ∈ valid_tasks →
          mrv_score (r.2 t)
          = (if use_mrv then Some (pref_mrv_score (h t)) else mrv_score (s t))
          ∧ degree_score (r.2 t)
            = (if use_dh then Some (pref_degree h valid_tasks t)
               else degree_score (s t))
          ∧ fitness_score (r.2 t) = fitness_score (s t)).
Proof.
  intros r. subst r. unfold pref_order. cbv zeta.
  set (s1 := if use_mrv
             then foldl (λ s task,
                           attr_update s task (set_mrv_score (pref_mrv_score (h task))))
                        s valid_tasks
             else s).
  set (s2 := if use_dh
             then foldl (λ s task,
                           attr_update s task
                             (set_degree_score (pref_degree h valid_tasks task)))
                        s1 valid_tasks
             else s1).
  assert (H1 : ∀ t, s1 t = if use_mrv && bool_decide (t ∈ valid_tasks)
                           then set_mrv_score (pref_mrv_score (h t)) (s t) else s t).
  { intros t. unfold s1. destruct use_mrv; [| reflexivity]. cbn [andb].
    apply (attr_fold (λ task, set_mrv_score (pref_mrv_score (h task)))).
    reflexivity. }
  assert (H2 : ∀ t, s2 t = if use_dh && bool_decide (t ∈ valid_tasks)
                           then set_degree_score (pref_degree h valid_tasks t) (s1 t)
                           else s1 t).
  { intros t. unfold s2. destruct use_dh; [| reflexivity]. cbn [andb].
    apply (attr_fold (λ task, set_degree_score (pref_degree h valid_tasks task))).
    reflexivity. }
  assert (Hout : ∀ t, t ∉ valid_tasks → s2 t = s t).
  { intros t Ht. rewrite H2, H1, (bool_decide_false _ Ht), !andb_false_r.
    reflexivity. }
  assert (Hin : ∀ t, t ∈ valid_tasks →
            mrv_score (s2 t)
            = (if use_mrv then Some (pref_mrv_score (h t)) else mrv_score (s t))
            ∧ degree_score (s2 t)
              = (if use_dh then Some (pref_degree h valid_tasks t)
                 else degree_score (s t))
            ∧ fitness_score (s2 t) = fitness_score (s t)).
  { intros t Ht. rewrite H2, H1, (bool_decide_true _ Ht), !andb_true_r.
    destruct use_mrv, use_dh; repeat split; reflexivity. }
  clearbody s1 s2.
  destruct use_mrv, use_dh; cbn [andb fst snd].
  - split; [apply sort_desc_perm |]. split; [| split; [exact Hout | exact Hin]].
    intros t. rewrite heuristic_fold. case_bool_decide as Ht; [| reflexivity].
    destruct (Hin t Ht) as (Hm & Hd & _).
    unfold pref_heuristic, pref_heuristic_value. rewrite Hm, Hd. reflexivity.
  - split; [apply sort_by_perm |]. split; [reflexivity |].
    split; [exact Hout | exact Hin].
  - split; [apply sort_desc_perm |]. split; [reflexivity |].
    split; [exact Hout | exact Hin].
  - split; [reflexivity |]. split; [reflexivity |].
    split; [exact Hout | exact Hin].
Qed.

Lemma pref_fitness_frame (h h' : heap) (current_hour : Z)
    (available_resources : list string) (current_emotion : string)
    (optimal : option Q) (is_preference : bool) (r : ref) :
  heuristic_frame h h' →
  pref_fitness current_hour available_resources current_emotion optimal
    is_preference (h' r)
  = pref_fitness current_hour available_resources current_emotion optimal
      is_preference (h r).
Proof.
  intros Hf. destruct (Hf r) as [-> | [s ->]]; [reflexivity |].
  destruct (h r); reflexivity.
Qed.

(** The loop of Step 5: the scored list, or the task on which it
    raises; and what it writes. *)
Lemma pref_score_all_spec (h : heap) (current_hour : Z)
    (available_resources : list string) (current_emotion : string)
    (optimal : ref → option Q) (is_preference : ref → bool) (s : attr_store)
    (todo : list ref) :
  let fit := fitness_of h current_hour available_resources current_emotion
               optimal is_preference in
  let r := pref_score_all h current_hour available_resources current_emotion
             optimal is_preference s todo in
  (∀ t, mrv_score (r.2 t) = mrv_score (s t)
        ∧ degree_score (r.2 t) = degree_score (s t))
  ∧ (∀ t, t ∉ todo → r.2 t = s t)
  ∧ match r.1 with
    | Some scored =>
        scored = (λ t, (fit t, t)) <$> todo
        ∧ (∀ t, t ∈ todo → c_requires (constraints (h t)) ≠ Some (ReqList []))
        ∧ (∀ t, t ∈ todo → fitness_score (r.2 t) = Some (fit t))
    | None => ∃ t, t ∈ todo ∧ c_requires (constraints (h t)) = Some (ReqList [])
    end.
Proof.
  intros fit. revert s. induction todo as [| x l IH]; intros s; cbn [pref_score_all].
  - cbv zeta. cbn [fst snd]. split; [auto |]. split; [auto |].
    split; [reflexivity |]. split; intros t Ht; inversion Ht.
  - cbv zeta.
    destruct (pref_fitness current_hour available_resources current_emotion
                (optimal x) (is_preference x) (h x)) as [f |] eqn:Ef.
    + specialize (IH (attr_update s x (set_fitness_score f))). cbv zeta in IH.
      destruct (pref_score_all h current_hour available_resources current_emotion
                  optimal is_preference (attr_update s x (set_fitness_score f)) l)
        as [rest s'].
      cbn [fst snd] in *. destruct IH as (Hkeep & Hout & Hres).
      assert (Hfx : fit x = f) by (unfold fit, fitness_of; rewrite Ef; reflexivity).
      split; [| split].
      * intros t. destruct (Hkeep t) as [-> ->]. unfold attr_update.
        destruct (decide (t = x)); split; reflexivity.
      * intros t Ht. apply not_elem_of_cons in Ht as [Hne Ht].
        rewrite (Hout t Ht). unfold attr_update. rewrite decide_False by exact Hne.
        reflexivity.
      * destruct rest as [rest |]; cbn [fmap option_fmap option_map].
        -- destruct Hres as (-> & Hreq & Hfit). split; [| split].
           ++ rewrite fmap_cons, Hfx. reflexivity.
           ++ intros t Ht. apply elem_of_cons in Ht as [-> | Ht]; [| apply Hreq, Ht].
              intros Hr. unfold pref_fitness in Ef. rewrite Hr in Ef.
              rewrite bool_decide_true in Ef by reflexivity. discriminate.
           ++ intros t Ht. destruct (decide (t ∈ l)) as [Hl | Hl]; [apply Hfit, Hl |].
              apply elem_of_cons in Ht as [-> | Ht]; [| contradiction].
              rewrite (Hout x Hl). unfold attr_update.
              rewrite decide_True by reflexivity. cbn [set_fitness_score fitness_score].
              rewrite Hfx. reflexivity.
        -- destruct Hres as (t & Ht & Hr). exists t.
           split; [apply list_elem_of_further, Ht | exact Hr].
    + cbn [fst snd]. split; [auto |]. split; [auto |].
      exists x. split; [apply list_elem_of_here |].
      unfold pref_fitness in Ef.
      destruct (c_requires (constraints (h x))) as [[r | rs] |];
        cbn [mbind option_bind] in Ef; try discriminate.
      case_bool_decide as Hrs; [subst rs; reflexivity | discriminate].
Qed.

Lemma py_abs_nonneg (x : Q) : (0 <= py_abs x)%Q.
Proof.
  unfold py_abs. destruct (Qltb x 0) eqn:E.
  - apply Qltb_lt in E. lra.
  - apply Qltb_ge in E. exact E.
Qed.

Lemma Qdiv_Z_nonneg (a b : Z) : 0 <= a → 0 < b → (0 <= Qdiv_Z a b)%Q.
Proof.
  intros Ha Hb. unfold Qdiv_Z. apply Qle_shift_div_l.
  - change 0%Q with (inject_Z 0). rewrite <- Zlt_Qlt. exact Hb.
  - rewrite Qmult_0_l. change 0%Q with (inject_Z 0). rewrite <- Zle_Qle. exact Ha.
Qed.

(** The fitness of a task that passed Step 1: between 3 and 10, and 30
    more for a preference. *)
Lemma pref_fitness_bounds (current_hour : Z) (available_resources : list string)
    (current_emotion : string) (optimal : option Q) (is_preference : bool)
    (t : Task) (f : Q) :
  pref_valid current_hour available_resources current_emotion t = true →
  pref_fitness current_hour available_resources current_emotion optimal
    is_preference t = Some f →
  if is_preference then (33 <= f ∧ f <= 40)%Q else (3 <= f ∧ f <= 10)%Q.
Proof.
  unfold pref_valid. intros Hv. apply andb_true_iff in Hv as [_ Hemo].
  unfold pref_fitness. rewrite Hemo. cbv zeta.
  set (f1 := match c_allowed_time (constraints t) with
             | Some (AllowedDict start end_) => _
             | _ => 0%Q
             end).
  assert (H1 : (0 <= f1 ∧ f1 <= 4)%Q).
  { unfold f1. destruct (c_allowed_time (constraints t)) as [[s e |] |];
      [| split; lra | split; lra].
    set (d := py_abs _). pose proof (py_abs_nonneg
      (inject_Z current_hour - default (Qdiv_Z (default 0 s + default 24 e) 2) optimal))
      as Hd. fold d in Hd.
    pose proof (py_max_lower 0 (10 - d)) as Hlo.
    assert (Hhi : (py_max 0 (10 - d) <= 10)%Q) by (apply py_max_upper; lra).
    split; lra. }
  clearbody f1.
  destruct (c_requires (constraints t)) as [[r | rs] |]; cbn [mbind option_bind].
  - intros Hf. injection Hf as <-.
    destruct (str_in r available_resources); destruct is_preference; split; lra.
  - case_bool_decide as Hrs; [discriminate |].
    intros Hf. injection Hf as <-.
    set (n := Z.of_nat (length (filter _ rs))).
    assert (Hn : 0 <= n <= Z.of_nat (length rs)).
    { unfold n. pose proof (length_filter
        (λ req, str_in req available_resources = true) rs). lia. }
    assert (Hlen : 0 < Z.of_nat (length rs)).
    { destruct rs; [contradiction | simpl; lia]. }
    pose proof (Qdiv_Z_nonneg n (Z.of_nat (length rs)) (proj1 Hn) Hlen) as Hq0.
    pose proof (Qdiv_Z_le_1 n (Z.of_nat (length rs)) Hlen (proj2 Hn)) as Hq1.
    set (q := Qdiv_Z n (Z.of_nat (length rs))) in *. clearbody q.
    destruct is_preference; split; lra.
  - intros Hf. injection Hf as <-. destruct is_preference; split; lra.
Qed.

Lemma StronglySorted_weaken {A} (R R' : relation A) (l : list A) :
  (∀ x y, x ∈ l → y ∈ l → R x y → R' x y) →
  StronglySorted R l → StronglySorted R' l.
Proof.
  intros Hw Hs. induction Hs as [| x l Hl IH Hx]; [constructor |].
  constructor.
  - apply IH. intros a b Ha Hb. apply Hw; apply list_elem_of_further; assumption.
  - rewrite Forall_forall in Hx. apply Forall_forall. intros y Hy.
    apply Hw; [apply list_elem_of_here | apply list_elem_of_further, Hy | apply Hx, Hy].
Qed.

(** X17. What [csp_preferences] returns and writes, for every pool,
    conditions dict and choice of heuristics.  The empty pool gives the
    bare empty list rather than a pair.  If a task that passes the hard
    constraints (resources, time window, preferred time, emotion)
    carries an empty list under [requires], the resource fitness divides
    by zero.  Otherwise the call returns a pair: the recommended tasks
    are the tasks that pass the hard constraints, each as often as it is
    in the pool, in an order of non-increasing fitness in which no task
    that is not a preference stands before a preference; and there is
    one excluded reason for each task that fails.  The writes: only
    tasks that pass the hard constraints are written; [mrv_score] and
    [degree_score] receive the scores of Steps 2 and 3 when their flag
    is set and are left alone otherwise; [heuristic_score] receives the
    weighted sum when both flags are set, and no other field of the task
    record is written; [fitness_score] holds the fitness of every such
    task when the call returns its pair.  The heuristics can change the
    order of tasks of equal fitness, nothing else of the result. *)
Theorem csp_preferences_ranking (now : datetime) (h : heap) (attrs : attr_store)
    (optimal : ref → option Q) (is_preference : ref → bool) (tasks : list ref)
    (current_conditions : conditions) (use_mrv use_dh : bool) :
  let hour := dt_hour (default now (current_time current_conditions)) in
  let available := resources_of current_conditions in
  let emotion := default "neutral" (current_emotion current_conditions) in
  let valid := filter (λ t, pref_valid hour available emotion (h t) = true) tasks in
  let fit := fitness_of h hour available emotion optimal is_preference in
  let r := csp_preferences now h attrs optimal is_preference tasks current_conditions
             use_mrv use_dh in
  (∀ t, r.1.2 t
        = if use_mrv && use_dh && bool_decide (t ∈ valid)
          then set_heuristic_score (pref_heuristic_value h valid t) (h t)
          else h t)
  ∧ (∀ t, t ∉ valid → r.2 t = attrs t)
  ∧ (∀ t, t ∈ valid →
          mrv_score (r.2 t)
          = (if use_mrv then Some (pref_mrv_score (h t)) else mrv_score (attrs t))
          ∧ degree_score (r.2 t)
            = (if use_dh then Some (pref_degree h valid t)
               else degree_score (attrs t)))
  ∧ match r.1.1 with
    | PrefNoTasks => tasks = []
    | PrefZeroDivision =>
        ∃ t, t ∈ valid ∧ c_requires (constraints (h t)) = Some (ReqList [])
    | PrefRanked recommended excluded_reasons =>
        tasks ≠ []
        ∧ (∀ t, t ∈ valid → c_requires (constraints (h t)) ≠ Some (ReqList []))
        ∧ recommended ≡ₚ valid
        ∧ (length excluded_reasons + length valid = length tasks)%nat
        ∧ StronglySorted (λ x y, (fit y <= fit x)%Q) recommended
        ∧ StronglySorted (λ x y, is_preference y = true → is_preference x = true)
            recommended
        ∧ (∀ t, t ∈ valid → fitness_score (r.2 t) = Some (fit t))
    end.
Proof.
  intros hour available emotion valid fit r. subst r. unfold csp_preferences.
  destruct tasks as [| t0 tasks'].
  { cbn [fst snd]. split; [| split; [| split]].
    - intros t. rewrite bool_decide_false by (intros Ht; inversion Ht).
      rewrite andb_false_r. reflexivity.
    - reflexivity.
    - intros t Ht. inversion Ht.
    - reflexivity. }
  set (tasks := t0 :: tasks') in *. cbv zeta. fold hour available emotion.
  pose proof (pref_filter_spec h hour available emotion tasks ([], [])) as Hfilter.
  cbv zeta in Hfilter. cbn [fst snd app length] in Hfilter. fold valid in Hfilter.
  destruct (foldl (pref_filter_step h hour available emotion) ([], []) tasks)
    as [valid_tasks excluded] eqn:Ef.
  cbn [fst snd] in Hfilter. destruct Hfilter as [Hv Hcount]. subst valid_tasks.
  pose proof (pref_order_spec use_mrv use_dh h attrs valid) as Horder.
  cbv zeta in Horder.
  destruct (pref_order use_mrv use_dh h attrs valid) as [[sorted h'] s2] eqn:Eo.
  cbn [fst snd] in Horder. destruct Horder as (Hperm & Hheap & Hout2 & Hin2).
  assert (Hframe : heuristic_frame h h').
  { intros t. rewrite Hheap.
    destruct (use_mrv && use_dh && bool_decide (t ∈ valid)); eauto. }
  assert (Hreq : ∀ t, c_requires (constraints (h' t)) = c_requires (constraints (h t))).
  { intros t. destruct (Hframe t) as [-> | [s ->]]; [reflexivity |].
    destruct (h t); reflexivity. }
  assert (Hfit : ∀ t, fitness_of h' hour available emotion optimal is_preference t
                      = fit t).
  { intros t. unfold fit, fitness_of. rewrite (pref_fitness_frame h h'); auto. }
  pose proof (pref_score_all_spec h' hour available emotion optimal is_preference s2
                sorted) as Hscore.
  cbv zeta in Hscore.
  destruct (pref_score_all h' hour available emotion optimal is_preference s2 sorted)
    as [scored s3].
  cbn [fst snd] in Hscore. destruct Hscore as (Hkeep & Hout3 & Hscore).
  assert (Hstore_out : ∀ t, t ∉ valid → s3 t = attrs t).
  { intros t Ht. rewrite Hout3 by (rewrite Hperm; exact Ht). apply Hout2, Ht. }
  assert (Hstore_in : ∀ t, t ∈ valid →
            mrv_score (s3 t)
            = (if use_mrv then Some (pref_mrv_score (h t)) else mrv_score (attrs t))
            ∧ degree_score (s3 t)
              = (if use_dh then Some (pref_degree h valid t)
                 else degree_score (attrs t))).
  { intros t Ht. destruct (Hkeep t) as [-> ->]. destruct (Hin2 t Ht) as (Hm & Hd & _).
    split; assumption. }
  destruct scored as [scored |]; cbn [fst snd];
    (split; [exact Hheap |]); (split; [exact Hstore_out |]);
    (split; [exact Hstore_in |]).
  - destruct Hscore as (-> & Hne & Hfs).
    assert (Hne' : ∀ t, t ∈ valid →
              c_requires (constraints (h t)) ≠ Some (ReqList [])).
    { intros t Ht. rewrite <- Hreq. apply Hne. rewrite Hperm. exact Ht. }
    set (opt := (λ t, (fitness_of h' hour available emotion optimal is_preference t, t))
                <$> sorted).
    set (ranked := sort_desc (λ y x : Q * ref, Qltb x.1 y.1) opt).
    assert (Hp : ranked ≡ₚ opt) by apply sort_desc_perm.
    assert (Hrec : ranked.*2 ≡ₚ valid).
    { rewrite Hp. unfold opt. rewrite <- list_fmap_compose. cbn [compose snd].
      rewrite list_fmap_id. exact Hperm. }
    assert (Hsorted : StronglySorted (λ x y, (fit y <= fit x)%Q) ranked.*2).
    { assert (Hs1 : StronglySorted (λ x y : Q * ref, (y.1 <= x.1)%Q) ranked).
      { apply sort_desc_sorted.
        - intros a b c Hab Hbc. cbn beta in *. lra.
        - intros a b Hab. apply Qltb_ge in Hab. exact Hab.
        - intros a b Hab. apply Qltb_lt in Hab. cbn beta. lra. }
      assert (Hform : Forall (λ p : Q * ref, p.1 = fit p.2) ranked).
      { apply Forall_forall. intros p Hin. rewrite Hp in Hin.
        apply list_elem_of_fmap in Hin as (t & -> & _). apply Hfit. }
      clear Hp Hrec. induction Hs1 as [| p l Hl IH Hpl]; [constructor |].
      apply Forall_cons in Hform as [Hp1 Hform]. rewrite fmap_cons.
      constructor; [apply IH, Hform |].
      apply Forall_fmap, Forall_forall. intros q Hq. cbn [compose].
      rewrite Forall_forall in Hpl, Hform.
      rewrite <- Hp1, <- (Hform q Hq). apply Hpl, Hq. }
    split; [discriminate |]. split; [exact Hne' |].
    split; [exact Hrec |]. split; [exact Hcount |]. split; [exact Hsorted |].
    split.
    + apply (StronglySorted_weaken (λ x y, (fit y <= fit x)%Q)); [| exact Hsorted].
      intros x y Hx Hy Hle Hpy. rewrite Hrec in Hx, Hy.
      assert (Hb : ∀ t, t ∈ valid →
                if is_preference t then (33 <= fit t ∧ fit t <= 40)%Q
                else (3 <= fit t ∧ fit t <= 10)%Q).
      { intros t Ht. pose proof Ht as Hv. apply list_elem_of_filter in Hv as [Hv _].
        unfold fit, fitness_of.
        destruct (pref_fitness hour available emotion (optimal t) (is_preference t)
                    (h t)) as [f |] eqn:Eft.
        - cbn [default]. apply (pref_fitness_bounds _ _ _ _ _ _ _ Hv Eft).
        - exfalso. apply (Hne' t Ht). unfold pref_fitness in Eft.
          destruct (c_requires (constraints (h t))) as [[q | rs] |];
            cbn [mbind option_bind] in Eft; try discriminate.
          case_bool_decide as Hrs; [subst rs; reflexivity | discriminate]. }
      pose proof (Hb x Hx) as Hbx. pose proof (Hb y Hy) as Hby.
      rewrite Hpy in Hby. destruct (is_preference x); [reflexivity |]. lra.
    + intros t Ht. rewrite <- Hfit. apply Hfs. rewrite Hperm. exact Ht.
  - destruct Hscore as (t & Ht & Hr).
    exists t. split; [rewrite <- Hperm; exact Ht | rewrite <- Hreq; exact Hr].
Qed.

(** ** Preference tasks *)

Lemma forallb_str_in (rs avail : list string) :
  forallb (λ r, str_in r avail) rs = true ↔ ∀ r, r ∈ rs → r ∈ avail.
Proof.
  rewrite forallb_forall. unfold str_in. split.
  - intros Hall r Hr. apply (bool_decide_eq_true_1 (r ∈ avail)). apply Hall.
    apply list_elem_of_In, Hr.
  - intros Hall r Hr. apply bool_decide_eq_true. apply Hall.
    apply list_elem_of_In, Hr.
Qed.

(** X18. A task made by [create_preference_task], whatever the arguments:
    [check_constraints] holds exactly when every required resource is
    available; it is time-suitable at any time; it passes the hard
    constraints of [csp_preferences] exactly when every required
    resource is available, the hour is inside the time range given
    (a pair, or a dict with defaults 0 and 24; no range, no limit), and
    the emotion is one of its emotions; and its fitness never divides by
    zero, since an empty resource argument leaves [requires] out. *)
Theorem created_preference_task_checks (name : string) (emotions : emotions_arg)
    (time_range : time_range_arg) (required_resources : resources_arg)
    (base_priority : Z) (now : datetime) (cond : conditions) (current_hour : Z)
    (current_emotion : string) (optimal : option Q) (is_preference : bool) :
  let t := create_preference_task name emotions time_range required_resources
             base_priority in
  let resources :=
    match required_resources with
    | ResourcesList l => l
    | ResourcesOne r => if String.eqb r "" then [] else [r]
    | ResourcesNone => []
    end in
  let in_window :=
    match time_range with
    | TimeTuple2 s e => s <= current_hour < e
    | TimeDict s e => default 0 s <= current_hour < default 24 e
    | TimeOther => True
    end in
  (check_constraints now t cond = true
   ↔ ∀ r, r ∈ resources → r ∈ resources_of cond)
  ∧ is_time_suitable t now = true
  ∧ (pref_valid current_hour (resources_of cond) current_emotion t = true
     ↔ (∀ r, r ∈ resources → r ∈ resources_of cond)
       ∧ in_window
       ∧ current_emotion ∈ emotion_fit t)
  ∧ is_Some (pref_fitness current_hour (resources_of cond) current_emotion
               optimal is_preference t).
Proof.
  intros t resources in_window.
  assert (Hreq : c_requires (constraints t)
                 = match resources with [] => None | _ => Some (ReqList resources) end).
  { unfold t, resources, create_preference_task, Task_init.
    cbn [constraints c_requires].
    destruct required_resources as [l | r |]; [| | reflexivity].
    - case_bool_decide as Hl; [subst l; reflexivity |]. destruct l; [contradiction |].
      reflexivity.
    - destruct (String.eqb r ""); reflexivity. }
  assert (Hwin : pref_window_valid current_hour t = true ↔ in_window).
  { unfold t, in_window, pref_window_valid, create_preference_task, Task_init.
    cbn [constraints c_allowed_time].
    destruct time_range as [s e | s e |]; cbv zeta; cbn [default];
      rewrite ?andb_true_iff, ?Z.leb_le, ?Z.ltb_lt; tauto. }
  assert (Hpref : pref_preferred_valid current_hour t = true) by reflexivity.
  assert (Hres : pref_resource_valid (resources_of cond) t = true
                 ↔ ∀ r, r ∈ resources → r ∈ resources_of cond).
  { unfold pref_resource_valid. rewrite Hreq. destruct resources as [| r0 rs].
    - split; [intros _ r Hr; inversion Hr | reflexivity].
    - apply forallb_str_in. }
  split; [| split; [| split]].
  - unfold check_constraints, too_early, requires_met, within_max_time,
      is_time_suitable.
    rewrite Hreq. unfold t, create_preference_task, Task_init.
    cbn [constraints c_date c_start_date c_max_time c_time_constraints].
    destruct resources as [| r0 rs].
    + split; [intros _ r Hr; inversion Hr | reflexivity].
    + rewrite <- forallb_str_in.
      destruct (forallb _ (r0 :: rs)); split; intros H; try reflexivity;
        try discriminate; exact H.
  - reflexivity.
  - unfold pref_valid, pref_time_valid. rewrite Hpref, andb_true_r.
    rewrite !andb_true_iff, Hres, Hwin. unfold str_in.
    rewrite bool_decide_eq_true. tauto.
  - unfold pref_fitness. rewrite Hreq. cbv zeta.
    destruct resources as [| r0 rs]; cbn [mbind option_bind]; [eexists; reflexivity |].
    rewrite bool_decide_false by discriminate. eexists. reflexivity.
Qed.

(** ** Success history and the score *)

Lemma py_max_lower_r (a b : Q) : (b <= py_max a b)%Q.
Proof.
  unfold py_max. destruct (Qltb a b) eqn:E; [apply Qle_refl |].
  apply Qltb_ge, E.
Qed.

Lemma py_min_upper_r (a b : Q) : (py_min a b <= b)%Q.
Proof.
  unfold py_min. destruct (Qltb b a) eqn:E; [apply Qle_refl |].
  apply Qltb_ge, E.
Qed.

Lemma py_max_mono (a b c : Q) : (b <= c)%Q → (py_max a b <= py_max a c)%Q.
Proof.
  intros Hbc. unfold py_max.
  destruct (Qltb a b) eqn:E1; destruct (Qltb a c) eqn:E2;
    try apply Qltb_lt in E1; try apply Qltb_ge in E1;
    try apply Qltb_lt in E2; try apply Qltb_ge in E2; lra.
Qed.

Lemma py_max_shift (a b c d : Q) :
  (0 <= d)%Q → (c <= b + d)%Q → (py_max a c <= py_max a b + d)%Q.
Proof.
  intros Hd Hc. unfold py_max.
  destruct (Qltb a b) eqn:E1; destruct (Qltb a c) eqn:E2;
    try apply Qltb_lt in E1; try apply Qltb_ge in E1;
    try apply Qltb_lt in E2; try apply Qltb_ge in E2; lra.
Qed.

Lemma raw_score_mark_attempted (now now' : datetime) (successful : bool) (t : Task)
    (e : string) (ct : option datetime) (en : Z) (p u : Q) :
  (raw_score now (mark_attempted now' successful t) e ct en p u
   == raw_score now t e ct en p u
      + (success_rate (mark_attempted now' successful t) - success_rate t) * 3)%Q.
Proof.
  unfold raw_score, get_urgency_bonus, emotion_bonus, type_bonus, energy_bonus,
    energy_required, get_time_suitability, preferred_time, mark_attempted.
  cbn [name base_priority category duration emotion_fit deadline task_type
       constraints success_rate].
  cbv zeta. ring.
Qed.

(** X19. For a task whose success rate lies between 0.1 and 1, as
    [mark_attempted] keeps it, and for any emotion, time, energy and
    bonuses: a successful attempt never lowers the value of
    [compute_score] and raises it by at most 0.3; a failed attempt never
    raises it and lowers it by at most 0.6. *)
Theorem attempt_moves_score (now now' : datetime) (t : Task) (e : string)
    (ct : option datetime) (en : Z) (p u : Q) :
  (1 # 10 <= success_rate t)%Q → (success_rate t <= 1)%Q →
  let cs := λ x, compute_score now x e ct en p u in
  (cs t <= cs (mark_attempted now' true t))%Q
  ∧ (cs (mark_attempted now' true t) <= cs t + (3 # 10))%Q
  ∧ (cs (mark_attempted now' false t) <= cs t)%Q
  ∧ (cs t <= cs (mark_attempted now' false t) + (6 # 10))%Q.
Proof.
  intros Hlo Hhi cs. unfold cs, compute_score.
  pose proof (raw_score_mark_attempted now now' true t e ct en p u) as Ht.
  pose proof (raw_score_mark_attempted now now' false t e ct en p u) as Hf.
  set (r := raw_score now t e ct en p u) in *.
  set (rt := raw_score now (mark_attempted now' true t) e ct en p u) in *.
  set (rf := raw_score now (mark_attempted now' false t) e ct en p u) in *.
  assert (Hs : (success_rate t <= success_rate (mark_attempted now' true t)
                ∧ success_rate (mark_attempted now' true t)
                  <= success_rate t + (1 # 10))%Q).
  { cbn [mark_attempted success_rate]. split.
    - apply py_min_lower; lra.
    - eapply Qle_trans; [apply py_min_upper_r |]. lra. }
  assert (Hd : (success_rate (mark_attempted now' false t) <= success_rate t
                ∧ success_rate t - (2 # 10)
                  <= success_rate (mark_attempted now' false t))%Q).
  { cbn [mark_attempted success_rate]. split.
    - apply py_max_upper; lra.
    - apply py_max_lower_r. }
  set (st := success_rate (mark_attempted now' true t)) in *.
  set (sf := success_rate (mark_attempted now' false t)) in *.
  clearbody r rt rf st sf.
  split; [apply py_max_mono; lra |].
  split; [apply py_max_shift; lra |].
  split; [apply py_max_mono; lra |].
  apply py_max_shift; lra.
Qed.

Lemma attempt_moves_score_witness :
  let cs := λ x, compute_score ex_now x "neutral" None 5 0 0 in
  (cs (ex_heap 0%nat) <= cs (mark_attempted ex_now true (ex_heap 0%nat)))%Q
  ∧ (cs (mark_attempted ex_now true (ex_heap 0%nat)) <= cs (ex_heap 0%nat) + (3 # 10))%Q
  ∧ (cs (mark_attempted ex_now false (ex_heap 0%nat)) <= cs (ex_heap 0%nat))%Q
  ∧ (cs (ex_heap 0%nat) <= cs (mark_attempted ex_now false (ex_heap 0%nat)) + (6 # 10))%Q.
Proof.
  apply (attempt_moves_score ex_now ex_now (ex_heap 0%nat) "neutral" None 5 0 0).
  - unfold Qle. simpl. lia.
  - unfold Qle. simpl. lia.
Defined.

(** ** Urgency *)

(** X20. The urgency bonus of a task with a well-formed deadline is one
    of 0, 2, 5, 8 and 10; at the same clock, a task with a later deadline
    never has a greater bonus than a task with an earlier one; the bonus
    of a task never shrinks from one day to a later day; it is 10 once
    the deadline day is past, and 0 while the deadline is more than
    8 days ahead. *)
Theorem urgency_grows_with_proximity (now later : datetime) (t1 t2 : Task) (d1 d2 : Z) :
  deadline t1 = DateDay d1 → deadline t2 = DateDay d2 →
  d1 <= d2 → dt_ordinal now < dt_ordinal later →
  get_urgency_bonus now t1 ∈ [0; 2; 5; 8; 10]
  ∧ get_urgency_bonus now t2 <= get_urgency_bonus now t1
  ∧ get_urgency_bonus now t1 <= get_urgency_bonus later t1
  ∧ (d1 < dt_ordinal now → get_urgency_bonus now t1 = 10)
  ∧ (dt_ordinal now + 8 < d1 → get_urgency_bonus now t1 = 0).
Proof.
  intros H1 H2 Hd Hlater. unfold get_urgency_bonus, days_until. rewrite H1, H2.
  cbv zeta.
  destruct (at_midnight now); destruct (at_midnight later);
    repeat match goal with
           | |- context [?a <? ?b] => destruct (Z.ltb_spec a b)
           | |- context [?a =? ?b] => destruct (Z.eqb_spec a b)
           | |- context [?a <=? ?b] => destruct (Z.leb_spec a b)
           end;
    (split; [repeat first [apply list_elem_of_here | apply list_elem_of_further] |]);
    repeat split; intros; lia.
Qed.

Lemma urgency_grows_with_proximity_witness :
  get_urgency_bonus ex_now (ex_heap 0%nat) ∈ [0; 2; 5; 8; 10]
  ∧ get_urgency_bonus ex_now (ex_heap 1%nat) <= get_urgency_bonus ex_now (ex_heap 0%nat)
  ∧ get_urgency_bonus ex_now (ex_heap 0%nat)
    <= get_urgency_bonus (mkDT 739001 9 0 0 0) (ex_heap 0%nat)
  ∧ (738994 < dt_ordinal ex_now → get_urgency_bonus ex_now (ex_heap 0%nat) = 10)
  ∧ (dt_ordinal ex_now + 8 < 738994 → get_urgency_bonus ex_now (ex_heap 0%nat) = 0).
Proof.
  apply (urgency_grows_with_proximity ex_now (mkDT 739001 9 0 0 0)
           (ex_heap 0%nat) (ex_heap 1%nat) 738994 738999).
  - reflexivity.
  - reflexivity.
  - lia.
  - simpl. lia.
Defined.

(** ** The degree heuristic *)

(** X21. For every solver object and assignment: when [mrv_heuristic]
    returns a variable, it is one of the unassigned variables; it returns
    [None] only when no variable is unassigned, and then
    [degree_heuristic] returns [None] as well.  So the call of
    [degree_heuristic] in [backtrack] never supplies a variable: the
    degree of a variable breaks no tie and has no part in the search. *)
Theorem degree_heuristic_breaks_no_tie (now : datetime) (h : heap) (self : CSP)
    (a : assignment) :
  match mrv_heuristic self a with
  | Ok None =>
      unassigned_of self a = [] ∧ degree_heuristic now h self a = Ok None
  | Ok (Some v) => v ∈ unassigned_of self a
  | Raise _ => unassigned_of self a ≠ []
  end.
Proof.
  unfold mrv_heuristic, degree_heuristic.
  destruct (unassigned_of self a) as [| u us] eqn:Eu; [split; reflexivity |].
  assert (Hscores : match mrv_scores self a (u :: us) with
                    | Ok scores => scores.*2 = u :: us
                    | Raise _ => True
                    end).
  { generalize (u :: us). intros vs. induction vs as [| v vs IH]; [reflexivity |].
    cbn [mrv_scores].
    destruct (getitem (domains self) (Some v)) as [values | ex];
      cbn [mbind result_bind]; [| exact I].
    destruct (count_legal self a (Some v) values) as [n | ex];
      cbn [mbind result_bind]; [| exact I].
    destruct (mrv_scores self a vs) as [rest | ex];
      cbn [mbind result_bind]; [| exact I].
    rewrite fmap_cons, IH. reflexivity. }
  destruct (mrv_scores self a (u :: us)) as [scores | ex];
    cbn [mbind result_bind]; [| discriminate].
  destruct scores as [| s scores']; [discriminate |].
  rewrite <- Hscores. apply list_elem_of_fmap_2, zmin_from_elem.
Qed.

(** ** The planner: emotional transitions *)

Lemma same_static_refl (h : heap) : same_static h h.
Proof. intros r. auto. Qed.

Lemma same_static_set_score (h h' : heap) (r : ref) (s : Q) :
  same_static h h' → same_static h (heap_set h' r (set_score s (h' r))).
Proof.
  intros Hs x. unfold heap_set. destruct (decide (x = r)) as [-> | Hne]; [| apply Hs].
  cbn [set_score category emotion_fit task_type base_priority]. apply Hs.
Qed.

Lemma predict_static (h h' : heap) (r : ref) (e : string) :
  same_static h h' →
  predict_next_emotion (h' r) e = predict_next_emotion (h r) e.
Proof.
  intros Hs. destruct (Hs r) as (Hc & _). unfold predict_next_emotion.
  rewrite Hc. reflexivity.
Qed.

Lemma next_emotion_ok_static (h h' : heap) (r : ref) (e : string) :
  same_static h h' → next_emotion_ok e (h' r) = next_emotion_ok e (h r).
Proof.
  intros Hs. destruct (Hs r) as (_ & Hf & Ht & Hp). unfold next_emotion_ok.
  rewrite Hf, Ht, Hp. reflexivity.
Qed.

Lemma follows_snoc (h : heap) (e : string) (s : list ref) (t : ref) :
  follows h e (s ++ [t])
  = follows h e s && next_emotion_ok (emotion_at h e s) (h t).
Proof.
  revert e. induction s as [| x s IH]; intros e; cbn [app follows].
  - unfold emotion_at. cbn [foldl]. rewrite andb_true_r. reflexivity.
  - rewrite IH, andb_assoc. reflexivity.
Qed.

Lemma transitions_snoc (h : heap) (e0 : string) (s : list ref) (t : ref) :
  transitions_ok h e0 s = true →
  (s ≠ [] → next_emotion_ok (emotion_at h e0 s) (h t) = true) →
  transitions_ok h e0 (s ++ [t]) = true.
Proof.
  destruct s as [| x s]; intros Hs Ht; [reflexivity |].
  cbn [app transitions_ok] in *. rewrite follows_snoc, Hs. cbn [andb].
  apply Ht. discriminate.
Qed.

Lemma emotion_at_snoc (h : heap) (e0 : string) (s : list ref) (t : ref) :
  emotion_at h e0 (s ++ [t]) = predict_next_emotion (h t) (emotion_at h e0 s).
Proof. unfold emotion_at. rewrite foldl_snoc. reflexivity. Qed.

Section Planner_chain.
Variable now : datetime.
Variable addr : nat → Z.
Variable fatigue_score : Z.
Variable all_tasks : list ref.
Variable h0 : heap.
Variable e0 : string.

Lemma push_root_chain (l : list ref) (st : search_state) :
  planner_chain h0 e0 st →
  planner_chain h0 e0 (foldl (push_root now fatigue_score e0) st l).
Proof.
  revert st. induction l as [| x l IH]; intros st Hok; cbn [foldl]; [exact Hok |].
  apply IH. destruct Hok as (Hs & Hopen & Hbest).
  split; [apply same_static_set_score, Hs |]. split; [| exact Hbest].
  intros e He. cbn [push_root st_open] in He.
  apply elem_of_app in He as [He | He]; [apply Hopen, He |].
  apply list_elem_of_singleton in He. subst e. cbn [snd]. split.
  - cbn [Node_init emotion_after sequence node_parent node_task].
    unfold emotion_at. cbn [foldl].
    apply predict_static, same_static_set_score, Hs.
  - reflexivity.
Qed.

Lemma expand_step_chain (node : Node) (st : search_state) (t : ref) :
  node_chain h0 e0 node → sequence node ≠ [] → planner_chain h0 e0 st →
  planner_chain h0 e0 (expand_step now fatigue_score node st t).
Proof.
  intros [Hem Htr] Hne Hok. unfold expand_step.
  case_bool_decide as Hin; [exact Hok |].
  destruct (next_emotion_ok (emotion_after node) (st_heap st t)) eqn:Egate;
    cbn [negb]; [| exact Hok].
  destruct Hok as (Hs & Hopen & Hbest).
  split; [apply same_static_set_score, Hs |]. split; [| exact Hbest].
  intros e He. cbn [st_open] in He.
  apply elem_of_app in He as [He | He]; [apply Hopen, He |].
  apply list_elem_of_singleton in He. subst e. cbn [snd]. split.
  - cbn [Node_init emotion_after sequence node_parent node_task].
    rewrite emotion_at_snoc, <- Hem.
    apply predict_static, same_static_set_score, Hs.
  - cbn [Node_init sequence node_parent node_task].
    apply transitions_snoc; [exact Htr |]. intros _.
    rewrite <- Hem, <- (next_emotion_ok_static h0 (st_heap st) t _ Hs). exact Egate.
Qed.

Lemma expand_fold_chain (node : Node) (l : list ref) (st : search_state) :
  node_chain h0 e0 node → sequence node ≠ [] → planner_chain h0 e0 st →
  planner_chain h0 e0 (foldl (expand_step now fatigue_score node) st l).
Proof.
  intros Hn Hne. revert st. induction l as [| x l IH]; intros st Hok; cbn [foldl];
    [exact Hok |].
  apply IH, expand_step_chain; assumption.
Qed.

Lemma sequence_nonempty (n : Node) : sequence n ≠ [].
Proof.
  destruct n as [t e g hh f p d]. cbn [sequence node_parent node_task].
  destruct p; [| discriminate]. intros Happ. apply app_eq_nil in Happ as [_ Hn].
  discriminate.
Qed.

Lemma search_step_chain (max_sequence_length : Z) (st st' : search_state) :
  planner_chain h0 e0 st →
  search_step now addr fatigue_score all_tasks max_sequence_length st = Some st' →
  planner_chain h0 e0 st'.
Proof.
  intros (Hs & Hopen & Hbest). unfold search_step.
  destruct (st_open st) as [| e l]; [discriminate |].
  pose proof (pop_min_perm addr e l) as Hperm.
  destruct (pop_min addr e l) as [m rest]. cbn [fst snd] in Hperm.
  assert (Hm : node_chain h0 e0 m.2).
  { apply Hopen. rewrite <- Hperm. apply list_elem_of_here. }
  assert (Hrest : ∀ x, x ∈ rest → node_chain h0 e0 x.2).
  { intros x Hx. apply Hopen. rewrite <- Hperm. apply list_elem_of_further, Hx. }
  destruct (max_sequence_length <=? node_depth m.2); intros Hst; injection Hst as <-.
  - split; [exact Hs |]. split; cbn [st_open best_sequence]; [exact Hrest |].
    intros s Hsq. destruct (match best_score st with
                            | Some b => Qltb (node_f m.2) b
                            | None => true
                            end); [| apply Hbest, Hsq].
    injection Hsq as <-. apply Hm.
  - apply expand_fold_chain; [exact Hm | apply sequence_nonempty |].
    split; [exact Hs |]. split; [exact Hrest | exact Hbest].
Qed.

Lemma search_chain (max_sequence_length : Z) (fuel : nat) (st st' : search_state) :
  planner_chain h0 e0 st →
  search now addr fatigue_score all_tasks max_sequence_length fuel st = Some st' →
  planner_chain h0 e0 st'.
Proof.
  revert st. induction fuel as [| fuel IH]; intros st Hok; cbn [search].
  - destruct (st_open st); [| discriminate]. intros Hs. injection Hs as <-. exact Hok.
  - destruct (st_open st) eqn:Eo.
    { intros Hs. injection Hs as <-. exact Hok. }
    destruct (search_step now addr fatigue_score all_tasks max_sequence_length st)
      as [st1 |] eqn:Hst1.
    + apply IH. eapply search_step_chain; eassumption.
    + intros Hs. injection Hs as <-. exact Hok.
Qed.

End Planner_chain.

(** X22. For a [max_sequence_length] of at least 1, [mini_a_star] returns
    (the search loop ends) a sequence whose emotional transitions all
    pass the planner's gate: with the emotion predicted task by task from
    the current emotion by [predict_next_emotion], every task after the
    first has the emotion predicted after its predecessor in its
    [emotion_fit], or is a must-do task of priority 7 or more; and the
    first task passes the strict filter for the current emotion. *)
Theorem mini_a_star_transitions (now : datetime) (addr : nat → Z) (h : heap)
    (tasks : list ref) (current_emotion : string)
    (current_conditions : option conditions) (max_sequence_length : Z)
    (user_preferences : list ref) :
  1 <= max_sequence_length →
  ∃ fuel0, ∀ fuel, (fuel0 ≤ fuel)%nat →
    ∃ seq h',
      mini_a_star now addr fuel h tasks current_emotion current_conditions
                  max_sequence_length user_preferences = Some (seq, h')
      ∧ transitions_ok h current_emotion seq = true
      ∧ ∀ first rest, seq = first :: rest →
          strict_ok now (cond_or_empty current_conditions) current_emotion (h first)
          = true.
Proof.
  intros Hmsl.
  set (valid_pool := apply_strict_constraints now h (tasks ++ user_preferences)
                       (cond_or_empty current_conditions) current_emotion).
  set (all_tasks := unique_by_name h [] valid_pool).
  set (fatigue_score := fatigue_of current_conditions).
  set (st0 := open_roots now fatigue_score current_emotion h all_tasks).
  exists (S (open_weight (length all_tasks) max_sequence_length (st_open st0))).
  intros fuel Hfuel. unfold mini_a_star.
  destruct (tasks ++ user_preferences) as [| p pool] eqn:Epool.
  { exists [], h. split; [reflexivity |]. split; [reflexivity |]. discriminate. }
  fold valid_pool. destruct valid_pool as [| v vs] eqn:Ev.
  { exists [], h. split; [reflexivity |]. split; [reflexivity |]. discriminate. }
  fold all_tasks fatigue_score st0.
  destruct (open_roots_ok now fatigue_score current_emotion h all_tasks) as [Hok0 _].
  fold st0 in Hok0.
  destruct (search_terminates now addr fatigue_score all_tasks max_sequence_length
              max_sequence_length fuel st0) as (st & Hs & _ & [_ Hbest] & _);
    [lia | lia | exact Hok0 |].
  assert (Hfull : planner_full max_sequence_length st).
  { apply (search_full now addr fatigue_score all_tasks max_sequence_length fuel st0);
      [| exact Hs].
    apply push_root_full; [exact Hmsl |].
    split; [intros e He; inversion He | discriminate]. }
  assert (Hchain : planner_chain h current_emotion st).
  { apply (search_chain now addr fatigue_score all_tasks h current_emotion
             max_sequence_length fuel st0); [| exact Hs].
    apply push_root_chain.
    split; [apply same_static_refl |]. split; [intros e He; inversion He | discriminate]. }
  destruct Hfull as [_ Hlen]. destruct Hchain as (_ & _ & Htrans).
  rewrite Hs. cbn [mbind option_bind].
  assert (Hall : ∀ x, x ∈ all_tasks →
            strict_ok now (cond_or_empty current_conditions) current_emotion (h x)
            = true).
  { intros x Hx. apply (unique_by_name_spec h [] (v :: vs)) in Hx as [Hx _].
    rewrite <- Ev in Hx. subst valid_pool. apply strict_filter_spec in Hx. tauto. }
  assert (Hfb : ∀ o hg,
            greedy now (st_heap st) all_tasks (Some current_emotion) None = (o, hg) →
            transitions_ok h current_emotion (fallback_list o) = true
            ∧ ∀ first rest, fallback_list o = first :: rest →
                strict_ok now (cond_or_empty current_conditions) current_emotion
                  (h first) = true).
  { intros o hg Eg. destruct o as [r |]; cbn [fallback_list].
    - split; [reflexivity |]. intros first rest Hq. injection Hq as <- <-.
      apply Hall.
      apply (greedy_member now (st_heap st) all_tasks (Some current_emotion) None).
      rewrite Eg. reflexivity.
    - split; [reflexivity | discriminate]. }
  unfold planner_result.
  destruct (best_sequence st) as [[| x [| y s]] |] eqn:Eb.
  - destruct (greedy now (st_heap st) all_tasks (Some current_emotion) None)
      as [o hg] eqn:Eg.
    exists (fallback_list o), hg. split; [reflexivity | apply (Hfb o hg eq_refl)].
  - destruct (greedy now (st_heap st) all_tasks (Some current_emotion) None)
      as [o hg] eqn:Eg.
    exists (fallback_list o), hg. split; [reflexivity | apply (Hfb o hg eq_refl)].
  - destruct (Hbest (x :: y :: s) eq_refl) as [_ Hsub].
    specialize (Hlen (x :: y :: s) eq_refl).
    assert (Hsl : slice_to max_sequence_length (x :: y :: s) = x :: y :: s).
    { rewrite slice_to_take by lia. apply take_ge. lia. }
    exists (slice_to max_sequence_length (x :: y :: s)), (st_heap st).
    rewrite Hsl. split; [reflexivity |]. split; [apply Htrans; reflexivity |].
    intros first rest Hq. injection Hq as <- <-.
    apply Hall, Hsub, list_elem_of_here.
  - destruct (greedy now (st_heap st) all_tasks (Some current_emotion) None)
      as [o hg] eqn:Eg.
    exists (fallback_list o), hg. split; [reflexivity | apply (Hfb o hg eq_refl)].
Qed.

Lemma mini_a_star_transitions_witness :
  1 <= 3
  ∧ ∃ fuel0, ∀ fuel, (fuel0 ≤ fuel)%nat →
      ∃ seq h',
        mini_a_star ex_now Z.of_nat fuel ex_heap [0; 1; 2; 3]%nat "neutral" None 3 []
        = Some (seq, h')
        ∧ transitions_ok ex_heap "neutral" seq = true.
Proof.
  split; [lia |].
  destruct (mini_a_star_transitions ex_now Z.of_nat ex_heap [0; 1; 2; 3]%nat
              "neutral" None 3 []) as [fuel0 Hf]; [lia |].
  exists fuel0. intros fuel Hfuel.
  destruct (Hf fuel Hfuel) as (seq & h' & Hm & Htr & _).
  exists seq, h'. auto.
Defined.
